(** * Zoo: procedural elephant pipeline

    A shallow embedding of the JavaScript sources packaged by
    [src/test2.py] (GeometryBuilder.js, ElephantGenerator.js, the body part
    generators, ElephantLocomotion.js, ElephantBehavior.js,
    ElephantDefinition.js, FurStrand.js and FurGenerator.js), and the
    properties of the specification checked against it.

    Conventions of the embedding:
    - a JavaScript number is a real number ([R]); [Math.sin], [Math.cos],
      [Math.sqrt] and [Math.PI] are [sin], [cos], [sqrt] and [PI].  Rounding
      to binary64 (and to binary32 inside [Float32Array]) and the values
      NaN and Infinity are not modelled;
    - a vertex or bone index is a [nat]; a [Uint16Array] stores it modulo
      65536 ([toUint16]);
    - a JavaScript array filled by [push] inside a loop is the list of the
      pushed items, in order;
    - a JavaScript object used as a dictionary is a [gmap] of its own
      properties, keyed by strings; where the names looked up are not fixed
      by the code, as in the [boneIndexMap] of the generators, a lookup goes
      through [getProperty], which also sees the properties inherited from
      [Object.prototype];
    - a thrown exception is the [Throw] result, an [Error] with its
      message. *)

From Stdlib Require Import Reals Lra Lia ZArith List.
From stdpp Require Import base option list gmap strings.

Local Open Scope R_scope.

(** ** Results of computations that may throw *)

Inductive Error : Type :=
| JsError (message : string)    (* [throw new Error(message)] *)
| TypeError.                    (* property access on [undefined] *)

(** [new Error(`Missing bone: ${name}`)] *)
Definition MissingBone (name : string) : Error := JsError ("Missing bone: " +:+ name).

(** [new Error('Missing spine_neck or head bone!')] *)
Definition MissingNeckOrHead : Error := JsError "Missing spine_neck or head bone!".

Inductive Result (A : Type) : Type :=
| Ok (a : A)
| Throw (e : Error).
Arguments Ok {A} a.
Arguments Throw {A} e.

Definition rbind {A B : Type} (r : Result A) (k : A -> Result B) : Result B :=
  match r with
  | Ok a => k a
  | Throw e => Throw e
  end.

Fixpoint rmapM {A B : Type} (f : A -> Result B) (l : list A) : Result (list B) :=
  match l with
  | [] => Ok []
  | x :: xs => rbind (f x) (fun y => rbind (rmapM f xs) (fun ys => Ok (y :: ys)))
  end.

(** ** THREE.Vector3 *)

Record Vector3 : Type := mkV3 { vx : R; vy : R; vz : R }.

Module V3.

Definition add (a b : Vector3) : Vector3 :=
  mkV3 (vx a + vx b) (vy a + vy b) (vz a + vz b).

Definition sub (a b : Vector3) : Vector3 :=
  mkV3 (vx a - vx b) (vy a - vy b) (vz a - vz b).

Definition multiplyScalar (a : Vector3) (s : R) : Vector3 :=
  mkV3 (vx a * s) (vy a * s) (vz a * s).

Definition addScaledVector (a v : Vector3) (s : R) : Vector3 :=
  mkV3 (vx a + vx v * s) (vy a + vy v * s) (vz a + vz v * s).

Definition dot (a b : Vector3) : R :=
  vx a * vx b + vy a * vy b + vz a * vz b.

(** [crossVectors(a, b)] *)
Definition crossVectors (a b : Vector3) : Vector3 :=
  mkV3 (vy a * vz b - vz a * vy b)
       (vz a * vx b - vx a * vz b)
       (vx a * vy b - vy a * vx b).

Definition lengthSq (a : Vector3) : R :=
  vx a * vx a + vy a * vy a + vz a * vz a.

Definition length (a : Vector3) : R := sqrt (lengthSq a).

(** [normalize()] is [divideScalar(this.length() || 1)]: the zero vector
    is divided by 1. *)
Definition normalize (a : Vector3) : Vector3 :=
  let l := if Req_dec_T (length a) 0 then 1 else length a in
  mkV3 (vx a / l) (vy a / l) (vz a / l).

(** [lerp(v, alpha)] *)
Definition lerp (a v : Vector3) (alpha : R) : Vector3 :=
  mkV3 (vx a + (vx v - vx a) * alpha)
       (vy a + (vy v - vy a) * alpha)
       (vz a + (vz v - vz a) * alpha).

Definition distanceTo (a b : Vector3) : R := length (sub a b).

End V3.

(** ** GeometryBuilder.js *)

(** The default value of [createRing]'s parameter [up]. *)
Definition defaultUp : Vector3 := mkV3 0 1 0.

(** [createRing(center, axis, radius, sides, up)] *)
Definition createRing (center axis : Vector3) (radius : R) (sides : nat)
    (up : Vector3) : list Vector3 :=
  let tangent0 := V3.normalize (V3.crossVectors axis up) in
  let tangent :=
    if Rlt_dec (V3.lengthSq tangent0) 1e-6 then mkV3 1 0 0 else tangent0 in
  let bitangent := V3.normalize (V3.crossVectors axis tangent) in
  map (fun i : nat =>
         let theta := INR i / INR sides * PI * 2 in
         V3.add
           (V3.addScaledVector (V3.multiplyScalar tangent (cos theta * radius))
                               bitangent (sin theta * radius))
           center)
      (seq 0 sides).

(** The six indices pushed by one iteration of the loop of [bridgeRings]. *)
Definition bridgeQuad (ringA ringB sides j : nat) : list nat :=
  let nextJ := ((j + 1) mod sides)%nat in
  let a := (ringA + j)%nat in
  let b := (ringA + nextJ)%nat in
  let c := (ringB + j)%nat in
  let d := (ringB + nextJ)%nat in
  [a; c; b] ++ [b; c; d].

(** [bridgeRings(ringA, ringB, sides, indices)]: the value of [indices]
    after the call. *)
Definition bridgeRings (ringA ringB sides : nat) (indices : list nat) : list nat :=
  fold_left (fun acc j => acc ++ bridgeQuad ringA ringB sides j) (seq 0 sides) indices.

(** The index list read three at a time. *)
Fixpoint triangles (l : list nat) : list (nat * nat * nat) :=
  match l with
  | a :: b :: c :: rest => (a, b, c) :: triangles rest
  | _ => []
  end.

(** ** THREE.BufferGeometry

    The part of three.js that [makeFlat] and the generators call. *)

(** The conversion of a non-negative integer to an unsigned 16-bit item. *)
Definition toUint16 (n : nat) : nat := Z.to_nat (Z.of_nat n mod 65536).

(** The items of a [Uint16Array] are below 65536: whatever is stored in
    one goes through [toUint16]. *)
Inductive TypedArray : Type :=
| Float32Array (data : list R)
| Uint16Array (data : list nat).

(** [new Uint16Array(array)], as [new THREE.Uint16BufferAttribute(array,
    itemSize)] builds it from a JavaScript array of integers. *)
Definition uint16Array (items : list nat) : TypedArray :=
  Uint16Array (map toUint16 items).

Record BufferAttribute : Type := mkAttr {
  array : TypedArray;
  itemSize : nat
}.

Record BufferGeometry : Type := mkGeo {
  attributes : gmap string BufferAttribute;
  index : option (list nat)
}.

Module BG.

Definition arrayLength (a : TypedArray) : nat :=
  match a with
  | Float32Array d => length d
  | Uint16Array d => length d
  end.

(** [attribute.count] *)
Definition count (a : BufferAttribute) : nat :=
  (arrayLength (array a) / itemSize a)%nat.

(** Element [i] of a typed array, as a number. *)
Definition getItem (a : TypedArray) (i : nat) : R :=
  match a with
  | Float32Array d => nth i d 0
  | Uint16Array d => INR (nth i d 0%nat)
  end.

(** Modelled from the spec: [convertBufferAttribute] of three.js's
    [toNonIndexed], absent from the sources; for every entry [i] of the
    index it copies the [itemSize] items of vertex [i]. *)
Definition gather {A : Type} (d : A) (l : list A) (size : nat)
    (indices : list nat) : list A :=
  flat_map (fun i : nat => map (fun j : nat => nth (i * size + j)%nat l d) (seq 0 size))
           indices.

Definition convertBufferAttribute (indices : list nat) (a : BufferAttribute)
    : BufferAttribute :=
  match array a with
  | Float32Array d => mkAttr (Float32Array (gather 0 d (itemSize a) indices)) (itemSize a)
  | Uint16Array d => mkAttr (Uint16Array (gather 0%nat d (itemSize a) indices)) (itemSize a)
  end.

(** Modelled from the spec: [BufferGeometry.toNonIndexed()] of three.js,
    absent from the sources: each triangle gets its own three vertices;
    a geometry that has no index is returned as it is. *)
Definition toNonIndexed (g : BufferGeometry) : BufferGeometry :=
  match index g with
  | None => g
  | Some indices => mkGeo (convertBufferAttribute indices <$> attributes g) None
  end.

Definition deleteAttribute (name : string) (g : BufferGeometry) : BufferGeometry :=
  mkGeo (delete name (attributes g)) (index g).

Definition setAttribute (name : string) (a : BufferAttribute) (g : BufferGeometry)
    : BufferGeometry :=
  mkGeo (<[name := a]> (attributes g)) (index g).

(** [vector.fromBufferAttribute(attribute, i)] on the items of an
    attribute of item size 3. *)
Definition fromBuffer (d : list R) (i : nat) : Vector3 :=
  mkV3 (nth (3 * i) d 0) (nth (3 * i + 1) d 0) (nth (3 * i + 2) d 0).

(** [attribute.setXYZ(i, x, y, z)]; a typed array ignores a write past its
    end, as the list update does. *)
Definition setXYZ (d : list R) (i : nat) (v : Vector3) : list R :=
  <[(3 * i + 2)%nat := vz v]> (<[(3 * i + 1)%nat := vy v]> (<[(3 * i)%nat := vx v]> d)).

(** The face vector [cb.subVectors(pC, pB); ab.subVectors(pA, pB);
    cb.cross(ab)] of [computeVertexNormals]. *)
Definition faceVector (pA pB pC : Vector3) : Vector3 :=
  V3.crossVectors (V3.sub pC pB) (V3.sub pA pB).

(** One turn of the loop over a triangle soup: the triangle made of
    vertices [3k], [3k+1], [3k+2]. *)
Definition soupStep (pos : TypedArray) (normals : list R) (k : nat) : list R :=
  let i := (3 * k)%nat in
  let get v := mkV3 (getItem pos (3 * v)) (getItem pos (3 * v + 1)) (getItem pos (3 * v + 2)) in
  let cb := faceVector (get i) (get (i + 1)%nat) (get (i + 2)%nat) in
  setXYZ (setXYZ (setXYZ normals i cb) (i + 1) cb) (i + 2) cb.

(** One turn of the loop over an indexed geometry: the face vector is
    added to the normals of the three vertices the index names. *)
Definition indexedStep (pos : TypedArray) (indices : list nat) (normals : list R)
    (k : nat) : list R :=
  let get v := mkV3 (getItem pos (3 * v)) (getItem pos (3 * v + 1)) (getItem pos (3 * v + 2)) in
  let vA := nth (3 * k) indices 0%nat in
  let vB := nth (3 * k + 1) indices 0%nat in
  let vC := nth (3 * k + 2) indices 0%nat in
  let cb := faceVector (get vA) (get vB) (get vC) in
  let nA := V3.add (fromBuffer normals vA) cb in
  let nB := V3.add (fromBuffer normals vB) cb in
  let nC := V3.add (fromBuffer normals vC) cb in
  setXYZ (setXYZ (setXYZ normals vA nA) vB nB) vC nC.

(** [normalizeNormals()] *)
Definition normalizeNormals (normals : list R) : list R :=
  fold_left (fun acc i => setXYZ acc i (V3.normalize (fromBuffer acc i)))
            (seq 0 (length normals / 3)) normals.

(** Modelled from the spec: [BufferGeometry.computeVertexNormals()] of
    three.js, absent from the sources.  A loop [for (i = 0; i < n; i += 3)]
    runs [(n + 2) / 3] times. *)
Definition computeVertexNormals (g : BufferGeometry) : BufferGeometry :=
  match attributes g !! "position" with
  | None => g
  | Some positionAttribute =>
      let zeros :=
        match attributes g !! "normal" with
        | None => replicate (count positionAttribute * 3) 0
        | Some normalAttribute => replicate (arrayLength (array normalAttribute)) 0
        end in
      let pos := array positionAttribute in
      let summed :=
        match index g with
        | Some indices =>
            fold_left (indexedStep pos indices) (seq 0 ((length indices + 2) / 3)) zeros
        | None =>
            fold_left (soupStep pos) (seq 0 ((count positionAttribute + 2) / 3)) zeros
        end in
      setAttribute "normal" (mkAttr (Float32Array (normalizeNormals summed)) 3) g
  end.

(** Number of triangles drawn from a geometry. *)
Definition triangleCount (g : BufferGeometry) : nat :=
  match index g with
  | Some indices => (length indices / 3)%nat
  | None =>
      match attributes g !! "position" with
      | Some p => (count p / 3)%nat
      | None => 0%nat
      end
  end.

Definition vertexCount (g : BufferGeometry) : nat :=
  match attributes g !! "position" with
  | Some p => count p
  | None => 0%nat
  end.

(** Normal of vertex [i], when the geometry has normals. *)
Definition normalOf (g : BufferGeometry) (i : nat) : option Vector3 :=
  match attributes g !! "normal" with
  | Some (mkAttr (Float32Array d) _) => Some (fromBuffer d i)
  | _ => None
  end.

Definition positionOf (g : BufferGeometry) (i : nat) : Vector3 :=
  match attributes g !! "position" with
  | Some p => mkV3 (getItem (array p) (3 * i)) (getItem (array p) (3 * i + 1))
                   (getItem (array p) (3 * i + 2))
  | None => mkV3 0 0 0
  end.

End BG.

(** ** ElephantGenerator.js: flattening *)

(** [makeFlat(geometry)] *)
Definition makeFlat (geometry : BufferGeometry) : BufferGeometry :=
  let flatGeo := BG.toNonIndexed geometry in
  let flatGeo := BG.deleteAttribute "normal" flatGeo in
  BG.computeVertexNormals flatGeo.

(** ** Body part generators

    Every generator fills five parallel arrays ([positions], [normals],
    [uvs], [skinIndices], [skinWeights]), always pushing one vertex worth of
    items to each of them at the same place; a [Vertex] is that group of
    pushes, and [positions.length / 3] is the length of the vertex list. *)

Record Vertex : Type := mkVertex {
  vPosition : Vector3;
  vNormal : Vector3;
  vUv : R * R;
  vSkinIndex : nat * nat * nat * nat;
  vSkinWeight : R * R * R * R
}.

(** A bone as the generators read it: its name and the translation part of
    [matrixWorld]. *)
Record SkelBone : Type := mkSkelBone {
  boneName : string;
  worldPosition : Vector3
}.

(** The [options] object; an absent property is [None]. *)
Record PartOptions : Type := mkOptions {
  optBones : option (list string);
  optSides : option nat;
  optRadii : option (list R);
  optYOffset : option R;
  optBaseRadius : option R;
  optMidRadius : option R;
  optTipRadius : option R;
  optNeckRadius : option R;
  optRearCapBulge : option R;
  optParentBone : option string;
  optShoulderBone : option string;
  optUpperBone : option string;
  optLowerBone : option string;
  optPawBone : option string
}.

Definition noOptions : PartOptions :=
  mkOptions None None None None None None None None None None None None None None.

(** [x || d] on numbers: [0] and [undefined] give the default. *)
Definition orR (x : option R) (d : R) : R :=
  match x with
  | Some v => if Req_dec_T v 0 then d else v
  | None => d
  end.

Definition orNat (x : option nat) (d : nat) : nat :=
  match x with
  | Some (S n) => S n
  | _ => d
  end.

(** [x || d] on strings: the empty string and [undefined] give the default. *)
Definition orString (x : option string) (d : string) : string :=
  match x with
  | Some EmptyString => d
  | Some s => s
  | None => d
  end.

(** The names of the properties of [Object.prototype], which an object
    literal [{}] inherits: those of ECMAScript and of its annex for
    browsers. *)
Definition objectPrototypeKeys : list string :=
  ["constructor"; "hasOwnProperty"; "isPrototypeOf"; "propertyIsEnumerable";
   "toLocaleString"; "toString"; "valueOf"; "__proto__";
   "__defineGetter__"; "__defineSetter__"; "__lookupGetter__"; "__lookupSetter__"].

(** The value of [object[name]] for an object literal that holds bone
    indices. *)
Inductive Property : Type :=
| Index (idx : nat)   (* an own property: the number assigned to it *)
| Inherited           (* a function, or for [__proto__] the prototype itself *)
| Undefined.

(** [object[name]]: the own property when there is one, else what
    [Object.prototype] has under that name. *)
Definition getProperty (own : gmap string nat) (name : string) : Property :=
  match own !! name with
  | Some idx => Index idx
  | None => if decide (name ∈ objectPrototypeKeys) then Inherited else Undefined
  end.

(** [object[name] = idx]: an own property is created or replaced, also
    under a name that [Object.prototype] has as a method; the assignment to
    [__proto__] calls the inherited setter, which ignores a number. *)
Definition setProperty (name : string) (idx : nat) (own : gmap string nat)
    : gmap string nat :=
  if decide (name = "__proto__") then own else <[name := idx]> own.

(** [const boneIndexMap = {}; skeleton.bones.forEach((bone, idx) => {
    boneIndexMap[bone.name] = idx; })]: the own properties of
    [boneIndexMap]; a later bone of the same name replaces an earlier one. *)
Definition boneIndexMap (bones : list SkelBone) : gmap string nat :=
  fold_left (fun m (ib : nat * SkelBone) => setProperty (boneName ib.2) ib.1 m)
            (combine (seq 0 (length bones)) bones) ∅.

(** [boneIndexMap[name]] pushed into [skinIndices], as the [Uint16Array]
    built from [skinIndices] will read it: [undefined], a function and an
    object convert to NaN, which is stored as 0. *)
Definition skinRef (m : gmap string nat) (name : string) : nat :=
  match getProperty m name with
  | Index idx => idx
  | Inherited | Undefined => 0%nat
  end.

(** The [getPos] helper of the torso, limb and neck generators:
    [skeleton.bones[idx]] is [undefined] when [idx] is [undefined] or is not
    a number. *)
Definition getPos (bones : list SkelBone) (name : string) : Result Vector3 :=
  match getProperty (boneIndexMap bones) name with
  | Index idx =>
      match bones !! idx with
      | Some bone => Ok (worldPosition bone)
      | None => Throw (MissingBone name)
      end
  | Inherited | Undefined => Throw (MissingBone name)
  end.

Definition zeroV : Vector3 := mkV3 0 0 0.

(** Axis of ring [i] of a chain: toward the next point, and for the last
    ring from the previous point. *)
Definition chainAxis (points : list Vector3) (i : nat) : Vector3 :=
  let center := nth i points zeroV in
  if decide (i = (length points - 1)%nat)
  then V3.normalize (V3.sub center (nth (i - 1) points zeroV))
  else V3.normalize (V3.sub (nth (i + 1) points zeroV) center).

(** The vertices of the rings of a tube: ring [i] is bound with full weight
    to the bone [skinRefs[i]]. *)
Definition tubeVertices (points : list Vector3) (radii : list R) (sides : nat)
    (yOffset : R) (mainBone : nat -> nat) : list Vertex :=
  flat_map (fun i : nat =>
    let center := nth i points zeroV in
    let ring := createRing center (chainAxis points i) (nth i radii 0) sides defaultUp in
    map (fun jv : nat * Vector3 =>
           let v := jv.2 in
           mkVertex (mkV3 (vx v) (vy v + yOffset) (vz v))
                    (V3.normalize (V3.sub v center))
                    (INR jv.1 / INR sides, INR i / INR (length points - 1))
                    (mainBone i, mainBone i, 0%nat, 0%nat)
                    (1, 0, 0, 0))
        (combine (seq 0 (length ring)) ring))
    (seq 0 (length points)).

(** [for (seg = 0; seg < n - 1; seg++) bridgeRings(ringStarts[seg],
    ringStarts[seg + 1], sides, indices)], where ring [i] starts at vertex
    [i * sides]. *)
Definition tubeIndices (rings sides : nat) (indices : list nat) : list nat :=
  fold_left (fun acc seg => bridgeRings (seg * sides) ((seg + 1) * sides) sides acc)
            (seq 0 (rings - 1)) indices.

(** The rim of a cap: the positions of the [sides] vertices from [start]. *)
Definition rimVertices (verts : list Vertex) (start sides : nat) : list Vector3 :=
  map (fun j : nat => vPosition (nth (start + j) verts (mkVertex zeroV zeroV (0, 0) (0, 0, 0, 0)%nat (0, 0, 0, 0))))
      (seq 0 sides).

(** The rings of a bulged cap, from ring [firstSeg] to ring [segments]:
    ring [seg] lies at [t = seg / segments] between the rim and the apex and
    blends the two bones with the weights [boneWeightFunc t]. *)
Definition capRings (rimVerts : list Vector3) (apex : Vector3)
    (firstSeg segments sides : nat) (center : Vector3) (skinA skinB : nat)
    (boneWeightFunc : R -> R * R) (uvBase : R) : list Vertex :=
  flat_map (fun seg : nat =>
    let t := INR seg / INR segments in
    map (fun j : nat =>
           let rim := nth j rimVerts zeroV in
           let v := if decide (seg = 0%nat) then rim else V3.lerp rim apex t in
           let normal :=
             if decide (seg = 0%nat) then V3.normalize (V3.sub v center)
             else V3.normalize (V3.sub apex rim) in
           let w := boneWeightFunc t in
           mkVertex v normal (INR j / INR sides, uvBase + t)
                    (skinA, skinB, 0%nat, 0%nat) (w.1, w.2, 0, 0))
        (seq 0 sides))
    (seq firstSeg (segments + 1 - firstSeg)).

(** The apex vertex of a cap, bound with full weight to [skinB]. *)
Definition capApex (apex normal : Vector3) (uvBase : R) (skinB : nat) : Vertex :=
  mkVertex apex normal (0.5, uvBase + 1) (skinB, skinB, 0%nat, 0%nat) (1, 0, 0, 0).

(** [buildBulgedEndCap({ rimVerts, apex, segments, sides, center, skinA,
    skinB, boneWeightFunc, uvBase })] of LimbGenerator.js. *)
Definition buildBulgedEndCap (rimVerts : list Vector3) (apex : Vector3)
    (segments sides : nat) (center : Vector3) (skinA skinB : nat)
    (boneWeightFunc : R -> R * R) (uvBase : R) : list Vertex :=
  capRings rimVerts apex 0 segments sides center skinA skinB boneWeightFunc uvBase
  ++ [capApex apex (mkV3 0 0 1) uvBase skinB].

(** The default [boneWeightFunc]: [t => [1 - t, t]]. *)
Definition blendWeights (t : R) : R * R := (1 - t, t).

(** The triangles of a cap whose first ring starts at [baseIdx]: the rings
    are bridged pairwise and the last ring is fanned to the apex [apexIdx]. *)
Definition capIndices (baseIdx segments sides apexIdx : nat) (indices : list nat)
    : list nat :=
  let bridged :=
    fold_left (fun acc seg =>
                 let ring0 := (baseIdx + seg * sides)%nat in
                 let ring1 := (baseIdx + (seg + 1) * sides)%nat in
                 fold_left (fun acc' j =>
                   let a := (ring0 + j)%nat in
                   let b := (ring0 + (j + 1) mod sides)%nat in
                   let c := (ring1 + j)%nat in
                   let d := (ring1 + (j + 1) mod sides)%nat in
                   acc' ++ [a; c; b] ++ [b; c; d]) (seq 0 sides) acc)
              (seq 0 segments) indices in
  let lastRingStart := (baseIdx + sides * segments)%nat in
  fold_left (fun acc j =>
               let a := (lastRingStart + j)%nat in
               let b := (lastRingStart + (j + 1) mod sides)%nat in
               acc ++ [apexIdx; a; b])
            (seq 0 sides) bridged.

Definition flatten3 (l : list Vector3) : list R :=
  flat_map (fun v => [vx v; vy v; vz v]) l.

(** [buildBufferGeometry({ positions, normals, skinIndices, skinWeights,
    uvs, indices })]: an empty array sets no attribute and no index. *)
Definition buildBufferGeometry (verts : list Vertex) (indices : list nat)
    : BufferGeometry :=
  let attr (name : string) (a : BufferAttribute) (m : gmap string BufferAttribute) :=
    if decide (BG.arrayLength (array a) = 0%nat) then m else <[name := a]> m in
  let positions := flatten3 (map vPosition verts) in
  let normals := flatten3 (map vNormal verts) in
  let skinIndices :=
    flat_map (fun v => match vSkinIndex v with (a, b, c, d) => [a; b; c; d] end) verts in
  let skinWeights :=
    flat_map (fun v => match vSkinWeight v with (a, b, c, d) => [a; b; c; d] end) verts in
  let uvs := flat_map (fun v => [(vUv v).1; (vUv v).2]) verts in
  mkGeo (attr "uv" (mkAttr (Float32Array uvs) 2)
          (attr "skinWeight" (mkAttr (Float32Array skinWeights) 4)
            (attr "skinIndex" (mkAttr (uint16Array skinIndices) 4)
              (attr "normal" (mkAttr (Float32Array normals) 3)
                (attr "position" (mkAttr (Float32Array positions) 3) ∅)))))
        (if decide (length indices = 0%nat) then None else Some indices).

(** The last statements of every generator: [buildBufferGeometry] and then
    [if (geometry.index) geometry = geometry.toNonIndexed()]. *)
Definition finishGeometry (verts : list Vertex) (indices : list nat) : BufferGeometry :=
  BG.toNonIndexed (buildBufferGeometry verts indices).

(** [THREE.MathUtils.lerp(x, y, t)] *)
Definition lerpR (x y t : R) : R := (1 - t) * x + t * y.

(** *** TailGenerator.js *)

(** [generateTailGeometry(skeleton, options)]; the chain always starts at
    [spine_base].  A name for which [boneIndexMap[name]] is inherited passes
    the test [idx === undefined] and throws at
    [skeleton.bones[idx].matrixWorld].  A chain of a single point throws in
    the first turn of the ring loop, where [tailPoints[i - 1]] is
    [undefined]. *)
Definition generateTailGeometry (bones : list SkelBone) (options : PartOptions)
    : Result BufferGeometry :=
  let tailBoneNames := default ["tail_base"; "tail_mid"; "tail_tip"] (optBones options) in
  let sides := orNat (optSides options) 6 in
  let baseRadius := orR (optBaseRadius options) 0.08 in
  let midRadius := orR (optMidRadius options) 0.07 in
  let tipRadius := orR (optTipRadius options) 0.05 in
  let yOffset := orR (optYOffset options) 0 in
  let m := boneIndexMap bones in
  let allTailBoneNames := "spine_base" :: tailBoneNames in
  rbind (rmapM (fun name =>
                  match getProperty m name with
                  | Undefined => Throw (MissingBone name)
                  | Inherited => Throw TypeError
                  | Index idx =>
                      match bones !! idx with
                      | Some bone => Ok (worldPosition bone)
                      | None => Throw TypeError
                      end
                  end) allTailBoneNames) (fun tailPoints =>
  let radii :=
    match optRadii options with
    | Some radii => radii
    | None =>
        if decide (length allTailBoneNames = 4%nat)
        then [baseRadius; baseRadius; midRadius; tipRadius]
        else map (fun i : nat =>
                    let t := INR i / INR (length tailPoints - 1) in
                    lerpR baseRadius tipRadius t)
                 (seq 0 (length tailPoints))
    end in
  if decide (length tailPoints < 2)%nat then Throw TypeError else
  let verts :=
    tubeVertices tailPoints radii sides yOffset
                 (fun i => skinRef m (nth i allTailBoneNames "")) in
  let indices := tubeIndices (length tailPoints) sides [] in
  Ok (finishGeometry verts indices)).

(** *** LimbGenerator.js *)

(** [generateLimbGeometry(skeleton, options)]: a tube along the bones, a
    bulged cap of two segments at the shoulder and a cap of one segment at
    the tip.  A chain of one point throws in the ring loop ([points[i - 1]]
    is [undefined]); an empty chain throws at [getPos(undefined)] or at
    [lerp(points[0], -0.25)]. *)
Definition generateLimbGeometry (bones : list SkelBone) (options : PartOptions)
    : Result BufferGeometry :=
  let boneNames :=
    default [orString (optShoulderBone options) "front_left_collarbone";
             orString (optUpperBone options) "front_left_upper_leg";
             orString (optLowerBone options) "front_left_lower_leg";
             orString (optPawBone options) "front_left_paw"] (optBones options) in
  let sides := orNat (optSides options) 7 in
  let radii := default [0.075; 0.060; 0.050; 0.035] (optRadii options) in
  let yOffset := orR (optYOffset options) 0 in
  let m := boneIndexMap bones in
  rbind (rmapM (getPos bones) boneNames) (fun points =>
  if decide (length points = 1)%nat then Throw TypeError else
  let last := (length points - 1)%nat in
  let verts :=
    tubeVertices points radii sides yOffset (fun i => skinRef m (nth i boneNames "")) in
  let indices := tubeIndices (length points) sides [] in
  let rimStartIdx := 0%nat in
  let rimVerts := rimVertices verts rimStartIdx sides in
  rbind (getPos bones (orString (optParentBone options) (nth 0 boneNames "undefined")))
        (fun parentBone =>
  if decide (length points = 0)%nat then Throw TypeError else
  let shoulderApex := V3.lerp parentBone (nth 0 points zeroV) (-0.25) in
  let capSegments := 2%nat in
  let cap :=
    buildBulgedEndCap rimVerts shoulderApex capSegments sides (nth 0 points zeroV)
                      (skinRef m (nth 0 boneNames "")) (skinRef m (nth 1 boneNames ""))
                      blendWeights (-0.35) in
  let verts := verts ++ cap in
  let baseIdx := (length verts - length cap)%nat in
  let indices := capIndices baseIdx capSegments sides (length verts - 1) indices in
  let tipRimStartIdx := (last * sides)%nat in
  let tipRimVerts := rimVertices verts tipRimStartIdx sides in
  let tipApex :=
    V3.add (nth last points zeroV)
           (V3.multiplyScalar
              (V3.normalize (V3.sub (nth last points zeroV) (nth (last - 1) points zeroV)))
              (-0.015)) in
  let tipCap :=
    buildBulgedEndCap tipRimVerts tipApex 1 sides (nth last points zeroV)
                      (skinRef m (nth last boneNames "")) (skinRef m (nth last boneNames ""))
                      (fun _ => (1, 0)) 1.05 in
  let verts := verts ++ tipCap in
  let tipBaseIdx := (length verts - length tipCap)%nat in
  let indices := capIndices tipBaseIdx 1 sides (length verts - 1) indices in
  Ok (finishGeometry verts indices))).

(** *** NeckGenerator.js *)

(** The rings of the neck: the first and the last ring are bound to one
    bone, a ring between them to its two neighbours, half each. *)
Definition neckVertices (neckPoints : list Vector3) (neckChain : list string)
    (radii : list R) (sides : nat) (yOffset : R) (m : gmap string nat) : list Vertex :=
  flat_map (fun i : nat =>
    let center := nth i neckPoints zeroV in
    let prev := if decide (i = 0%nat) then center else nth (i - 1) neckPoints zeroV in
    let next :=
      if decide (i = (length neckPoints - 1)%nat) then center
      else nth (i + 1) neckPoints zeroV in
    let axis0 := V3.normalize (V3.sub next prev) in
    let axis := if Rlt_dec (V3.lengthSq axis0) 1e-6 then mkV3 0 1 0 else axis0 in
    let up := if Rgt_dec (Rabs (vy axis)) 0.99 then mkV3 1 0 0 else mkV3 0 1 0 in
    let ring := createRing center axis (nth i radii 0) sides up in
    map (fun jv : nat * Vector3 =>
           let v := jv.2 in
           let skin :=
             if decide (i = 0%nat)
             then (skinRef m (nth 0 neckChain ""), skinRef m (nth 0 neckChain ""), 1, 0)
             else if decide (i = (length neckPoints - 1)%nat)
             then (skinRef m (nth (length neckChain - 1) neckChain ""),
                   skinRef m (nth (length neckChain - 1) neckChain ""), 1, 0)
             else (skinRef m (nth (i - 1) neckChain ""), skinRef m (nth i neckChain ""),
                   0.5, 0.5) in
           match skin with
           | (boneA, boneB, wa, wb) =>
               mkVertex (mkV3 (vx v) (vy v + yOffset) (vz v))
                        (V3.normalize (V3.sub v center))
                        (INR jv.1 / INR sides, INR i / INR (length neckPoints - 1))
                        (boneA, boneB, 0%nat, 0%nat) (wa, wb, 0, 0)
           end)
        (combine (seq 0 (length ring)) ring))
    (seq 0 (length neckPoints)).

(** [generateNeckGeometry(skeleton, options)] *)
Definition generateNeckGeometry (bones : list SkelBone) (options : PartOptions)
    : Result BufferGeometry :=
  let sides := orNat (optSides options) 8 in
  let yOffset := orR (optYOffset options) 0 in
  let neckChain := ["spine_mid"; "spine_neck"] in
  let m := boneIndexMap bones in
  rbind (rmapM (getPos bones) neckChain) (fun neckPoints =>
  let baseRadius := orR (optBaseRadius options) 0.12 in
  let neckRadius := orR (optNeckRadius options) 0.08 in
  let radii := [baseRadius; neckRadius] in
  let verts := neckVertices neckPoints neckChain radii sides yOffset m in
  let indices := tubeIndices (length neckPoints) sides [] in
  let rimStartIdx := ((length neckPoints - 1) * sides)%nat in
  let rimVerts := rimVertices verts rimStartIdx sides in
  rbind (getPos bones "spine_neck") (fun neckTop =>
  rbind (getPos bones "head") (fun headPos =>
  let apex := V3.lerp neckTop headPos 0.5 in
  let capSegments := 2%nat in
  let verts :=
    verts ++ capRings rimVerts apex 1 capSegments sides zeroV
                      (skinRef m "spine_neck") (skinRef m "head") blendWeights 0 in
  let verts := verts ++ [capApex apex (mkV3 0 0 1) 0 (skinRef m "head")] in
  let apexIdx := (length verts - 1)%nat in
  let base := rimStartIdx in
  let indices := capIndices base capSegments sides apexIdx indices in
  Ok (finishGeometry verts indices)))).

(** *** TorsoGenerator.js *)

(** [generateTorsoGeometry(skeleton, options)], with the constant
    [useShoulderBase = true] of the source.  An empty list of spine bones
    throws at [spineMid.clone()]. *)
Definition generateTorsoGeometry (bones : list SkelBone) (options : PartOptions)
    : Result BufferGeometry :=
  let spineBoneNames := default ["spine_base"; "spine_mid"] (optBones options) in
  let sides := orNat (optSides options) 8 in
  let m := boneIndexMap bones in
  rbind (getPos bones "back_left_pelvis") (fun leftPelvis =>
  rbind (getPos bones "back_right_pelvis") (fun rightPelvis =>
  let rearCenter := V3.lerp leftPelvis rightPelvis 0.5 in
  let rearRadius := V3.distanceTo leftPelvis rightPelvis / 2 in
  rbind (rmapM (getPos bones) spineBoneNames) (fun spinePoints =>
  rbind (getPos bones "front_left_collarbone") (fun leftCollar =>
  rbind (getPos bones "front_right_collarbone") (fun rightCollar =>
  let frontCenter := V3.lerp leftCollar rightCollar 0.5 in
  let frontRadius := V3.distanceTo leftCollar rightCollar / 2 in
  if decide (length spinePoints = 0)%nat then Throw TypeError else
  let lastName := nth (length spineBoneNames - 1) spineBoneNames "" in
  let spineMid := nth (length spinePoints - 1) spinePoints zeroV in
  let shoulderBase := V3.lerp spineMid frontCenter 0.5 in
  let shoulderRadius := (V3.distanceTo spineMid frontCenter / 2 + frontRadius) / 2 in
  let ringCenters := [rearCenter] ++ spinePoints ++ [shoulderBase; frontCenter] in
  let radii :=
    [rearRadius]
    ++ map (fun i : nat => 0.16 - 0.03 * INR i) (seq 0 (length spinePoints))
    ++ [shoulderRadius; frontRadius] in
  let skinRefs := [nth 0 spineBoneNames ""] ++ spineBoneNames ++ [lastName; lastName] in
  let verts :=
    tubeVertices ringCenters radii sides (orR (optYOffset options) 0)
                 (fun i => skinRef m (nth i skinRefs "")) in
  let indices := tubeIndices (length ringCenters) sides [] in
  (* rear cap *)
  let rearRimIdx := 1%nat in
  let rearRimStartIdx := (rearRimIdx * sides)%nat in
  let rearRimVerts := rimVertices verts rearRimStartIdx sides in
  let lastRingCenter := nth rearRimIdx ringCenters zeroV in
  let lastRingRadius := nth rearRimIdx radii 0 in
  rbind (getPos bones "tail_base") (fun tailBase =>
  let rearApex :=
    V3.add lastRingCenter
           (V3.multiplyScalar
              (V3.normalize (V3.sub tailBase lastRingCenter))
              ((lastRingRadius + orR (optRearCapBulge options) 0.035) * 1.15)) in
  let rearCapSegments := 2%nat in
  let rearCap :=
    capRings rearRimVerts rearApex 0 rearCapSegments sides lastRingCenter
             (skinRef m (nth rearRimIdx skinRefs "")) (skinRef m "tail_base") blendWeights 0
    ++ [capApex rearApex (mkV3 0 0 (-1)) 0 (skinRef m "tail_base")] in
  let verts := verts ++ rearCap in
  let rearBaseIdx := (length verts - length rearCap)%nat in
  let indices := capIndices rearBaseIdx rearCapSegments sides (length verts - 1) indices in
  (* front cap *)
  rbind (getPos bones "spine_neck") (fun neckBase =>
  let capSegments := 2%nat in
  let rimStartIdx := ((length ringCenters - 1) * sides)%nat in
  let rimVerts := rimVertices verts rimStartIdx sides in
  let frontCap :=
    capRings rimVerts neckBase 0 capSegments sides frontCenter
             (skinRef m (nth (length skinRefs - 1) skinRefs "")) (skinRef m "spine_neck")
             blendWeights 0
    ++ [capApex neckBase (mkV3 0 0 1) 0 (skinRef m "spine_neck")] in
  let verts := verts ++ frontCap in
  let frontBaseIdx := (length verts - length frontCap)%nat in
  let indices := capIndices frontBaseIdx capSegments sides (length verts - 1) indices in
  Ok (finishGeometry verts indices)))))))).

(** *** HeadGenerator.js *)

(** [skeleton.bones.find(b => b.name === name)] together with
    [skeleton.bones.indexOf] of the bone found: the first bone of that name. *)
Fixpoint findBone (name : string) (bones : list SkelBone) : option (nat * SkelBone) :=
  match bones with
  | [] => None
  | b :: rest =>
      if decide (boneName b = name) then Some (0%nat, b)
      else match findBone name rest with
           | Some (i, b') => Some (S i, b')
           | None => None
           end
  end.

(** The loop [for (i = 0; i < vcount; i++) a[i * 4] = x] over a zeroed
    typed array of [vcount * 4] items, [x] being the item as the array
    stores it. *)
Definition fillFirstSlot {A : Type} (zero x : A) (vcount : nat) : list A :=
  fold_left (fun acc i => <[(i * 4)%nat := x]> acc) (seq 0 vcount)
            (replicate (vcount * 4) zero).

(** [generateHeadGeometry(skeleton, options)].  [solid] is the value of
    [geo] after [new THREE.IcosahedronGeometry(1.0, detail)], [geo.scale],
    [geo.applyQuaternion] and [geo.translate], which three.js computes;
    only its vertex count matters to the skin binding.  [skinIndices] is a
    [Uint16Array]: the assignment [skinIndices[i * 4] = boneIdx] stores
    [toUint16 boneIdx]. *)
Definition generateHeadGeometry (bones : list SkelBone) (solid : BufferGeometry)
    : Result BufferGeometry :=
  match findBone "spine_neck" bones, findBone "head" bones with
  | Some _, Some (boneIdx, _) =>
      let geo := BG.toNonIndexed solid in
      match attributes geo !! "position" with
      | None => Throw TypeError
      | Some position =>
          let vcount := BG.count position in
          let skinIndices := fillFirstSlot 0%nat (toUint16 boneIdx) vcount in
          let skinWeights := fillFirstSlot 0 1 vcount in
          Ok (BG.setAttribute "skinWeight" (mkAttr (Float32Array skinWeights) 4)
                (BG.setAttribute "skinIndex" (mkAttr (Uint16Array skinIndices) 4) geo))
      end
  | _, _ => Throw MissingNeckOrHead
  end.

(** *** ElephantGenerator.js: the variant factor *)

(** [Math.trunc]: rounding toward zero. *)
Definition truncR (r : R) : Z :=
  if Rle_dec 0 r then Int_part r else (- Int_part (- r))%Z.

(** The remainder [x % y] of JavaScript, which has the sign of [x]. *)
Definition jsmod (x y : R) : R := x - y * IZR (truncR (x / y)).

(** [random01 = (s) => Math.abs(Math.sin(s * 43758.5453)) % 1] *)
Definition random01 (s : R) : R := jsmod (Rabs (sin (s * 43758.5453))) 1.

(** [options.variantSeed] when it is a number, else 0.5. *)
Definition variantSeed (seed : option R) : R := default 0.5 seed.

Definition variantFactor (seed : option R) : R := random01 (variantSeed seed).

Definition legScale (seed : option R) : R := 1 + (variantFactor seed - 0.5) * 0.2.
Definition tuskScale (seed : option R) : R := 1 + (variantFactor seed - 0.5) * 0.3.
Definition headScale (seed : option R) : R := 1 + (0.5 - variantFactor seed) * 0.15.

(** ** Runtime: bones, locomotion and behavior *)

(** [Math.atan2(y, x)], with values in [(-PI, PI]]. *)
Definition atan2 (y x : R) : R :=
  if Rlt_dec 0 x then atan (y / x)
  else if Rlt_dec x 0 then (if Rle_dec 0 y then atan (y / x) + PI else atan (y / x) - PI)
  else if Rlt_dec 0 y then PI / 2
  else if Rlt_dec y 0 then - (PI / 2)
  else 0.

(** [THREE.MathUtils.clamp(value, min, max)] is
    [Math.max(min, Math.min(max, value))]. *)
Definition clamp (value lo hi : R) : R := Rmax lo (Rmin hi value).

(** The [elements] of a [THREE.Matrix4]. *)
Definition Matrix4 : Type := list R.

(** A [THREE.Bone]: local position, local Euler rotation and the world
    matrix that [updateMatrixWorld] derives from them. *)
Record Bone : Type := mkBone {
  position : Vector3;
  rotation : Vector3;
  matrixWorld : Matrix4
}.

Inductive LocoState : Type := idle | wander | curious.

Record Spring : Type := mkSpring { angle : R; velocity : R }.

Record Springs : Type := mkSprings { trunk : Spring; ears : Spring; tail : Spring }.

(** The fields of an [ElephantLocomotion]. *)
Record Locomotion : Type := mkLocomotion {
  state : LocoState;
  _stateTimer : R;
  _stateTime : R;
  baseHeight : R;
  walkSpeed : R;
  wanderSpeed : R;
  turnSpeed : R;
  gaitDuration : R;
  gaitPhase : R;
  worldBoundsRadius : R;
  idleTimer : R;
  direction : Vector3;
  tempVec : Vector3;
  _idleTime : R;
  _spring : Springs
}.

(** The locomotion built by [new ElephantLocomotion(elephant)]. *)
Definition newLocomotion : Locomotion :=
  mkLocomotion idle 0 0 0.45 0.5 0.35 0.4 1.1 0 5.0 1.2 (mkV3 0 0 1) (mkV3 0 0 0) 0
               (mkSprings (mkSpring 0 0) (mkSpring 0 0) (mkSpring 0 0)).

(** An [ElephantBehavior] together with the objects it shares with its
    locomotion: the bone dictionary [bones] (whose values are the bones of
    the skeleton, one object per name), the mesh, and the position in the
    stream of [Math.random()] draws.  [skeleton] lists the names of
    [skeleton.bones]; [None] stands for a missing skeleton or mesh. *)
Record World : Type := mkWorld {
  skeleton : option (list string);
  mesh : option Vector3;            (* [mesh.position] *)
  time : R;
  behaviorState : LocoState;        (* [ElephantBehavior.state] *)
  bones : gmap string Bone;
  locomotion : Locomotion;
  randomCursor : nat
}.

Definition setBones (f : gmap string Bone -> gmap string Bone) (w : World) : World :=
  mkWorld (skeleton w) (mesh w) (time w) (behaviorState w) (f (bones w)) (locomotion w)
          (randomCursor w).

Definition setLocomotion (f : Locomotion -> Locomotion) (w : World) : World :=
  mkWorld (skeleton w) (mesh w) (time w) (behaviorState w) (bones w) (f (locomotion w))
          (randomCursor w).

Definition setMesh (f : Vector3 -> Vector3) (w : World) : World :=
  mkWorld (skeleton w) (f <$> mesh w) (time w) (behaviorState w) (bones w) (locomotion w)
          (randomCursor w).

Definition setTime (t : R) (w : World) : World :=
  mkWorld (skeleton w) (mesh w) t (behaviorState w) (bones w) (locomotion w)
          (randomCursor w).

Definition setBehaviorState (s : LocoState) (w : World) : World :=
  mkWorld (skeleton w) (mesh w) (time w) s (bones w) (locomotion w) (randomCursor w).

Definition setRandomCursor (n : nat) (w : World) : World :=
  mkWorld (skeleton w) (mesh w) (time w) (behaviorState w) (bones w) (locomotion w) n.

(** Field updates of the locomotion. *)
Definition withState (s : LocoState) (l : Locomotion) : Locomotion :=
  mkLocomotion s (_stateTimer l) (_stateTime l) (baseHeight l) (walkSpeed l)
    (wanderSpeed l) (turnSpeed l) (gaitDuration l) (gaitPhase l) (worldBoundsRadius l)
    (idleTimer l) (direction l) (tempVec l) (_idleTime l) (_spring l).

Definition withStateTimer (t : R) (l : Locomotion) : Locomotion :=
  mkLocomotion (state l) t (_stateTime l) (baseHeight l) (walkSpeed l)
    (wanderSpeed l) (turnSpeed l) (gaitDuration l) (gaitPhase l) (worldBoundsRadius l)
    (idleTimer l) (direction l) (tempVec l) (_idleTime l) (_spring l).

Definition withStateTime (t : R) (l : Locomotion) : Locomotion :=
  mkLocomotion (state l) (_stateTimer l) t (baseHeight l) (walkSpeed l)
    (wanderSpeed l) (turnSpeed l) (gaitDuration l) (gaitPhase l) (worldBoundsRadius l)
    (idleTimer l) (direction l) (tempVec l) (_idleTime l) (_spring l).

Definition withWalkSpeed (v : R) (l : Locomotion) : Locomotion :=
  mkLocomotion (state l) (_stateTimer l) (_stateTime l) (baseHeight l) v
    (wanderSpeed l) (turnSpeed l) (gaitDuration l) (gaitPhase l) (worldBoundsRadius l)
    (idleTimer l) (direction l) (tempVec l) (_idleTime l) (_spring l).

Definition withGaitPhase (p : R) (l : Locomotion) : Locomotion :=
  mkLocomotion (state l) (_stateTimer l) (_stateTime l) (baseHeight l) (walkSpeed l)
    (wanderSpeed l) (turnSpeed l) (gaitDuration l) p (worldBoundsRadius l)
    (idleTimer l) (direction l) (tempVec l) (_idleTime l) (_spring l).

Definition withDirection (d : Vector3) (l : Locomotion) : Locomotion :=
  mkLocomotion (state l) (_stateTimer l) (_stateTime l) (baseHeight l) (walkSpeed l)
    (wanderSpeed l) (turnSpeed l) (gaitDuration l) (gaitPhase l) (worldBoundsRadius l)
    (idleTimer l) d (tempVec l) (_idleTime l) (_spring l).

Definition withTempVec (v : Vector3) (l : Locomotion) : Locomotion :=
  mkLocomotion (state l) (_stateTimer l) (_stateTime l) (baseHeight l) (walkSpeed l)
    (wanderSpeed l) (turnSpeed l) (gaitDuration l) (gaitPhase l) (worldBoundsRadius l)
    (idleTimer l) (direction l) v (_idleTime l) (_spring l).

Definition withIdleTime (t : R) (l : Locomotion) : Locomotion :=
  mkLocomotion (state l) (_stateTimer l) (_stateTime l) (baseHeight l) (walkSpeed l)
    (wanderSpeed l) (turnSpeed l) (gaitDuration l) (gaitPhase l) (worldBoundsRadius l)
    (idleTimer l) (direction l) (tempVec l) t (_spring l).

Definition withSpring (s : Springs) (l : Locomotion) : Locomotion :=
  mkLocomotion (state l) (_stateTimer l) (_stateTime l) (baseHeight l) (walkSpeed l)
    (wanderSpeed l) (turnSpeed l) (gaitDuration l) (gaitPhase l) (worldBoundsRadius l)
    (idleTimer l) (direction l) (tempVec l) (_idleTime l) s.

(** Assignments to the components of a bone. *)
Definition setPosition (p : Vector3) (b : Bone) : Bone :=
  mkBone p (rotation b) (matrixWorld b).
Definition setRotX (v : R) (b : Bone) : Bone :=
  mkBone (position b) (mkV3 v (vy (rotation b)) (vz (rotation b))) (matrixWorld b).
Definition setRotY (v : R) (b : Bone) : Bone :=
  mkBone (position b) (mkV3 (vx (rotation b)) v (vz (rotation b))) (matrixWorld b).
Definition setRotZ (v : R) (b : Bone) : Bone :=
  mkBone (position b) (mkV3 (vx (rotation b)) (vy (rotation b)) v) (matrixWorld b).
(** [bone.rotation.y += d] and [bone.rotation.z += d] *)
Definition addRotY (d : R) (b : Bone) : Bone := setRotY (vy (rotation b) + d) b.
Definition addRotZ (d : R) (b : Bone) : Bone := setRotZ (vz (rotation b) + d) b.

(** *** Statements

    A statement runs on the world and either returns the new world or
    throws.  A variable holding [bones['name']] is a [BoneRef]: the name of
    the bone when the dictionary has it, [None] for [undefined]. *)

Definition Action : Type := World -> Result World.

Definition BoneRef : Type := option string.

Definition skip : Action := fun w => Ok w.

Definition seqA (a b : Action) : Action := fun w => rbind (a w) b.

Notation "a >> b" := (seqA a b) (at level 90, right associativity).

(** [const x = bones[name]; ...] *)
Definition letBone (name : string) (k : BoneRef -> Action) : Action :=
  fun w => k (match bones w !! name with Some _ => Some name | None => None end) w.

(** A write through a bone variable: [x.rotation.y = v] and the like.  On
    [undefined] it is a [TypeError]. *)
Definition writeBone (x : BoneRef) (f : Bone -> Bone) : Action :=
  fun w =>
    match x with
    | None => Throw TypeError
    | Some name =>
        match bones w !! name with
        | Some b => Ok (setBones (insert name (f b)) w)
        | None => Throw TypeError
        end
    end.

(** [if (x) { ... }] *)
Definition ifBone (x : BoneRef) (a : Action) : Action :=
  match x with
  | Some _ => a
  | None => skip
  end.

(** [x || y] on bone variables. *)
Definition orBone (x y : BoneRef) : BoneRef :=
  match x with
  | Some _ => x
  | None => y
  end.

(** A statement that reads the locomotion fields. *)
Definition withLoco (k : Locomotion -> Action) : Action :=
  fun w => k (locomotion w) w.

(** An assignment to locomotion fields. *)
Definition assign (f : Locomotion -> Locomotion) : Action :=
  fun w => Ok (setLocomotion f w).

(** A statement that reads [this.elephant.mesh]: the position of the mesh,
    or [None] when there is no mesh. *)
Definition withMesh (k : option Vector3 -> Action) : Action :=
  fun w => k (mesh w) w.

(** An update of [mesh.position]. *)
Definition moveMesh (f : Vector3 -> Vector3) : Action :=
  fun w => Ok (setMesh f w).

(** [ElephantBehavior.setState(nextState)], called as
    [this.elephant.setState]. *)
Definition setState (nextState : LocoState) : Action :=
  fun w => Ok (setBehaviorState nextState w).

(** [Math.random()]: the next draw of the stream [rand]. *)
Definition random (rand : nat -> R) (k : R -> Action) : Action :=
  fun w => k (rand (randomCursor w)) (setRandomCursor (S (randomCursor w)) w).

(** ** ElephantLocomotion.js *)

Module ElephantLocomotion.

(** [rotateDirection(angle)] *)
Definition rotateDirection (angle0 : R) : Action :=
  withLoco (fun this =>
    let cos := cos angle0 in
    let sin := sin angle0 in
    let x := vx (direction this) in
    let z := vz (direction this) in
    assign (withDirection
              (V3.normalize (mkV3 (x * cos - z * sin) (vy (direction this))
                                  (x * sin + z * cos))))).

(** [turnToward(targetDir, dt)] *)
Definition turnToward (targetDir : Vector3) (dt : R) : Action :=
  withLoco (fun this =>
    let currentHeading := atan2 (vx (direction this)) (vz (direction this)) in
    let targetHeading := atan2 (vx targetDir) (vz targetDir) in
    let delta := targetHeading - currentHeading in
    let delta := if Rgt_dec delta PI then delta - PI * 2 else delta in
    let delta := if Rlt_dec delta (- PI) then delta + PI * 2 else delta in
    let maxTurn := turnSpeed this * dt in
    let delta := clamp delta (- maxTurn) maxTurn in
    rotateDirection delta).

(** One leg of [applyWalkPose]: [if (upper && lower) { ... }]. *)
Definition legPose (upperName lowerName : string) (swingAmp kneeBend swing : R)
    : Action :=
  letBone upperName (fun upper =>
  letBone lowerName (fun lower =>
    ifBone upper (ifBone lower (
      writeBone upper (setRotX (swingAmp * swing)) >>
      writeBone lower (setRotX (kneeBend * Rmax 0 (- swing))))))).

(** [applyWalkPose(phase, bones)] *)
Definition applyWalkPose (phase : R) : Action :=
  let TWO_PI := PI * 2 in
  let phaseLeft := phase in
  let phaseRight := jsmod (phase + PI) TWO_PI in
  let swingAmpFront := 0.4 in
  let swingAmpBack := 0.5 in
  let kneeBendFront := 0.7 in
  let kneeBendBack := 0.9 in
  let swingLeft := sin phaseLeft in
  let swingRight := sin phaseRight in
  legPose "back_left_upper_leg" "back_left_lower_leg" swingAmpBack kneeBendBack swingLeft >>
  (let swingLeftFront := sin (phaseLeft + 0.3) in
   legPose "front_left_upper_leg" "front_left_lower_leg" swingAmpFront kneeBendFront
           swingLeftFront) >>
  legPose "back_right_upper_leg" "back_right_lower_leg" swingAmpBack kneeBendBack swingRight >>
  (let swingRightFront := sin (phaseRight + 0.3) in
   legPose "front_right_upper_leg" "front_right_lower_leg" swingAmpFront kneeBendFront
           swingRightFront) >>
  letBone "spine_mid" (fun spineMid =>
  letBone "spine_neck" (fun spineNeck =>
  letBone "head" (fun head =>
    let bodyPitch := sin (phase * 1.0) * 0.03 in
    let bodyYaw := sin (phase * 0.5) * 0.02 in
    ifBone spineMid (
      writeBone spineMid (setRotX bodyPitch) >>
      writeBone spineMid (setRotY (bodyYaw * 0.7))) >>
    ifBone spineNeck (
      writeBone spineNeck (setRotX (0.1 + bodyPitch * 0.5)) >>
      writeBone spineNeck (setRotY bodyYaw)) >>
    ifBone head (
      writeBone head (setRotX (-0.2 + bodyPitch * -0.3)) >>
      writeBone head (setRotY (bodyYaw * 1.2)))))).

(** [applyTrunkWalk(bones, t, phase)] *)
Definition applyTrunkWalk (t phase : R) : Action :=
  letBone "trunk_base" (fun trunkBase =>
  letBone "trunk_mid" (fun trunkMid =>
  letBone "trunk_tip" (fun trunkTip =>
    match trunkBase, trunkMid, trunkTip with
    | None, None, None => skip
    | _, _, _ =>
        let gaitSway := sin phase * 0.25 in
        let gaitDip := sin (phase * 2.0) * 0.1 in
        let idleSway := sin (t * 0.6) * 0.08 in
        let idleDip := sin (t * 0.8) * 0.05 in
        let sway := gaitSway + idleSway in
        let dip := gaitDip + idleDip in
        ifBone trunkBase (
          writeBone trunkBase (setRotY (sway * 0.8)) >>
          writeBone trunkBase (setRotX (dip * 0.4))) >>
        ifBone trunkMid (
          writeBone trunkMid (setRotY (sway * 0.6)) >>
          writeBone trunkMid (setRotX (dip * 0.8))) >>
        ifBone trunkTip (
          writeBone trunkTip (setRotY (sway * 0.5)) >>
          writeBone trunkTip (setRotX (dip * 1.0)))
    end))).

(** [applyEarWalk(bones, t, phase)] *)
Definition applyEarWalk (t phase : R) : Action :=
  letBone "ear_left" (fun earLeft =>
  letBone "ear_right" (fun earRight =>
    match earLeft, earRight with
    | None, None => skip
    | _, _ =>
        let gaitFlap := sin (phase * 2.0) * 0.18 in
        let idleFlap := sin (t * 0.9) * 0.08 in
        let totalLeft := gaitFlap + idleFlap in
        let totalRight := gaitFlap + idleFlap * 0.9 in
        ifBone earLeft (writeBone earLeft (setRotZ totalLeft)) >>
        ifBone earRight (writeBone earRight (setRotZ (- totalRight)))
    end)).

(** [updateWalk(dt, root, mesh, bones)]; [update] has checked that the
    mesh exists. *)
Definition updateWalk (rand : nat -> R) (dt : R) (root : BoneRef) : Action :=
  withLoco (fun this => assign (withIdleTime (_idleTime this + dt))) >>
  (let TWO_PI := PI * 2 in
   withLoco (fun this =>
     assign (withGaitPhase
               (jsmod (gaitPhase this + dt / gaitDuration this * TWO_PI) TWO_PI)))) >>
  withMesh (fun mesh =>
  withLoco (fun this =>
    let meshPosition := default zeroV mesh in
    let distFromOrigin := sqrt (vx meshPosition ^ 2 + vz meshPosition ^ 2) in
    if Rgt_dec distFromOrigin (worldBoundsRadius this)
    then
      assign (withTempVec
                (V3.normalize (mkV3 (- vx meshPosition) 0 (- vz meshPosition)))) >>
      withLoco (fun this => turnToward (tempVec this) dt)
    else
      random rand (fun r =>
        if Rlt_dec r (dt * 0.2)
        then random rand (fun r' =>
               withLoco (fun this =>
                 let randomTurn := (r' - 0.5) * turnSpeed this * dt in
                 rotateDirection randomTurn))
        else skip))) >>
  withLoco (fun this =>
    moveMesh (fun p => V3.addScaledVector p (direction this) (walkSpeed this * dt))) >>
  withLoco (fun this =>
    let heading := atan2 (vx (direction this)) (vz (direction this)) in
    writeBone root (setRotY heading) >>
    (let bobMain := sin (gaitPhase this * 2.0) * 0.06 in
     let roll := sin (gaitPhase this * 1.0) * 0.03 in
     writeBone root (setPosition (mkV3 0 (baseHeight this + bobMain) 0)) >>
     writeBone root (setRotZ roll)) >>
    applyWalkPose (gaitPhase this) >>
    applyTrunkWalk (_idleTime this) (gaitPhase this) >>
    applyEarWalk (_idleTime this) (gaitPhase this)).

(** [updateIdle(dt, root, bones)] *)
Definition updateIdle (dt : R) (root : BoneRef) : Action :=
  withLoco (fun this => assign (withIdleTime (_idleTime this + dt))) >>
  withLoco (fun this =>
    let breathe := sin (_idleTime this * 1.0 + 0.3) * 0.025 in
    let sway := sin (_idleTime this * 0.3) * 0.02 in
    writeBone root (setPosition (mkV3 sway (baseHeight this + breathe) 0)) >>
    letBone "head" (fun head =>
    letBone "spine_neck" (fun spineNeck =>
    letBone "spine_mid" (fun spineMid =>
      ifBone spineMid (
        writeBone spineMid (setRotX (0.03 * sin (_idleTime this * 0.7))) >>
        writeBone spineMid (setRotZ (0.02 * sin (_idleTime this * 0.5)))) >>
      ifBone spineNeck (
        writeBone spineNeck (setRotX (0.05 + 0.03 * sin (_idleTime this * 0.8))) >>
        writeBone spineNeck (setRotY (0.05 * sin (_idleTime this * 0.6)))) >>
      ifBone head (
        writeBone head (setRotX (-0.15 + 0.05 * sin (_idleTime this * 0.9))) >>
        writeBone head (setRotY (0.05 * sin (_idleTime this * 0.7)))))))).

(** [updateWander(dt, root, mesh, bones)] *)
Definition updateWander (rand : nat -> R) (dt : R) (root : BoneRef) : Action :=
  withLoco (fun this =>
    let prevSpeed := walkSpeed this in
    assign (withWalkSpeed (wanderSpeed this)) >>
    updateWalk rand dt root >>
    assign (withWalkSpeed prevSpeed)).

(** [updateCurious(dt, root, bones)] *)
Definition updateCurious (dt : R) (root : BoneRef) : Action :=
  withLoco (fun this =>
    writeBone root (setPosition (mkV3 0 (baseHeight this) 0)) >>
    writeBone root (setRotZ (0.02 * sin (_stateTime this * 1.5))) >>
    letBone "spine_neck" (fun spineNeck =>
    letBone "head" (fun head =>
    letBone "trunk_base" (fun trunkBase =>
    letBone "trunk_mid" (fun trunkMid =>
    letBone "trunk_tip" (fun trunkTip =>
      ifBone spineNeck (
        writeBone spineNeck (setRotX (0.1 + 0.05 * sin (_stateTime this * 2.0))) >>
        writeBone spineNeck (setRotY (0.1 * sin (_stateTime this * 1.0)))) >>
      ifBone head (
        writeBone head (setRotX (-0.05 + 0.07 * sin (_stateTime this * 2.5))) >>
        writeBone head (setRotY (0.08 * sin (_stateTime this * 1.7)))) >>
      (let lift := 0.3 + 0.1 * sin (_stateTime this * 2.2) in
       ifBone trunkBase (
         writeBone trunkBase (setRotX (- lift * 0.5)) >>
         writeBone trunkBase (setRotY 0.0)) >>
       ifBone trunkMid (
         writeBone trunkMid (setRotX (- lift * 0.8)) >>
         writeBone trunkMid (setRotY 0.0)) >>
       ifBone trunkTip (
         writeBone trunkTip (setRotX (- lift)) >>
         writeBone trunkTip (setRotY 0.0))) >>
      letBone "ear_left" (fun earLeft =>
      letBone "ear_right" (fun earRight =>
        let flap := 0.15 * sin (_stateTime this * 3.0) in
        ifBone earLeft (writeBone earLeft (setRotZ flap)) >>
        ifBone earRight (writeBone earRight (setRotZ (- flap))))))))))).

(** The semi-implicit Euler step of one spring channel:
    [acc = (target - s.angle) * stiffness - s.velocity * damping;
     s.velocity += acc * dt; s.angle += s.velocity * dt]. *)
Definition springStep (stiffness damping dt target : R) (s : Spring) : Spring :=
  let acc := (target - angle s) * stiffness - velocity s * damping in
  let velocity' := velocity s + acc * dt in
  let angle' := angle s + velocity' * dt in
  mkSpring angle' velocity'.

(** [applySecondaryMotion(dt, bones)] *)
Definition applySecondaryMotion (dt : R) : Action :=
  withLoco (fun this =>
    let speed := match state this with wander => wanderSpeed this | _ => 0 end in
    let trunkTarget := speed * 0.4 in
    let earsTarget := speed * 0.3 in
    let tailTarget := speed * 0.5 in
    let stiffness := 10.0 in
    let damping := 5.0 in
    (let s := springStep stiffness damping dt trunkTarget (trunk (_spring this)) in
     assign (fun this =>
               withSpring (mkSprings s (ears (_spring this)) (tail (_spring this))) this) >>
     letBone "trunk_base" (fun trunkBase =>
     letBone "trunk_mid1" (fun mid1 =>
     letBone "trunk_mid" (fun mid =>
     let trunkMid1 := orBone mid1 mid in
     letBone "trunk_mid2" (fun trunkMid2 =>
     letBone "trunk_tip" (fun trunkTip =>
       ifBone trunkBase (writeBone trunkBase (addRotY (angle s * 0.7))) >>
       ifBone trunkMid1 (writeBone trunkMid1 (addRotY (angle s * 0.5))) >>
       ifBone trunkMid2 (writeBone trunkMid2 (addRotY (angle s * 0.35))) >>
       ifBone trunkTip (writeBone trunkTip (addRotY (angle s * 0.2))))))))) >>
    (let s := springStep stiffness damping dt earsTarget (ears (_spring this)) in
     assign (fun this =>
               withSpring (mkSprings (trunk (_spring this)) s (tail (_spring this))) this) >>
     letBone "ear_left" (fun earLeft =>
     letBone "ear_right" (fun earRight =>
       ifBone earLeft (writeBone earLeft (addRotZ (angle s))) >>
       ifBone earRight (writeBone earRight (addRotZ (- angle s)))))) >>
    (let s := springStep stiffness damping dt tailTarget (tail (_spring this)) in
     assign (fun this =>
               withSpring (mkSprings (trunk (_spring this)) (ears (_spring this)) s) this) >>
     letBone "tail_base" (fun tailBase =>
     letBone "tail_mid" (fun tailMid =>
     letBone "tail_tip" (fun tailTip =>
       ifBone tailBase (writeBone tailBase (addRotY (angle s * 0.6))) >>
       ifBone tailMid (writeBone tailMid (addRotY (angle s * 0.4))) >>
       ifBone tailTip (writeBone tailTip (addRotY (angle s * 0.2)))))))).

(** The block [if (this._stateTimer <= 0) { ... }] of [update]: the state
    machine.  [this.elephant.setState] exists on an [ElephantBehavior]. *)
Definition transition (rand : nat -> R) : Action :=
  withLoco (fun this =>
    if Rle_dec (_stateTimer this) 0
    then
      (match state this with
       | idle =>
           random rand (fun r =>
             if Rlt_dec r 0.65
             then assign (withState idle) >>
                  random rand (fun r' => assign (withStateTimer (4 + r' * 3)))
             else if Rlt_dec r 0.9
             then assign (withState wander) >>
                  random rand (fun r' => assign (withStateTimer (5 + r' * 4)))
             else assign (withState curious) >>
                  random rand (fun r' => assign (withStateTimer (3 + r' * 2))))
       | _ =>
           assign (withState idle) >>
           random rand (fun r' => assign (withStateTimer (4 + r' * 3)))
       end) >>
      assign (withStateTime 0) >>
      withLoco (fun this => setState (state this))
    else skip).

(** [update(dt)]; [bones] is always an object, and the call returns at
    once when the root bone or the mesh is missing. *)
Definition update (rand : nat -> R) (dt : R) : Action :=
  letBone "spine_base" (fun root =>
  withMesh (fun mesh =>
    match root, mesh with
    | Some _, Some _ =>
        withLoco (fun this => assign (withStateTime (_stateTime this + dt))) >>
        withLoco (fun this => assign (withStateTimer (_stateTimer this - dt))) >>
        transition rand >>
        withLoco (fun this =>
          match state this with
          | wander => updateWander rand dt root
          | curious => updateCurious dt root
          | idle => updateIdle dt root
          end) >>
        applySecondaryMotion dt
    | _, _ => skip
    end)).

End ElephantLocomotion.

(** ** ElephantBehavior.js *)

Module ElephantBehavior.

(** [update(dt)].  [!dt] holds for [dt = 0].  [updateMatrixWorld name]
    stands for [bone.updateMatrixWorld(true)] of three.js on the bone of
    that name.  The locomotion of a behavior always exists and has an
    [update] method. *)
Definition update (updateMatrixWorld : string -> gmap string Bone -> gmap string Bone)
    (rand : nat -> R) (dt : R) : Action :=
  fun w =>
    match Req_dec_T dt 0, skeleton w, mesh w with
    | right _, Some skeletonBones, Some _ =>
        ((fun w => Ok (setTime (time w + dt) w)) >>
         ElephantLocomotion.update rand dt >>
         (fun w => Ok (setBones (fun bs =>
                         fold_left (fun acc name => updateMatrixWorld name acc)
                                   skeletonBones bs) w))) w
    | _, _, _ => Ok w
    end.

End ElephantBehavior.

(** * Notions used in the statements *)

(** ** Geometry of a tube *)

(** The two triangles [(a, c, b)] and [(b, c, d)] that [bridgeRings] pushes
    for segment [j]. *)
Definition quadTriangles (ringA ringB sides j : nat) : list (nat * nat * nat) :=
  let k := ((j + 1) mod sides)%nat in
  [ ((ringA + j)%nat, (ringB + j)%nat, (ringA + k)%nat);
    ((ringA + k)%nat, (ringB + j)%nat, (ringB + k)%nat) ].

Definition inTriangle (v : nat) (t : nat * nat * nat) : Prop :=
  v = t.1.1 \/ v = t.1.2 \/ v = t.2.

(** Angle of vertex [i] of a ring. *)
Definition ringAngle (sides i : nat) : R := INR i / INR sides * PI * 2.

(** Two consecutive rings of a tube whose chain runs along the z axis, as
    the ring loop of a generator lays them out: ring A, centred at height
    [za], then ring B at height [zb], both with the axis [(0, 0, 1)]. *)
Definition tubePositions (cx cy za zb rA rB : R) (sides : nat) : list Vector3 :=
  createRing (mkV3 cx cy za) (mkV3 0 0 1) rA sides defaultUp
  ++ createRing (mkV3 cx cy zb) (mkV3 0 0 1) rB sides defaultUp.

Definition tubeVertex (cx cy za zb rA rB : R) (sides i : nat) : Vector3 :=
  nth i (tubePositions cx cy za zb rA rB sides) zeroV.

Definition tubeCenter (cx cy za zb : R) (sides i : nat) : Vector3 :=
  if (i <? sides)%nat then mkV3 cx cy za else mkV3 cx cy zb.

(** The normal a generator stores for vertex [i]:
    [v.clone().sub(center).normalize()]. *)
Definition vertexNormal (cx cy za zb rA rB : R) (sides i : nat) : Vector3 :=
  V3.normalize (V3.sub (tubeVertex cx cy za zb rA rB sides i) (tubeCenter cx cy za zb sides i)).

(** The face vector of a triangle, computed from its winding as
    [computeVertexNormals] does, points against the stored normal of each of
    its three vertices. *)
Definition facesInward (cx cy za zb rA rB : R) (sides : nat) (t : nat * nat * nat) : Prop :=
  let p := tubeVertex cx cy za zb rA rB sides in
  let n := BG.faceVector (p t.1.1) (p t.1.2) (p t.2) in
  V3.dot n (vertexNormal cx cy za zb rA rB sides t.1.1) < 0
  /\ V3.dot n (vertexNormal cx cy za zb rA rB sides t.1.2) < 0
  /\ V3.dot n (vertexNormal cx cy za zb rA rB sides t.2) < 0.

(** The face vector of triangle [k] of a triangle soup. *)
Definition soupFace (pos : TypedArray) (k : nat) : Vector3 :=
  let get v := mkV3 (BG.getItem pos (3 * v)) (BG.getItem pos (3 * v + 1))
                    (BG.getItem pos (3 * v + 2)) in
  BG.faceVector (get (3 * k)%nat) (get (3 * k + 1)%nat) (get (3 * k + 2)%nat).

(** A square of two triangles. *)
Definition quadGeometry : BufferGeometry :=
  mkGeo {[ "position" := mkAttr (Float32Array [0; 0; 0; 1; 0; 0; 1; 1; 0; 0; 1; 0]) 3 ]}
        (Some [0; 1; 2; 0; 2; 3]%nat).

(** ** Skin binding *)

(** Skin weights and skin indices of vertex [i] of a geometry. *)
Definition skinWeightOf (g : BufferGeometry) (i : nat) : option (R * R * R * R) :=
  match attributes g !! "skinWeight" with
  | Some (mkAttr (Float32Array d) _) =>
      Some (nth (4 * i) d 0, nth (4 * i + 1) d 0, nth (4 * i + 2) d 0, nth (4 * i + 3) d 0)
  | _ => None
  end.

Definition skinIndexOf (g : BufferGeometry) (i : nat) : option (nat * nat * nat * nat) :=
  match attributes g !! "skinIndex" with
  | Some (mkAttr (Uint16Array d) _) =>
      Some (nth (4 * i) d 0%nat, nth (4 * i + 1) d 0%nat, nth (4 * i + 2) d 0%nat,
            nth (4 * i + 3) d 0%nat)
  | _ => None
  end.

(** The binding of one vertex uses the first two slots only, and its
    weights sum to 1. *)
Definition bindingOk (idx : nat * nat * nat * nat) (w : R * R * R * R) : Prop :=
  idx.1.2 = 0%nat /\ idx.2 = 0%nat /\ w.1.2 = 0 /\ w.2 = 0
  /\ w.1.1.1 + w.1.1.2 = 1 /\ Rabs (w.1.1.1 + w.1.1.2 - 1) <= 1e-5.

Definition skinBindingOk (g : BufferGeometry) : Prop :=
  forall i : nat, (i < BG.vertexCount g)%nat ->
    exists idx w, skinIndexOf g i = Some idx /\ skinWeightOf g i = Some w /\ bindingOk idx w.

Definition vertexOk (v : Vertex) : Prop := bindingOk (vSkinIndex v) (vSkinWeight v).

Definition weightItems (v : Vertex) : list R :=
  match vSkinWeight v with (a, b, c, d) => [a; b; c; d] end.

Definition indexItems (v : Vertex) : list nat :=
  match vSkinIndex v with (a, b, c, d) => [a; b; c; d] end.

Definition dummyVertex : Vertex :=
  mkVertex zeroV zeroV (0, 0) (0, 0, 0, 0)%nat (0, 0, 0, 0).

(** A skeleton of two bones along the z axis, and options for a tail of
    four sides on it. *)
Definition twoBones : list SkelBone :=
  [mkSkelBone "spine_base" (mkV3 0 0 0); mkSkelBone "tail_base" (mkV3 0 0 1)].

Definition shortTail : PartOptions :=
  mkOptions (Some ["tail_base"]) (Some 4%nat) None None None None None None None None
            None None None None.

(** ** Springs *)

(** A spring channel after [n] frames of 16 ms toward the target 1, from
    rest at 0. *)
Definition springRun (n : nat) : Spring :=
  Nat.iter n (ElephantLocomotion.springStep 10.0 5.0 0.016 1) (mkSpring 0 0).

(** The same run in integers: after [n] steps the error [angle - 1] is
    [e / 3125 ^ n] and the velocity is [v / 3125 ^ n]. *)
Fixpoint springZ (n : nat) : Z * Z :=
  match n with
  | O => (-1, 0)%Z
  | S m => let '(e, v) := springZ m in
           (3117 * e + 46 * v, -500 * e + 2875 * v)%Z
  end.

(** A quadratic energy of the spring around the target. *)
Definition springEnergy (s : Spring) : R :=
  3 * (angle s - 1) ^ 2 + 2 * (angle s - 1) * velocity s + velocity s ^ 2.

(** The target speed of the springs. *)
Definition springSpeed (l : Locomotion) : R :=
  match state l with wander => wanderSpeed l | _ => 0 end.

(** The weights with which a spring angle is laid onto the bones. *)
Fixpoint lookupWeight (table : list (string * R)) (name : string) : R :=
  match table with
  | [] => 0
  | (n, x) :: rest => if decide (name = n) then x else lookupWeight rest name
  end.

(** [trunk_mid] stands in for [trunk_mid1] when the latter is missing. *)
Definition trunkWeights (w : World) : list (string * R) :=
  [("trunk_base", 0.7); ("trunk_mid1", 0.5);
   ("trunk_mid", match bones w !! "trunk_mid1" with Some _ => 0 | None => 0.5 end);
   ("trunk_mid2", 0.35); ("trunk_tip", 0.2)].

Definition tailWeights : list (string * R) :=
  [("tail_base", 0.6); ("tail_mid", 0.4); ("tail_tip", 0.2)].

Definition earWeights : list (string * R) := [("ear_left", 1); ("ear_right", -1)].

(** ** Worlds *)

(** The heading the controller reads off its direction vector. *)
Definition headingOf (l : Locomotion) : R := atan2 (vx (direction l)) (vz (direction l)).

Definition restBone : Bone := mkBone (mkV3 0 0 0) (mkV3 0 0 0) [].

(** A freshly built behavior with no bones and no mesh. *)
Definition restWorld : World := mkWorld None None 0 idle ∅ newLocomotion 0.

(** A freshly built behavior whose skeleton is the root bone alone. *)
Definition rootWorld : World :=
  mkWorld (Some ["spine_base"]) (Some (mkV3 0 0 0)) 0 idle
          {[ "spine_base" := restBone ]} newLocomotion 0.

(** The root bone and a head. *)
Definition rootHeadWorld : World :=
  mkWorld (Some ["spine_base"; "head"]) (Some (mkV3 0 0 0)) 0 idle
          (<["head" := restBone]> {[ "spine_base" := restBone ]}) newLocomotion 0.

(** A wandering elephant with the root and the upper bone of a leg, and
    the same elephant with the lower bone of that leg as well. *)
Definition upperLegWorld : World :=
  mkWorld (Some ["spine_base"; "back_left_upper_leg"]) (Some (mkV3 0 0 0)) 0 wander
          (<["back_left_upper_leg" := restBone]> {[ "spine_base" := restBone ]})
          (withStateTimer 5 (withState wander newLocomotion)) 0.

Definition wholeLegWorld : World :=
  mkWorld (Some ["spine_base"; "back_left_upper_leg"; "back_left_lower_leg"])
          (Some (mkV3 0 0 0)) 0 wander
          (<["back_left_lower_leg" := restBone]>
             (<["back_left_upper_leg" := restBone]> {[ "spine_base" := restBone ]}))
          (withStateTimer 5 (withState wander newLocomotion)) 0.

(** A head and no root. *)
Definition headWorld : World :=
  mkWorld (Some ["head"]) (Some (mkV3 0 0 0)) 0 idle
          {[ "head" := restBone ]} newLocomotion 0.

(** A wandering elephant whose only bone is its right ear. *)
Definition earWorld : World :=
  mkWorld (Some ["ear_right"]) (Some (mkV3 0 0 0)) 0 wander
          {[ "ear_right" := restBone ]} (withState wander newLocomotion) 0.

(** Everything of the world but the bones. *)
Definition Rest : Type := Locomotion * option Vector3 * R * LocoState * nat.

Definition rest (w : World) : Rest :=
  (locomotion w, mesh w, time w, behaviorState w, randomCursor w).

Definition restWithLoco (f : Locomotion -> Locomotion) (r : Rest) : Rest :=
  match r with (l, m, t, b, c) => (f l, m, t, b, c) end.

(** The bone dictionary has the same names as at the start. *)
Definition sameBones (w0 w : World) : Prop := dom (bones w) = dom (bones w0).

(** A bone variable is [undefined] or names a bone of the dictionary. *)
Definition valid (w0 : World) (x : BoneRef) : Prop :=
  match x with
  | Some name => is_Some (bones w0 !! name)
  | None => True
  end.

(** [runs K w0 a]: from every world with the bones of [w0], the statement
    [a] returns without throwing, keeps the names of the bones, and changes
    the rest of the world within [K]. *)
Definition runs (K : Rest -> Rest -> Prop) (w0 : World) (a : Action) : Prop :=
  forall w, sameBones w0 w ->
    exists w', a w = Ok w' /\ sameBones w0 w' /\ K (rest w) (rest w').

(** [coupled w1 w2 a1 a2]: run from two worlds that agree on everything but
    the bones, the statements return worlds that still agree on everything
    but the bones. *)
Definition coupled (w01 w02 : World) (a1 a2 : Action) : Prop :=
  forall w1 w2, sameBones w01 w1 -> sameBones w02 w2 -> rest w1 = rest w2 ->
    exists w1' w2', a1 w1 = Ok w1' /\ a2 w2 = Ok w2'
      /\ sameBones w01 w1' /\ sameBones w02 w2' /\ rest w1' = rest w2'.

(** *** Two skeletons side by side

    The same frame run on a skeleton and on a skeleton that has more
    bones. *)

(** The other bone of a leg in [applyWalkPose], which poses the upper and
    the lower bone of a leg inside one test [if (upper && lower)]. *)
Definition legPartner (name : string) : option string :=
  if decide (name = "back_left_upper_leg") then Some "back_left_lower_leg"
  else if decide (name = "back_left_lower_leg") then Some "back_left_upper_leg"
  else if decide (name = "front_left_upper_leg") then Some "front_left_lower_leg"
  else if decide (name = "front_left_lower_leg") then Some "front_left_upper_leg"
  else if decide (name = "back_right_upper_leg") then Some "back_right_lower_leg"
  else if decide (name = "back_right_lower_leg") then Some "back_right_upper_leg"
  else if decide (name = "front_right_upper_leg") then Some "front_right_lower_leg"
  else if decide (name = "front_right_lower_leg") then Some "front_right_upper_leg"
  else None.

(** A leg bone whose partner is among the bones [D2] and not among the
    bones [D1]. *)
Definition cancelledIn (D1 D2 : gset string) (name : string) : Prop :=
  exists p, legPartner name = Some p /\ (p ∉ D1) /\ (p ∈ D2).

(** [trunk_mid] when [trunk_mid1] is among the bones [D2] and not among the
    bones [D1]: in [applySecondaryMotion] it stands in for [trunk_mid1],
    [bones['trunk_mid1'] || bones['trunk_mid']]. *)
Definition redirectedIn (D1 D2 : gset string) (name : string) : Prop :=
  name = "trunk_mid" /\ ("trunk_mid1" ∉ D1) /\ ("trunk_mid1" ∈ D2).

(** The same for the bones of two worlds. *)
Definition poseCancelled (w1 w2 : World) (name : string) : Prop :=
  cancelledIn (dom (bones w1)) (dom (bones w2)) name.

Definition springRedirected (w1 w2 : World) (name : string) : Prop :=
  redirectedIn (dom (bones w1)) (dom (bones w2)) name.

(** How far the frame has come with the trunk spring. *)
Inductive Mode : Type :=
| Before            (* the trunk spring has not been stepped *)
| Armed (d : R)     (* it has been stepped to the angle [d] *)
| After.            (* and its angle has been laid on the middle of the trunk *)

Definition modeAngle (m : Mode) (l : Locomotion) : Prop :=
  match m with
  | Armed d => angle (trunk (_spring l)) = d
  | Before | After => True
  end.

(** The bone [b1] of the smaller skeleton against the bone of that name
    in the larger one: a leg bone whose partner is missing is as it was at
    the start ([orig]); [trunk_mid] standing in for [trunk_mid1] has the
    share of [trunk_mid1] in the trunk spring on top; any other bone is the
    same on both sides. *)
Definition boneRel (D1 D2 : gset string) (orig : gmap string Bone) (m : Mode)
    (l : Locomotion) (name : string) (b1 : Bone) (ob2 : option Bone) : Prop :=
  (cancelledIn D1 D2 name -> orig !! name = Some b1)
  /\ (~ cancelledIn D1 D2 name ->
      match m with
      | After =>
          (redirectedIn D1 D2 name ->
           exists b2, ob2 = Some b2
             /\ b1 = addRotY (angle (trunk (_spring l)) * 0.5) b2)
          /\ (~ redirectedIn D1 D2 name -> ob2 = Some b1)
      | Before | Armed _ => ob2 = Some b1
      end).

(** Two worlds in the course of the same frame, the first with the bones
    [D1] and the second with the bones [D2]: they agree on everything but
    the bones, and the bones of the first are related to those of the
    second by [boneRel]. *)
Definition sideBySide (D1 D2 : gset string) (orig : gmap string Bone) (m : Mode)
    (u1 u2 : World) : Prop :=
  rest u1 = rest u2
  /\ dom (bones u1) = D1 /\ dom (bones u2) = D2
  /\ modeAngle m (locomotion u1)
  /\ forall name b1, bones u1 !! name = Some b1 ->
       boneRel D1 D2 orig m (locomotion u1) name b1 (bones u2 !! name).

(** [paired D1 D2 orig m m' a1 a2]: run side by side, the statements [a1]
    and [a2] return without throwing and take worlds related in mode [m] to
    worlds related in mode [m']. *)
Definition paired (D1 D2 : gset string) (orig : gmap string Bone) (m m' : Mode)
    (a1 a2 : Action) : Prop :=
  forall u1 u2, sideBySide D1 D2 orig m u1 u2 ->
    exists v1 v2, a1 u1 = Ok v1 /\ a2 u2 = Ok v2 /\ sideBySide D1 D2 orig m' v1 v2.

(** The value of [bones[name]] when the dictionary has the names [D]. *)
Definition refD (D : gset string) (name : string) : BoneRef :=
  if decide (name ∈ D) then Some name else None.

(** The value of [bones[name]] in a world. *)
Definition boneRef (w : World) (name : string) : BoneRef :=
  match bones w !! name with Some _ => Some name | None => None end.

(** The effect of a guarded write [if (x) x.field = ...]. *)
Definition touch (x : BoneRef) (f : Bone -> Bone) (w : World) : World :=
  match x with
  | Some name => setBones (alter f name) w
  | None => w
  end.

Definition andThen (G1 G2 : World -> World) (w : World) : World := G2 (G1 w).

(** [acts w0 G a]: from every world with the bones of [w0], the statement
    [a] returns the world [G w]. *)
Definition acts (w0 : World) (G : World -> World) (a : Action) : Prop :=
  forall w, sameBones w0 w -> a w = Ok (G w) /\ sameBones w0 (G w).

(** The state machine fields are left alone. *)
Definition keepsStateMachine (r r' : Rest) : Prop :=
  match r, r' with
  | (l, _, _, b, _), (l', _, _, b', _) =>
      state l' = state l /\ _stateTimer l' = _stateTimer l
      /\ _stateTime l' = _stateTime l /\ b' = b
  end.

Definition anyChange (r r' : Rest) : Prop := True.

(** What the state machine promises about the world after a transition
    out of the state [s] when the first draw is [r]. *)
Definition transitionOutcome (s : LocoState) (r : R) (w' : World) : Prop :=
  let l' := locomotion w' in
  _stateTime l' = 0
  /\ behaviorState w' = state l'
  /\ match s with
     | idle =>
         (r < 0.65 -> state l' = idle /\ 4 <= _stateTimer l' <= 7)
         /\ (0.65 <= r < 0.9 -> state l' = wander /\ 5 <= _stateTimer l' <= 9)
         /\ (0.9 <= r -> state l' = curious /\ 3 <= _stateTimer l' <= 5)
     | _ => state l' = idle /\ 4 <= _stateTimer l' <= 7
     end.

(** ** Notions used by the further properties *)

(** A triangle with three different corners. *)
Definition properTriangle (t : nat * nat * nat) : Prop :=
  t.1.1 <> t.1.2 /\ t.1.2 <> t.2 /\ t.1.1 <> t.2.

(** The names of the attributes [buildBufferGeometry] can set. *)
Definition attributeNames : list string :=
  ["position"; "normal"; "skinIndex"; "skinWeight"; "uv"].

(** The chain of bones [generateTailGeometry] follows. *)
Definition tailChain (options : PartOptions) : list string :=
  "spine_base" :: default ["tail_base"; "tail_mid"; "tail_tip"] (optBones options).

Definition boneNames (bones : list SkelBone) : list string := map boneName bones.

(** ** Runtime *)

(** [wp a Q w]: run on [w], the statement [a] returns a world in [Q]. *)
Definition wp (a : Action) (Q : World -> Prop) (w : World) : Prop :=
  match a w with
  | Ok w' => Q w'
  | Throw _ => False
  end.

(** A direction of length 1 in the ground plane. *)
Definition unitHorizontal (d : Vector3) : Prop :=
  vy d = 0 /\ vx d * vx d + vz d * vz d = 1.

(** A bone variable that is [undefined] or holds a bone of the dictionary
    whose name is in [N]. *)
Definition refIn (N : list string) (w0 : World) (x : BoneRef) : Prop :=
  match x with
  | Some name => is_Some (bones w0 !! name) /\ name ∈ N
  | None => True
  end.

(** [poses I N w0 a]: from every world with the bones of [w0], the
    statement [a] returns without throwing and keeps the names of the bones;
    every bone changes within [I], and the bones whose name is not in [N]
    do not change at all. *)
Definition poses (I : Bone -> Bone -> Prop) (N : list string) (w0 : World) (a : Action)
    : Prop :=
  forall w, sameBones w0 w ->
    exists w', a w = Ok w' /\ sameBones w0 w'
      /\ forall name b, bones w !! name = Some b ->
           exists b', bones w' !! name = Some b' /\ I b b' /\ (name ∉ N -> b' = b).

(** The bones [ElephantLocomotion] reads from the dictionary. *)
Definition posedBones : list string :=
  ["spine_base"; "spine_mid"; "spine_neck"; "head";
   "trunk_base"; "trunk_mid"; "trunk_mid1"; "trunk_mid2"; "trunk_tip";
   "ear_left"; "ear_right"; "tail_base"; "tail_mid"; "tail_tip";
   "back_left_upper_leg"; "back_left_lower_leg";
   "front_left_upper_leg"; "front_left_lower_leg";
   "back_right_upper_leg"; "back_right_lower_leg";
   "front_right_upper_leg"; "front_right_lower_leg"].

(** A write to the rotation of a bone. *)
Definition rotationOnly (b b' : Bone) : Prop :=
  position b' = position b /\ matrixWorld b' = matrixWorld b.

(** A write to the position or the rotation of a bone. *)
Definition localOnly (b b' : Bone) : Prop := matrixWorld b' = matrixWorld b.

(** [ElephantBehavior.getDebugInfo()]: the fields [state], [time] and
    [locomotionState] of the object it returns; the locomotion of a
    behavior always exists. *)
Definition getDebugInfo (w : World) : LocoState * R * option LocoState :=
  (behaviorState w, time w, Some (state (locomotion w))).

(** The state machine fields and the stream of random numbers are left
    alone. *)
Definition keepsStateAndDraws (r r' : Rest) : Prop :=
  keepsStateMachine r r' /\ r'.2 = r.2.

(** [preserves J a]: whenever the statement [a] returns, the world it
    returns is related by [J] to the world it started from. *)
Definition preserves (J : World -> World -> Prop) (a : Action) : Prop :=
  forall w w', a w = Ok w' -> J w w'.

(** The list of skeleton bones and the clock of the behavior are left
    alone. *)
Definition sameClock (w w' : World) : Prop :=
  skeleton w' = skeleton w /\ time w' = time w.

(** The state of the behavior mirrors the state of its locomotion. *)
Definition inSync (w : World) : Prop := behaviorState w = state (locomotion w).

(** The bones of the legs that [applyWalkPose] looks for. *)
Definition legPoseBones : list string :=
  ["back_left_upper_leg"; "back_left_lower_leg";
   "front_left_upper_leg"; "front_left_lower_leg";
   "back_right_upper_leg"; "back_right_lower_leg";
   "front_right_upper_leg"; "front_right_lower_leg"].

(** [ElephantDefinition.bones]: name, parent and position of every bone. *)
Definition ElephantDefinition : list (string * string * Vector3) :=
  [ ("spine_base", "root", mkV3 0 2.1 0);
    ("spine_mid", "spine_base", mkV3 0 (-0.1) 1.1);
    ("spine_neck", "spine_mid", mkV3 0 0.3 0.9);
    ("head", "spine_neck", mkV3 0 (-0.1) 0.7);
    ("trunk_base", "head", mkV3 0 (-0.3) 0.6);
    ("trunk_mid1", "trunk_base", mkV3 0 (-0.5) 0.1);
    ("trunk_mid2", "trunk_mid1", mkV3 0 (-0.5) 0.0);
    ("trunk_tip", "trunk_mid2", mkV3 0 (-0.4) 0.0);
    ("tusk_left", "head", mkV3 0.3 (-0.3) 0.4);
    ("tusk_left_tip", "tusk_left", mkV3 0.1 0.3 0.5);
    ("tusk_right", "head", mkV3 (-0.3) (-0.3) 0.4);
    ("tusk_right_tip", "tusk_right", mkV3 (-0.1) 0.3 0.5);
    ("ear_left", "head", mkV3 0.4 0.1 (-0.2));
    ("ear_left_tip", "ear_left", mkV3 0.6 (-0.6) (-0.1));
    ("ear_right", "head", mkV3 (-0.4) 0.1 (-0.2));
    ("ear_right_tip", "ear_right", mkV3 (-0.6) (-0.6) (-0.1));
    ("tail_base", "spine_base", mkV3 0 0.3 (-0.3));
    ("tail_mid", "tail_base", mkV3 0 (-0.6) (-0.2));
    ("tail_tip", "tail_mid", mkV3 0 (-0.6) 0.0);
    ("front_left_collarbone", "spine_mid", mkV3 0.4 (-0.3) 0.3);
    ("front_right_collarbone", "spine_mid", mkV3 (-0.4) (-0.3) 0.3);
    ("back_left_pelvis", "spine_base", mkV3 0.45 (-0.2) 0.1);
    ("back_right_pelvis", "spine_base", mkV3 (-0.45) (-0.2) 0.1);
    ("front_left_upper", "front_left_collarbone", mkV3 0 (-0.8) 0);
    ("front_left_lower", "front_left_upper", mkV3 0 (-0.8) 0.05);
    ("front_left_foot", "front_left_lower", mkV3 0 (-0.4) 0.05);
    ("front_right_upper", "front_right_collarbone", mkV3 0 (-0.8) 0);
    ("front_right_lower", "front_right_upper", mkV3 0 (-0.8) 0.05);
    ("front_right_foot", "front_right_lower", mkV3 0 (-0.4) 0.05);
    ("back_left_upper", "back_left_pelvis", mkV3 0 (-0.8) 0.05);
    ("back_left_lower", "back_left_upper", mkV3 0 (-0.8) (-0.1));
    ("back_left_foot", "back_left_lower", mkV3 0 (-0.4) 0.1);
    ("back_right_upper", "back_right_pelvis", mkV3 0 (-0.8) 0.05);
    ("back_right_lower", "back_right_upper", mkV3 0 (-0.8) (-0.1));
    ("back_right_foot", "back_right_lower", mkV3 0 (-0.4) 0.1) ].

(** The names of the bones of [ElephantDefinition]. *)
Definition definitionNames : list string :=
  map (fun d : string * string * Vector3 => d.1.1) ElephantDefinition.

(** The bones of the four legs in [ElephantDefinition]. *)
Definition definitionLegBones : list string :=
  ["front_left_upper"; "front_left_lower"; "front_left_foot";
   "front_right_upper"; "front_right_lower"; "front_right_foot";
   "back_left_upper"; "back_left_lower"; "back_left_foot";
   "back_right_upper"; "back_right_lower"; "back_right_foot"].

(** The root bone sits within 2 cm of the axis and 6 cm of the height [h],
    and no bone has come or gone since [w0]. *)
Definition rootPlaced (h : R) (w0 w' : World) : Prop :=
  dom (bones w') = dom (bones w0)
  /\ exists b', bones w' !! "spine_base" = Some b'
       /\ vz (position b') = 0
       /\ Rabs (vx (position b')) <= 0.02
       /\ Rabs (vy (position b') - h) <= 0.06.

(** A spring channel of [applySecondaryMotion] after [n] frames of length
    [dt] toward a constant target, from rest at 0. *)
Definition springRunAt (dt target : R) (n : nat) : Spring :=
  Nat.iter n (ElephantLocomotion.springStep 10.0 5.0 dt target) (mkSpring 0 0).

(** A spring channel after frames of the lengths [dts], in order, toward a
    constant target, from the spring [s]. *)
Definition springFrames (target : R) (dts : list R) (s : Spring) : Spring :=
  fold_left (fun s dt => ElephantLocomotion.springStep 10.0 5.0 dt target s) dts s.

(** The energy of a spring around its target for stiffness 10 and damping 5. *)
Definition springEnergyAt (target : R) (s : Spring) : R :=
  10 * (angle s - target) ^ 2 + 5 * (angle s - target) * velocity s + velocity s ^ 2.

(** ** FurStrand.js *)

(** The [params] of [FurStrand.update]; an absent property is [None]. *)
Record FurParams : Type := mkFurParams {
  gravity : option Vector3;
  stiffness : option R;
  damping : option R
}.

Module FurStrand.

Record FurStrand : Type := mkFurStrand {
  root : Vector3;
  normal : Vector3;
  length : R;
  tip : Vector3;
  velocity : Vector3
}.

(** [new FurStrand(rootPos, rootNormal, length)] *)
Definition new (rootPos rootNormal : Vector3) (length0 : R) : FurStrand :=
  let root := rootPos in
  let normal := V3.normalize rootNormal in
  let tip := V3.addScaledVector root normal length0 in
  mkFurStrand root normal length0 tip (mkV3 0 0 0).

(** The tip after the spring, damping and gravity have acted for [dt],
    before it is put back at the length of the strand. *)
Definition integrate (newRoot newNormal : Vector3) (dt : R) (params : FurParams)
    (this : FurStrand) : Vector3 * Vector3 :=
  let gravity := default (mkV3 0 (-2.5) 0) (gravity params) in
  let stiffness := default 36 (stiffness params) in
  let damping := default 8 (damping params) in
  let target := V3.addScaledVector newRoot newNormal (length this) in
  let spring := V3.multiplyScalar (V3.sub target (tip this)) stiffness in
  let damp := V3.multiplyScalar (velocity this) (- damping) in
  let force := V3.add (V3.add spring damp) gravity in
  let velocity' := V3.add (velocity this) (V3.multiplyScalar force dt) in
  let tip' := V3.add (tip this) (V3.multiplyScalar velocity' dt) in
  (tip', velocity').

(** [update(newRoot, newNormal, dt, params)]: [params.gravity || ...] takes
    any vector given, [params.stiffness ?? 36] and [params.damping ?? 8] any
    number given, 0 included. *)
Definition update (newRoot newNormal : Vector3) (dt : R) (params : FurParams)
    (this : FurStrand) : FurStrand :=
  let '(tip', velocity') := integrate newRoot newNormal dt params this in
  let curLen := V3.distanceTo tip' newRoot in
  let tip'' :=
    if Rgt_dec curLen 0
    then
      let toTip := V3.normalize (V3.sub tip' newRoot) in
      V3.addScaledVector newRoot toTip (length this)
    else tip' in
  mkFurStrand newRoot newNormal (length this) tip'' velocity'.

End FurStrand.

(** ** FurGenerator.js *)

(** The area of a triangle, as the first loop of [generateFurMesh] pushes
    it to [areas]. *)
Definition triangleArea (a b c : Vector3) : R :=
  let ab := V3.sub b a in
  let ac := V3.sub c a in
  V3.length (V3.crossVectors ab ac) * 0.5.

(** [totalArea] after the loop. *)
Definition totalArea (areas : list R) : R := fold_left Rplus areas 0.

(** The loop of [pickTri] from index [i] with the sum [acc] so far. *)
Fixpoint pickTriFrom (areas : list R) (r acc : R) (i : nat) : option nat :=
  match areas with
  | [] => None
  | a :: rest =>
      if Rle_dec r (acc + a) then Some i else pickTriFrom rest r (acc + a) (S i)
  end.

(** [pickTri()], [u] being its draw of [Math.random()]: the index of the
    first triangle at which the running sum of the areas reaches
    [u * totalArea], and [areas.length - 1] when none does. *)
Definition pickTri (areas : list R) (u : R) : Z :=
  let r := u * totalArea areas in
  match pickTriFrom areas r 0 0 with
  | Some i => Z.of_nat i
  | None => (Z.of_nat (List.length areas) - 1)%Z
  end.

(** The weights of the three corners for the draws [u], [v]. *)
Definition cornerWeights (u v : R) : R * R * R :=
  let '(u, v) := if Rgt_dec (u + v) 1 then (1 - u, 1 - v) else (u, v) in
  let w := 1 - u - v in
  (u, v, w).

(** One turn of the strand loop of [generateFurMesh] once the triangle is
    picked: [pA], [pB], [pC] and [nA], [nB], [nC] are the positions and
    normals of its corners, [u], [v] and [r] the next three draws of
    [Math.random()]. *)
Definition sampleStrand (pA pB pC nA nB nC : Vector3) (strandLength lengthJitter : R)
    (u v r : R) : FurStrand.FurStrand :=
  let '(u, v, w) := cornerWeights u v in
  let root :=
    V3.addScaledVector
      (V3.addScaledVector (V3.addScaledVector (mkV3 0 0 0) pA u) pB v) pC w in
  let normal :=
    V3.normalize
      (V3.addScaledVector
         (V3.addScaledVector (V3.addScaledVector (mkV3 0 0 0) nA u) nB v) nC w) in
  let len := strandLength + (r - 0.5) * lengthJitter in
  FurStrand.new root normal len.

(** The running sum of [pickTri] after the first [k] triangles. *)
Definition areaUpTo (areas : list R) (k : nat) : R := totalArea (firstn k areas).


(** * Properties *)

(** ** Lists and arithmetic *)

Lemma length_flat_map_const {A B : Type} (f : A -> list B) (n : nat) (l : list A) :
  (forall x, length (f x) = n) -> length (flat_map f l) = (n * length l)%nat.
Proof.
  intros Hf. induction l as [|x l IH]; simpl; [lia|].
  rewrite length_app, Hf, IH. lia.
Qed.

Lemma nth_map_seq {A : Type} (f : nat -> A) (n j : nat) (d : A) :
  (j < n)%nat -> nth j (map f (seq 0 n)) d = f j.
Proof.
  intros Hj.
  rewrite (nth_indep _ d (f 0%nat)) by (rewrite length_map, length_seq; lia).
  rewrite (map_nth f), seq_nth by lia. reflexivity.
Qed.

Lemma fold_left_seq_S {A : Type} (f : A -> nat -> A) (n : nat) (a : A) :
  fold_left f (seq 0 (S n)) a = f (fold_left f (seq 0 n) a) n.
Proof. rewrite seq_S, fold_left_app. reflexivity. Qed.

Lemma div3_rem (n r : nat) : (r < 3)%nat -> ((3 * n + r) / 3 = n)%nat.
Proof. intros Hr. symmetry. apply Nat.div_unique with r; lia. Qed.

Lemma div3_exact (n : nat) : (3 * n / 3 = n)%nat.
Proof. rewrite <- (Nat.add_0_r (3 * n)). apply div3_rem. lia. Qed.

(** ** Vectors and rings *)

Lemma normalize_unit (a : Vector3) : V3.lengthSq a = 1 -> V3.normalize a = a.
Proof.
  intros H. unfold V3.normalize, V3.length. rewrite H, sqrt_1.
  destruct (Req_dec_T 1 0) as [E|_]; [lra|].
  destruct a as [x y z]; simpl. f_equal; field.
Qed.

Lemma dot_normalize_neg (n w : Vector3) :
  V3.dot n w < 0 -> V3.dot n (V3.normalize w) < 0.
Proof.
  intros H. unfold V3.normalize.
  set (l := if Req_dec_T (V3.length w) 0 then 1 else V3.length w).
  assert (Hl : 0 < l).
  { subst l. destruct (Req_dec_T (V3.length w) 0) as [E|NE]; [lra|].
    unfold V3.length in *. pose proof (sqrt_pos (V3.lengthSq w)). lra. }
  unfold V3.dot in *. simpl.
  replace (vx n * (vx w / l) + vy n * (vy w / l) + vz n * (vz w / l))
    with ((vx n * vx w + vy n * vy w + vz n * vz w) * / l) by (field; lra).
  assert (0 < / l) by (apply Rinv_0_lt_compat; lra).
  nra.
Qed.

(** The face vector follows the right-hand rule: a triangle wound
    counter-clockwise around the z axis faces up. *)
Lemma faceVector_right_handed :
  BG.faceVector (mkV3 0 0 0) (mkV3 1 0 0) (mkV3 0 1 0) = mkV3 0 0 1.
Proof. unfold BG.faceVector, V3.crossVectors, V3.sub. simpl. f_equal; ring. Qed.

Lemma createRing_length center axis radius sides up :
  length (createRing center axis radius sides up) = sides.
Proof. unfold createRing. by rewrite length_map, length_seq. Qed.

(** A ring around the z axis. *)
Lemma createRing_z (cx cy cz r : R) (sides : nat) :
  createRing (mkV3 cx cy cz) (mkV3 0 0 1) r sides defaultUp
  = map (fun i => mkV3 (cx - r * cos (ringAngle sides i))
                       (cy - r * sin (ringAngle sides i)) cz) (seq 0 sides).
Proof.
  unfold createRing, defaultUp.
  assert (E1 : V3.crossVectors (mkV3 0 0 1) (mkV3 0 1 0) = mkV3 (-1) 0 0).
  { unfold V3.crossVectors; simpl. f_equal; ring. }
  rewrite E1.
  rewrite (normalize_unit (mkV3 (-1) 0 0)) by (unfold V3.lengthSq; simpl; ring).
  destruct (Rlt_dec (V3.lengthSq (mkV3 (-1) 0 0)) 1e-6) as [Hlt|_].
  { unfold V3.lengthSq in Hlt; simpl in Hlt. lra. }
  assert (E2 : V3.crossVectors (mkV3 0 0 1) (mkV3 (-1) 0 0) = mkV3 0 (-1) 0).
  { unfold V3.crossVectors; simpl. f_equal; ring. }
  rewrite E2.
  rewrite (normalize_unit (mkV3 0 (-1) 0)) by (unfold V3.lengthSq; simpl; ring).
  apply map_ext. intros i.
  unfold ringAngle, V3.add, V3.addScaledVector, V3.multiplyScalar; simpl.
  f_equal; ring.
Qed.

Lemma ringAngle_step (sides j : nat) :
  (1 <= sides)%nat -> (j < sides)%nat ->
  sin (ringAngle sides ((j + 1) mod sides)) * cos (ringAngle sides j)
  - cos (ringAngle sides ((j + 1) mod sides)) * sin (ringAngle sides j)
  = sin (2 * PI / INR sides).
Proof.
  intros Hs Hj. rewrite <- sin_minus.
  assert (Hn : INR sides <> 0) by (apply not_0_INR; lia).
  destruct (decide (j + 1 < sides)%nat) as [Hlt|Hge].
  - rewrite Nat.mod_small by lia. f_equal. unfold ringAngle.
    rewrite plus_INR. change (INR 1) with 1. field. exact Hn.
  - assert (E : (j + 1 = sides)%nat) by lia.
    rewrite E, Nat.Div0.mod_same. unfold ringAngle.
    assert (Ej : INR j = INR sides - 1).
    { rewrite <- E, plus_INR. change (INR 1) with 1. ring. }
    rewrite Ej. change (INR 0) with 0.
    replace (0 / INR sides * PI * 2 - (INR sides - 1) / INR sides * PI * 2)
      with (2 * PI / INR sides + - (2 * PI)) by (field; exact Hn).
    rewrite sin_plus, sin_neg, cos_neg, sin_2PI, cos_2PI. ring.
Qed.

Lemma sin_ring_step_pos (sides : nat) : (3 <= sides)%nat -> 0 < sin (2 * PI / INR sides).
Proof.
  intros Hs.
  assert (H3 : 3 <= INR sides).
  { replace 3 with (INR 3) by (simpl; lra). apply le_INR. exact Hs. }
  pose proof PI_RGT_0 as Hpi.
  apply sin_gt_0.
  - apply Rdiv_lt_0_compat; lra.
  - apply (Rmult_lt_reg_r (INR sides)); [lra|].
    unfold Rdiv. rewrite Rmult_assoc, Rinv_l by lra. nra.
Qed.

(** ** bridgeRings *)

Lemma bridgeRings_unfold (ringA ringB sides : nat) (indices : list nat) :
  bridgeRings ringA ringB sides indices
  = indices ++ flat_map (bridgeQuad ringA ringB sides) (seq 0 sides).
Proof.
  unfold bridgeRings.
  generalize (seq 0 sides) as js. intros js. revert indices.
  induction js as [|j js IH]; intros indices; simpl.
  - by rewrite app_nil_r.
  - rewrite IH. by rewrite <- app_assoc.
Qed.

Lemma bridgeRings_length ringA ringB sides indices :
  length (bridgeRings ringA ringB sides indices) = (length indices + 6 * sides)%nat.
Proof.
  rewrite bridgeRings_unfold, length_app.
  rewrite (length_flat_map_const _ 6%nat) by reflexivity.
  rewrite length_seq. lia.
Qed.

Lemma triangles_flat_map_quads ringA ringB sides js :
  triangles (flat_map (bridgeQuad ringA ringB sides) js)
  = flat_map (quadTriangles ringA ringB sides) js.
Proof.
  induction js as [|j js IH]; simpl; [done|]. by rewrite IH.
Qed.

Lemma bridgeRings_triangles ringA ringB sides :
  triangles (bridgeRings ringA ringB sides [])
  = flat_map (quadTriangles ringA ringB sides) (seq 0 sides).
Proof.
  rewrite bridgeRings_unfold. simpl. apply triangles_flat_map_quads.
Qed.

Lemma quadTriangles_lookup ringA ringB sides n s j :
  (j < n)%nat ->
  flat_map (quadTriangles ringA ringB sides) (seq s n) !! (2 * j)%nat
    = Some ((ringA + (s + j))%nat, (ringB + (s + j))%nat,
            (ringA + ((s + j + 1) mod sides))%nat)
  /\ flat_map (quadTriangles ringA ringB sides) (seq s n) !! (2 * j + 1)%nat
    = Some ((ringA + ((s + j + 1) mod sides))%nat, (ringB + (s + j))%nat,
            (ringB + ((s + j + 1) mod sides))%nat).
Proof.
  revert s j. induction n as [|n IH]; intros s j Hj; [lia|].
  destruct j as [|j].
  - simpl. rewrite Nat.add_0_r. done.
  - replace (2 * S j)%nat with (S (S (2 * j))) by lia.
    replace (S (S (2 * j)) + 1)%nat with (S (S (2 * j + 1))) by lia.
    simpl seq. simpl flat_map. simpl lookup.
    destruct (IH (S s) j ltac:(lia)) as [E1 E2].
    replace (S s + j)%nat with (s + S j)%nat in E1, E2 by lia.
    split; [exact E1 | exact E2].
Qed.

(** The part of the bridging that the index arithmetic alone decides: for
    [sides >= 3] there are [2 * sides] triangles, segment [j] gives
    [(A_j, B_j, A_k)] and [(A_k, B_j, B_k)] with [k = (j + 1) mod sides], and
    every vertex of both rings is in a triangle. *)
Lemma bridgeRings_spec (ringA ringB sides : nat) (H : (3 <= sides)%nat) :
  let ts := triangles (bridgeRings ringA ringB sides []) in
  length ts = (2 * sides)%nat
  /\ (forall j, (j < sides)%nat ->
        let k := ((j + 1) mod sides)%nat in
        ts !! (2 * j)%nat = Some ((ringA + j)%nat, (ringB + j)%nat, (ringA + k)%nat)
        /\ ts !! (2 * j + 1)%nat = Some ((ringA + k)%nat, (ringB + j)%nat, (ringB + k)%nat))
  /\ (forall j, (j < sides)%nat ->
        (exists t, t ∈ ts /\ inTriangle (ringA + j)%nat t)
        /\ (exists t, t ∈ ts /\ inTriangle (ringB + j)%nat t)).
Proof.
  intros ts.
  assert (Hts : forall j, (j < sides)%nat ->
        let k := ((j + 1) mod sides)%nat in
        ts !! (2 * j)%nat = Some ((ringA + j)%nat, (ringB + j)%nat, (ringA + k)%nat)
        /\ ts !! (2 * j + 1)%nat = Some ((ringA + k)%nat, (ringB + j)%nat, (ringB + k)%nat)).
  { subst ts. rewrite bridgeRings_triangles. intros j Hj.
    apply (quadTriangles_lookup ringA ringB sides sides 0%nat j Hj). }
  split; [|split].
  - subst ts. rewrite bridgeRings_triangles.
    rewrite (length_flat_map_const _ 2%nat) by reflexivity.
    rewrite length_seq. lia.
  - exact Hts.
  - intros j Hj. destruct (Hts j Hj) as [E1 _].
    split; eexists; (split; [eapply list_elem_of_lookup_2, E1 |]).
    + left. reflexivity.
    + right. left. reflexivity.
Qed.

(** *** The winding of a tube *)

Section TubeWinding.
Variables (cx cy za zb rA rB : R) (sides : nat).
Hypothesis Hsides : (3 <= sides)%nat.
Hypothesis HrA : 0 < rA.
Hypothesis HrB : 0 < rB.
Hypothesis Hz : za < zb.

Lemma tubeVertex_A j : (j < sides)%nat ->
  tubeVertex cx cy za zb rA rB sides j
  = mkV3 (cx - rA * cos (ringAngle sides j)) (cy - rA * sin (ringAngle sides j)) za.
Proof.
  intros Hj. unfold tubeVertex, tubePositions.
  rewrite app_nth1 by (rewrite createRing_length; lia).
  rewrite createRing_z, nth_map_seq by lia. reflexivity.
Qed.

Lemma tubeVertex_B j : (j < sides)%nat ->
  tubeVertex cx cy za zb rA rB sides (sides + j)
  = mkV3 (cx - rB * cos (ringAngle sides j)) (cy - rB * sin (ringAngle sides j)) zb.
Proof.
  intros Hj. unfold tubeVertex, tubePositions.
  rewrite app_nth2; rewrite createRing_length; [|lia].
  replace (sides + j - sides)%nat with j by lia.
  rewrite createRing_z, nth_map_seq by lia. reflexivity.
Qed.

Lemma tubeCenter_A j : (j < sides)%nat -> tubeCenter cx cy za zb sides j = mkV3 cx cy za.
Proof. intros Hj. unfold tubeCenter. by rewrite (proj2 (Nat.ltb_lt j sides)). Qed.

Lemma tubeCenter_B j : tubeCenter cx cy za zb sides (sides + j) = mkV3 cx cy zb.
Proof. unfold tubeCenter. by rewrite (proj2 (Nat.ltb_ge (sides + j) sides)) by lia. Qed.

Lemma tube_quad_inward j : (j < sides)%nat ->
  Forall (facesInward cx cy za zb rA rB sides) (triangles (bridgeQuad 0 sides sides j)).
Proof.
  intros Hj.
  assert (Hk : ((j + 1) mod sides < sides)%nat) by (apply Nat.mod_upper_bound; lia).
  pose proof (ringAngle_step sides j ltac:(lia) Hj) as Hstep.
  pose proof (sin_ring_step_pos sides Hsides) as Hpos.
  set (k := ((j + 1) mod sides)%nat) in *.
  unfold bridgeQuad. fold k. rewrite !Nat.add_0_l. simpl triangles.
  repeat constructor; unfold facesInward, vertexNormal; simpl fst; simpl snd; cbv zeta.
  all: apply dot_normalize_neg.
  all: rewrite ?(tubeCenter_A j Hj), ?(tubeCenter_A k Hk), ?tubeCenter_B.
  all: rewrite ?(tubeVertex_A j Hj), ?(tubeVertex_A k Hk), ?(tubeVertex_B j Hj),
         ?(tubeVertex_B k Hk).
  all: unfold BG.faceVector, V3.dot, V3.crossVectors, V3.sub; simpl.
  all: set (cj := cos (ringAngle sides j)) in *; set (sj := sin (ringAngle sides j)) in *;
       set (ck := cos (ringAngle sides k)) in *; set (sk := sin (ringAngle sides k)) in *;
       set (sg := sin (2 * PI / INR sides)) in *.
  all: assert (HAA : 0 < rA * rA * (zb - za) * (sk * cj - ck * sj))
         by (rewrite Hstep; repeat apply Rmult_lt_0_compat; lra).
  all: assert (HAB : 0 < rA * rB * (zb - za) * (sk * cj - ck * sj))
         by (rewrite Hstep; repeat apply Rmult_lt_0_compat; lra).
  all: assert (HBB : 0 < rB * rB * (zb - za) * (sk * cj - ck * sj))
         by (rewrite Hstep; repeat apply Rmult_lt_0_compat; lra).
  all: lra.
Qed.

(** Every triangle that [bridgeRings] emits between two consecutive rings
    of a tube along the z axis faces the axis of the tube. *)
Lemma tube_winding_inward :
  Forall (facesInward cx cy za zb rA rB sides) (triangles (bridgeRings 0 sides sides [])).
Proof.
  rewrite bridgeRings_unfold. simpl app.
  generalize (fun j (Hj : (j < sides)%nat) => tube_quad_inward j Hj).
  assert (Hseq : forall j, j ∈ seq 0 sides -> (j < sides)%nat).
  { intros j Hin. apply elem_of_seq in Hin. lia. }
  revert Hseq. generalize (seq 0 sides) as js.
  induction js as [|j js IH]; intros Hseq Hq; simpl; [constructor|].
  pose proof (Hq j (Hseq j ltac:(left))) as Hqj.
  unfold bridgeQuad in Hqj. simpl in Hqj.
  inversion Hqj as [|t1 l1 H1 Hq']; subst. inversion Hq' as [|t2 l2 H2 _]; subst.
  constructor; [exact H1|]. constructor; [exact H2|].
  apply IH; [|assumption]. intros j' Hin. apply Hseq. by right.
Qed.
End TubeWinding.

(** C3 (the winding).  [bridgeRings(0, 4, 4, [])] over the rings
    [createRing((0,0,0), (0,0,1), 1, 4)] and [createRing((0,0,1), (0,0,1), 1, 4)]
    emits 8 triangles, and the face vector of every one of them points
    against the outward normals [vertex - center] of its vertices: the
    winding faces the inside of the tube. *)
Theorem bridgeRings_winding_inward :
  length (triangles (bridgeRings 0 4 4 [])) = 8%nat
  /\ Forall (facesInward 0 0 0 1 1 1 4) (triangles (bridgeRings 0 4 4 [])).
Proof.
  split; [reflexivity|].
  apply tube_winding_inward; [lia|lra..].
Qed.

(** ** Flattening *)

Lemma length_setXYZ d i v : length (BG.setXYZ d i v) = length d.
Proof. unfold BG.setXYZ. by rewrite !length_insert. Qed.

Lemma fromBuffer_setXYZ_eq d i v :
  (3 * i + 2 < length d)%nat -> BG.fromBuffer (BG.setXYZ d i v) i = v.
Proof.
  intros Hi. unfold BG.fromBuffer, BG.setXYZ.
  destruct v as [x y z]; simpl vx; simpl vy; simpl vz.
  rewrite !nth_lookup.
  rewrite list_lookup_insert_ne, list_lookup_insert_ne, list_lookup_insert_eq
    by (rewrite ?length_insert; lia).
  rewrite list_lookup_insert_ne, list_lookup_insert_eq by (rewrite ?length_insert; lia).
  rewrite list_lookup_insert_eq by (rewrite ?length_insert; lia).
  reflexivity.
Qed.

Lemma fromBuffer_setXYZ_ne d i j v :
  i <> j -> BG.fromBuffer (BG.setXYZ d i v) j = BG.fromBuffer d j.
Proof.
  intros Hij. unfold BG.fromBuffer, BG.setXYZ.
  rewrite !nth_lookup.
  rewrite !list_lookup_insert_ne by lia. reflexivity.
Qed.

(** After the loop over the first [n] triangles of a soup, the three
    vertices of each of them hold its face vector. *)
Lemma soup_loop pos d n :
  (9 * n <= length d)%nat ->
  let r := fold_left (BG.soupStep pos) (seq 0 n) d in
  length r = length d
  /\ forall v, BG.fromBuffer r v
             = if decide (v < 3 * n)%nat then soupFace pos (v / 3) else BG.fromBuffer d v.
Proof.
  induction n as [|n IH]; intros Hlen r.
  - subst r. simpl. split; [done|]. intros v. destruct (decide (v < 3 * 0)%nat); [lia|done].
  - subst r. rewrite fold_left_seq_S.
    destruct (IH ltac:(lia)) as [Hl Hv].
    set (r := fold_left (BG.soupStep pos) (seq 0 n) d) in *.
    change (BG.soupStep pos r n)
      with (BG.setXYZ (BG.setXYZ (BG.setXYZ r (3 * n) (soupFace pos n))
              (3 * n + 1) (soupFace pos n)) (3 * n + 2) (soupFace pos n)).
    split; [by rewrite !length_setXYZ|].
    intros v.
    destruct (decide (v = 3 * n + 2)%nat) as [->|N2].
    { rewrite fromBuffer_setXYZ_eq by (rewrite !length_setXYZ; lia).
      destruct (decide (3 * n + 2 < 3 * S n)%nat); [|lia].
      by rewrite div3_rem by lia. }
    rewrite fromBuffer_setXYZ_ne by lia.
    destruct (decide (v = 3 * n + 1)%nat) as [->|N1].
    { rewrite fromBuffer_setXYZ_eq by (rewrite !length_setXYZ; lia).
      destruct (decide (3 * n + 1 < 3 * S n)%nat); [|lia].
      by rewrite div3_rem by lia. }
    rewrite fromBuffer_setXYZ_ne by lia.
    destruct (decide (v = 3 * n)%nat) as [->|N0].
    { rewrite fromBuffer_setXYZ_eq by (rewrite ?length_setXYZ; lia).
      destruct (decide (3 * n < 3 * S n)%nat); [|lia].
      by rewrite div3_exact. }
    rewrite fromBuffer_setXYZ_ne by lia.
    rewrite Hv.
    destruct (decide (v < 3 * n)%nat), (decide (v < 3 * S n)%nat); try lia; reflexivity.
Qed.

Lemma normalize_loop d m :
  (3 * m <= length d)%nat ->
  let r := fold_left (fun acc i => BG.setXYZ acc i (V3.normalize (BG.fromBuffer acc i)))
                     (seq 0 m) d in
  length r = length d
  /\ forall v, BG.fromBuffer r v
             = if decide (v < m)%nat then V3.normalize (BG.fromBuffer d v)
               else BG.fromBuffer d v.
Proof.
  induction m as [|m IH]; intros Hlen r.
  - subst r. simpl. split; [done|]. intros v. destruct (decide (v < 0)%nat); [lia|done].
  - subst r. rewrite fold_left_seq_S.
    destruct (IH ltac:(lia)) as [Hl Hv].
    set (r := fold_left _ (seq 0 m) d) in *.
    split; [by rewrite length_setXYZ|].
    intros v. destruct (decide (v = m)) as [->|Nm].
    + rewrite fromBuffer_setXYZ_eq by lia. rewrite Hv.
      destruct (decide (m < m)%nat); [lia|]. destruct (decide (m < S m)%nat); [done|lia].
    + rewrite fromBuffer_setXYZ_ne by lia. rewrite Hv.
      destruct (decide (v < m)%nat), (decide (v < S m)%nat); try lia; reflexivity.
Qed.

Lemma normalizeNormals_spec d v :
  (v < length d / 3)%nat ->
  BG.fromBuffer (BG.normalizeNormals d) v = V3.normalize (BG.fromBuffer d v).
Proof.
  intros Hv. unfold BG.normalizeNormals.
  pose proof (Nat.Div0.mul_div_le (length d) 3) as Hle.
  destruct (normalize_loop d (length d / 3) Hle) as [_ H].
  rewrite H. destruct (decide (v < length d / 3)%nat); [done|lia].
Qed.

Lemma gather_length {A : Type} (x : A) l size indices :
  length (BG.gather x l size indices) = (length indices * size)%nat.
Proof.
  unfold BG.gather. induction indices as [|i rest IH]; simpl; [done|].
  rewrite length_app, length_map, length_seq, IH. lia.
Qed.

Lemma convert_count indices a :
  itemSize a <> 0%nat -> BG.count (BG.convertBufferAttribute indices a) = length indices.
Proof.
  intros Hs. unfold BG.count, BG.convertBufferAttribute.
  destruct (array a); simpl; rewrite gather_length; by apply Nat.div_mul.
Qed.

(** C4.  Flattening an indexed geometry of [T] triangles keeps the [T]
    triangles, yields a geometry without index that has [3 * T] vertices,
    and gives the three vertices of every triangle one and the same normal,
    the normalized face vector of the triangle. *)
Theorem makeFlat_shape (g : BufferGeometry) (indices : list nat) (p : BufferAttribute)
    (T : nat) :
  index g = Some indices ->
  attributes g !! "position" = Some p ->
  itemSize p = 3%nat ->
  length indices = (3 * T)%nat ->
  let flat := makeFlat g in
  BG.triangleCount g = T
  /\ index flat = None
  /\ BG.triangleCount flat = T
  /\ BG.vertexCount flat = (3 * T)%nat
  /\ forall t, (t < T)%nat ->
       let n := V3.normalize (BG.faceVector (BG.positionOf flat (3 * t))
                                            (BG.positionOf flat (3 * t + 1))
                                            (BG.positionOf flat (3 * t + 2))) in
       BG.normalOf flat (3 * t) = Some n
       /\ BG.normalOf flat (3 * t + 1) = Some n
       /\ BG.normalOf flat (3 * t + 2) = Some n.
Proof.
  intros Hidx Hpos Hsize Hlen flat.
  set (p' := BG.convertBufferAttribute indices p).
  assert (Hcount : BG.count p' = (3 * T)%nat).
  { subst p'. rewrite convert_count by lia. exact Hlen. }
  assert (Hflat : flat = BG.setAttribute "normal"
            (mkAttr (Float32Array (BG.normalizeNormals
               (fold_left (BG.soupStep (array p')) (seq 0 T) (replicate (3 * T * 3) 0)))) 3)
            (BG.deleteAttribute "normal" (BG.toNonIndexed g))).
  { assert (H1 : delete "normal" (BG.convertBufferAttribute indices <$> attributes g)
                  !! "position" = Some p').
    { rewrite lookup_delete_ne by done. by rewrite lookup_fmap, Hpos. }
    subst flat. unfold makeFlat, BG.computeVertexNormals.
    unfold BG.toNonIndexed. rewrite Hidx. unfold BG.deleteAttribute.
    cbn [attributes index]. rewrite H1, lookup_delete_eq, Hcount.
    rewrite div3_rem by lia. reflexivity. }
  assert (HposF : attributes flat !! "position" = Some p').
  { rewrite Hflat. unfold BG.setAttribute, BG.deleteAttribute, BG.toNonIndexed.
    rewrite Hidx. simpl. rewrite lookup_insert_ne by done.
    rewrite lookup_delete_ne by done. rewrite lookup_fmap, Hpos. done. }
  assert (HidxF : index flat = None).
  { rewrite Hflat. unfold BG.setAttribute, BG.deleteAttribute, BG.toNonIndexed.
    by rewrite Hidx. }
  split; [|split; [|split; [|split]]].
  - unfold BG.triangleCount. rewrite Hidx, Hlen. apply div3_exact.
  - exact HidxF.
  - unfold BG.triangleCount. rewrite HidxF, HposF, Hcount. apply div3_exact.
  - unfold BG.vertexCount. by rewrite HposF, Hcount.
  - intros t Ht n.
    assert (Hn : forall v, (v < 3 * T)%nat -> BG.normalOf flat v
               = Some (V3.normalize (soupFace (array p') (v / 3)))).
    { intros v Hv. unfold BG.normalOf. rewrite Hflat. unfold BG.setAttribute.
      cbn [attributes]. rewrite lookup_insert_eq. f_equal.
      destruct (soup_loop (array p') (replicate (3 * T * 3) 0) T) as [Hl Hs].
      { rewrite length_replicate. lia. }
      rewrite normalizeNormals_spec.
      - rewrite Hs. destruct (decide (v < 3 * T)%nat); [done|lia].
      - rewrite Hl, length_replicate. rewrite Nat.div_mul by lia. exact Hv. }
    assert (Hface : n = V3.normalize (soupFace (array p') t)).
    { subst n. unfold BG.positionOf. rewrite HposF. reflexivity. }
    rewrite Hface.
    rewrite !Hn by lia.
    rewrite div3_exact, !div3_rem by lia. done.
Qed.

(** The square of two triangles flattens to six vertices. *)
Lemma makeFlat_shape_witness :
  BG.triangleCount quadGeometry = 2%nat
  /\ index (makeFlat quadGeometry) = None
  /\ BG.triangleCount (makeFlat quadGeometry) = 2%nat
  /\ BG.vertexCount (makeFlat quadGeometry) = 6%nat.
Proof.
  destruct (makeFlat_shape quadGeometry [0; 1; 2; 0; 2; 3]%nat
              (mkAttr (Float32Array [0; 0; 0; 1; 0; 0; 1; 1; 0; 0; 1; 0]) 3) 2
              eq_refl eq_refl eq_refl eq_refl) as (H1 & H2 & H3 & H4 & _).
  exact (conj H1 (conj H2 (conj H3 H4))).
Defined.

(** ** Skin binding of the generators *)


Section Lists.
Local Open Scope nat_scope.

Lemma bindingOk_intro (ia ib : nat) (a b : R) :
  (a + b = 1)%R -> bindingOk (ia, ib, 0, 0) (a, b, 0%R, 0%R).
Proof.
  intros H. unfold bindingOk; cbn [fst snd]. repeat split; try reflexivity; try exact H.
  rewrite H. replace (1 - 1)%R with 0%R by ring. rewrite Rabs_R0. lra.
Qed.

Lemma Forall_flat_map {A B : Type} (P : B -> Prop) (f : A -> list B) (l : list A) :
  (forall x, x ∈ l -> Forall P (f x)) -> Forall P (flat_map f l).
Proof.
  induction l as [|x l IH]; intros H; simpl; [constructor|].
  apply Forall_app. split.
  - apply H. left.
  - apply IH. intros y Hy. apply H. by right.
Qed.

Lemma Forall_map_intro {A B : Type} (P : B -> Prop) (f : A -> B) (l : list A) :
  (forall x, P (f x)) -> Forall P (map f l).
Proof. intros H. apply Forall_forall. intros y Hy. apply list_elem_of_In, in_map_iff in Hy.
  destruct Hy as (x & <- & _). apply H. Qed.

Lemma tubeVertices_ok points radii sides yOffset mainBone :
  Forall vertexOk (tubeVertices points radii sides yOffset mainBone).
Proof.
  unfold tubeVertices. apply Forall_flat_map. intros i _.
  apply Forall_map_intro. intros jv. apply bindingOk_intro. lra.
Qed.

Lemma capRings_ok rimVerts apex firstSeg segments sides center skinA skinB f uvBase :
  (forall t, ((f t).1 + (f t).2 = 1)%R) ->
  Forall vertexOk (capRings rimVerts apex firstSeg segments sides center skinA skinB f uvBase).
Proof.
  intros Hf. unfold capRings. apply Forall_flat_map. intros seg _.
  apply Forall_map_intro. intros j. apply bindingOk_intro. apply Hf.
Qed.

Lemma capApex_ok apex normal uvBase skinB : vertexOk (capApex apex normal uvBase skinB).
Proof. apply bindingOk_intro. lra. Qed.

Lemma blendWeights_sum t : ((blendWeights t).1 + (blendWeights t).2 = 1)%R.
Proof. unfold blendWeights; cbn. lra. Qed.

Lemma buildBulgedEndCap_ok rimVerts apex segments sides center skinA skinB f uvBase :
  (forall t, ((f t).1 + (f t).2 = 1)%R) ->
  Forall vertexOk (buildBulgedEndCap rimVerts apex segments sides center skinA skinB f uvBase).
Proof.
  intros Hf. unfold buildBulgedEndCap. apply Forall_app. split.
  - by apply capRings_ok.
  - constructor; [apply capApex_ok | constructor].
Qed.

Lemma neckVertices_ok neckPoints neckChain radii sides yOffset m :
  Forall vertexOk (neckVertices neckPoints neckChain radii sides yOffset m).
Proof.
  unfold neckVertices. apply Forall_flat_map. intros i _.
  apply Forall_map_intro. intros jv.
  destruct (decide (i = 0)); [apply bindingOk_intro; lra|].
  destruct (decide (i = length neckPoints - 1)); apply bindingOk_intro; lra.
Qed.



Lemma tubeVertices_length points radii sides yOffset mainBone :
  length (tubeVertices points radii sides yOffset mainBone) = length points * sides.
Proof.
  unfold tubeVertices. rewrite (length_flat_map_const _ sides).
  - rewrite length_seq. lia.
  - intros i. rewrite length_map, length_combine, length_seq, createRing_length. lia.
Qed.

Lemma neckVertices_length neckPoints neckChain radii sides yOffset m :
  length (neckVertices neckPoints neckChain radii sides yOffset m) = length neckPoints * sides.
Proof.
  unfold neckVertices. rewrite (length_flat_map_const _ sides).
  - rewrite length_seq. lia.
  - intros i. rewrite length_map, length_combine, length_seq, createRing_length. lia.
Qed.

Lemma capRings_length rimVerts apex firstSeg segments sides center skinA skinB f uvBase :
  length (capRings rimVerts apex firstSeg segments sides center skinA skinB f uvBase)
  = (segments + 1 - firstSeg) * sides.
Proof.
  unfold capRings. rewrite (length_flat_map_const _ sides).
  - rewrite length_seq. lia.
  - intros seg. by rewrite length_map, length_seq.
Qed.

Lemma buildBulgedEndCap_length rimVerts apex segments sides center skinA skinB f uvBase :
  length (buildBulgedEndCap rimVerts apex segments sides center skinA skinB f uvBase)
  = (segments + 1) * sides + 1.
Proof.
  unfold buildBulgedEndCap. rewrite length_app, capRings_length. simpl. lia.
Qed.

(** Index ranges *)
Lemma fold_left_app_Forall {A : Type} (P : nat -> Prop) (f : A -> list nat)
    (l : list A) (acc : list nat) :
  Forall P acc -> (forall x, x ∈ l -> Forall P (f x)) ->
  Forall P (fold_left (fun a x => a ++ f x) l acc).
Proof.
  revert acc. induction l as [|x l IH]; intros acc Hacc Hf; simpl; [exact Hacc|].
  apply IH.
  - apply Forall_app. split; [exact Hacc|]. apply Hf. left.
  - intros y Hy. apply Hf. by right.
Qed.

Lemma bridgeRings_range ringA ringB sides indices (n : nat) :
  ringA + sides <= n -> ringB + sides <= n ->
  Forall (fun i => i < n) indices ->
  Forall (fun i => i < n) (bridgeRings ringA ringB sides indices).
Proof.
  intros HA HB Hacc. unfold bridgeRings.
  apply (fold_left_app_Forall (fun i => i < n) (bridgeQuad ringA ringB sides)); [exact Hacc|].
  intros j Hj. apply elem_of_seq in Hj.
  assert (Hm : (j + 1) mod sides < sides) by (apply Nat.mod_upper_bound; lia).
  unfold bridgeQuad. repeat constructor; lia.
Qed.

Lemma tubeIndices_range rings sides indices (n : nat) :
  rings * sides <= n ->
  Forall (fun i => i < n) indices ->
  Forall (fun i => i < n) (tubeIndices rings sides indices).
Proof.
  intros Hn. unfold tubeIndices.
  assert (G : forall segs acc, (forall s, s ∈ segs -> s + 1 < rings) ->
    Forall (fun i => i < n) acc ->
    Forall (fun i => i < n)
      (fold_left (fun acc seg => bridgeRings (seg * sides) ((seg + 1) * sides) sides acc)
                 segs acc)).
  { induction segs as [|s segs IH]; intros acc Hs Hacc; simpl; [exact Hacc|].
    apply IH; [intros s' Hs'; apply Hs; by right|].
    pose proof (Hs s ltac:(left)) as Hlt.
    apply bridgeRings_range; [nia|nia|exact Hacc]. }
  intros Hacc. apply G; [|exact Hacc].
  intros s Hs. apply elem_of_seq in Hs. lia.
Qed.

Lemma capIndices_range baseIdx segments sides apexIdx indices (n : nat) :
  baseIdx + (segments + 1) * sides <= n -> apexIdx < n ->
  Forall (fun i => i < n) indices ->
  Forall (fun i => i < n) (capIndices baseIdx segments sides apexIdx indices).
Proof.
  intros Hn Hapex Hacc. unfold capIndices.
  apply (fold_left_app_Forall (fun i => i < n)
           (fun j => [apexIdx; baseIdx + sides * segments + j;
                      baseIdx + sides * segments + (j + 1) mod sides])).
  - assert (G : forall segs acc, (forall s, s ∈ segs -> s < segments) ->
      Forall (fun i => i < n) acc ->
      Forall (fun i => i < n)
        (fold_left (fun acc seg =>
           fold_left (fun acc' j =>
             acc' ++ [baseIdx + seg * sides + j; baseIdx + (seg + 1) * sides + j;
                      baseIdx + seg * sides + (j + 1) mod sides]
                  ++ [baseIdx + seg * sides + (j + 1) mod sides;
                      baseIdx + (seg + 1) * sides + j;
                      baseIdx + (seg + 1) * sides + (j + 1) mod sides])
             (seq 0 sides) acc) segs acc)).
    { induction segs as [|s segs IH]; intros acc Hs Hacc'; simpl; [exact Hacc'|].
      apply IH; [intros s' Hs'; apply Hs; by right|].
      pose proof (Hs s ltac:(left)) as Hlt.
      apply (fold_left_app_Forall (fun i => i < n)
               (fun j => [baseIdx + s * sides + j; baseIdx + (s + 1) * sides + j;
                      baseIdx + s * sides + (j + 1) mod sides]
                  ++ [baseIdx + s * sides + (j + 1) mod sides;
                      baseIdx + (s + 1) * sides + j;
                      baseIdx + (s + 1) * sides + (j + 1) mod sides])); [exact Hacc'|].
      intros j Hj. apply elem_of_seq in Hj.
      assert (Hm : (j + 1) mod sides < sides) by (apply Nat.mod_upper_bound; lia).
      repeat constructor; nia. }
    apply G; [|exact Hacc]. intros s Hs. apply elem_of_seq in Hs. lia.
  - intros j Hj. apply elem_of_seq in Hj.
    assert (Hm : (j + 1) mod sides < sides) by (apply Nat.mod_upper_bound; lia).
    repeat constructor; nia.
Qed.
End Lists.


Section Finish.
Local Open Scope nat_scope.


Lemma nth_flat_map_fixed {A B : Type} (f : A -> list B) (n : nat) (l : list A)
    (j k : nat) (d : B) (dv : A) :
  (forall x, length (f x) = n) -> j < length l -> k < n ->
  nth (j * n + k) (flat_map f l) d = nth k (f (nth j l dv)) d.
Proof.
  intros Hf. revert j. induction l as [|x l IH]; intros j Hj Hk; simpl in Hj; [lia|].
  simpl flat_map. destruct j as [|j].
  - simpl. rewrite app_nth1 by (rewrite Hf; lia). reflexivity.
  - rewrite app_nth2 by (rewrite Hf; lia). rewrite Hf.
    replace (S j * n + k - n) with (j * n + k) by lia.
    simpl nth. apply IH; lia.
Qed.

Lemma nth_gather {A : Type} (d : A) (l : list A) (size : nat) (indices : list nat)
    (i k : nat) :
  i < length indices -> k < size ->
  nth (i * size + k) (BG.gather d l size indices) d
  = nth (nth i indices 0 * size + k) l d.
Proof.
  intros Hi Hk. unfold BG.gather.
  rewrite (nth_flat_map_fixed _ size _ i k d 0) by
    (try (intros; rewrite length_map, length_seq); done).
  by rewrite nth_map_seq.
Qed.

Lemma weightItems_length v : length (weightItems v) = 4.
Proof. unfold weightItems. by destruct (vSkinWeight v) as [[[? ?] ?] ?]. Qed.
Lemma indexItems_length v : length (indexItems v) = 4.
Proof. unfold indexItems. by destruct (vSkinIndex v) as [[[? ?] ?] ?]. Qed.

(** Reading the four skin slots of vertex [j] from the flat arrays. *)
Lemma flat_binding_ok (verts : list Vertex) (j : nat) :
  Forall vertexOk verts -> j < length verts ->
  bindingOk
    (nth (j * 4 + 0) (flat_map indexItems verts) 0, nth (j * 4 + 1) (flat_map indexItems verts) 0,
     nth (j * 4 + 2) (flat_map indexItems verts) 0, nth (j * 4 + 3) (flat_map indexItems verts) 0)
    (nth (j * 4 + 0) (flat_map weightItems verts) 0%R,
     nth (j * 4 + 1) (flat_map weightItems verts) 0%R,
     nth (j * 4 + 2) (flat_map weightItems verts) 0%R,
     nth (j * 4 + 3) (flat_map weightItems verts) 0%R).
Proof.
  intros Hall Hj.
  rewrite !(nth_flat_map_fixed indexItems 4 verts j _ 0 dummyVertex)
    by (try apply indexItems_length; lia).
  rewrite !(nth_flat_map_fixed weightItems 4 verts j _ 0%R dummyVertex)
    by (try apply weightItems_length; lia).
  assert (Hv : vertexOk (nth j verts dummyVertex)).
  { rewrite Forall_forall in Hall. apply Hall. apply list_elem_of_In, nth_In. exact Hj. }
  unfold vertexOk, indexItems, weightItems in *.
  destruct (vSkinIndex (nth j verts dummyVertex)) as [[[ia ib] ic] id].
  destruct (vSkinWeight (nth j verts dummyVertex)) as [[[a b] c] d].
  exact Hv.
Qed.

Lemma toUint16_0 : toUint16 0 = 0.
Proof. reflexivity. Qed.

Lemma nth_toUint16 (l : list nat) (n : nat) :
  nth n (map toUint16 l) 0 = toUint16 (nth n l 0).
Proof. rewrite <- toUint16_0 at 1. apply map_nth. Qed.

(** The binding survives the conversion of its indices to 16 bits. *)
Lemma bindingOk_stored (a b c d : nat) (w : R * R * R * R) :
  bindingOk (a, b, c, d) w -> bindingOk (toUint16 a, toUint16 b, toUint16 c, toUint16 d) w.
Proof.
  unfold bindingOk. cbn [fst snd]. intros (-> & -> & H). by rewrite toUint16_0.
Qed.

Lemma flatten3_length (l : list Vector3) : length (flatten3 l) = 3 * length l.
Proof. unfold flatten3. apply length_flat_map_const. reflexivity. Qed.

Lemma buildBufferGeometry_attributes (v : Vertex) (vs : list Vertex) (indices : list nat) :
  let verts := v :: vs in
  let g := buildBufferGeometry verts indices in
  attributes g !! "position"
    = Some (mkAttr (Float32Array (flatten3 (map vPosition verts))) 3)
  /\ attributes g !! "skinIndex"
    = Some (mkAttr (uint16Array (flat_map indexItems verts)) 4)
  /\ attributes g !! "skinWeight"
    = Some (mkAttr (Float32Array (flat_map weightItems verts)) 4).
Proof.
  intros verts g. subst g. unfold buildBufferGeometry.
  cbn [attributes].
  repeat match goal with
  | |- context [decide (BG.arrayLength ?a = 0)] =>
      destruct (decide (BG.arrayLength a = 0)) as [E|_];
      [exfalso; subst verts; cbn in E;
       repeat match type of E with
              | context [match ?x with _ => _ end] => destruct x
              end; cbn in E; lia |]
  end.
  repeat split.
Qed.

Lemma finishGeometry_ok (verts : list Vertex) (indices : list nat) :
  Forall vertexOk verts ->
  Forall (fun i => i < length verts) indices ->
  skinBindingOk (finishGeometry verts indices).
Proof.
  intros Hverts Hidx. unfold skinBindingOk. intros i Hi.
  destruct verts as [|v vs].
  { exfalso. revert Hi.
    assert (E : attributes (buildBufferGeometry [] indices) = ∅) by reflexivity.
    unfold finishGeometry, BG.vertexCount, BG.toNonIndexed.
    destruct (index (buildBufferGeometry [] indices)); cbn [attributes];
      rewrite E, ?fmap_empty, lookup_empty; lia. }
  destruct (buildBufferGeometry_attributes v vs indices) as (Hp & Hi' & Hw).
  set (verts := v :: vs) in *.
  unfold finishGeometry, BG.toNonIndexed in *.
  assert (Hindex : index (buildBufferGeometry verts indices)
                   = if decide (length indices = 0) then None else Some indices)
    by reflexivity.
  rewrite Hindex in *.
  destruct (decide (length indices = 0)) as [E0|NE].
  - (* no index *)
    unfold BG.vertexCount in Hi. rewrite Hp in Hi. unfold BG.count in Hi.
    cbn [array itemSize BG.arrayLength] in Hi.
    rewrite flatten3_length, length_map in Hi.
    rewrite Nat.mul_comm, Nat.div_mul in Hi by lia.
    unfold skinIndexOf, skinWeightOf. rewrite Hi', Hw. unfold uint16Array.
    eexists _, _. split; [reflexivity|]. split; [reflexivity|].
    replace (4 * i) with (i * 4 + 0) by lia.
    replace (i * 4 + 0 + 1) with (i * 4 + 1) by lia.
    replace (i * 4 + 0 + 2) with (i * 4 + 2) by lia.
    replace (i * 4 + 0 + 3) with (i * 4 + 3) by lia.
    rewrite !nth_toUint16.
    apply bindingOk_stored, flat_binding_ok; assumption.
  - (* indexed: expanded by toNonIndexed *)
    unfold BG.vertexCount in Hi. cbn [attributes] in Hi.
    rewrite lookup_fmap, Hp in Hi. cbn [fmap option_fmap option_map] in Hi.
    unfold BG.convertBufferAttribute, BG.count in Hi.
    cbn [array itemSize BG.arrayLength] in Hi.
    unfold BG.gather in Hi.
    rewrite (length_flat_map_const _ 3) in Hi
      by (intros; by rewrite length_map, length_seq).
    rewrite Nat.mul_comm, Nat.div_mul in Hi by lia.
    unfold skinIndexOf, skinWeightOf. cbn [attributes].
    rewrite !lookup_fmap, Hi', Hw. cbn [fmap option_fmap option_map].
    unfold BG.convertBufferAttribute, uint16Array. cbn [array itemSize].
    eexists _, _. split; [reflexivity|]. split; [reflexivity|].
    replace (4 * i) with (i * 4 + 0) by lia.
    replace (i * 4 + 0 + 1) with (i * 4 + 1) by lia.
    replace (i * 4 + 0 + 2) with (i * 4 + 2) by lia.
    replace (i * 4 + 0 + 3) with (i * 4 + 3) by lia.
    rewrite !nth_gather by lia. rewrite !nth_toUint16.
    apply bindingOk_stored, flat_binding_ok; [assumption|].
    rewrite Forall_forall in Hidx. apply Hidx. apply list_elem_of_In, nth_In. exact Hi.
Qed.
End Finish.


Section Generators.
Local Open Scope nat_scope.

Lemma rbind_Ok {A B : Type} (r : Result A) (k : A -> Result B) (b : B) :
  rbind r k = Ok b -> exists a, r = Ok a /\ k a = Ok b.
Proof. destruct r as [a|e]; simpl; [eauto | discriminate]. Qed.

Lemma Ok_inj {A : Type} (a b : A) : Ok a = Ok b -> a = b.
Proof. intros H. by injection H. Qed.

Lemma rmapM_length {A B : Type} (f : A -> Result B) (l : list A) (l' : list B) :
  rmapM f l = Ok l' -> length l' = length l.
Proof.
  revert l'. induction l as [|x l IH]; intros l' H; simpl in H.
  - by inversion H.
  - apply rbind_Ok in H as (y & _ & H). apply rbind_Ok in H as (ys & Hys & H).
    inversion H; subst. simpl. f_equal. by apply IH.
Qed.

Lemma generateTailGeometry_ok bones options g :
  generateTailGeometry bones options = Ok g -> skinBindingOk g.
Proof.
  unfold generateTailGeometry. intros H.
  apply rbind_Ok in H as (tailPoints & _ & H).
  destruct (decide (length tailPoints < 2)); [discriminate|].
  apply Ok_inj in H. subst g. cbv zeta. apply finishGeometry_ok.
  - apply tubeVertices_ok.
  - rewrite tubeVertices_length. apply tubeIndices_range; [lia|constructor].
Qed.

Lemma generateLimbGeometry_ok bones options g :
  generateLimbGeometry bones options = Ok g -> skinBindingOk g.
Proof.
  unfold generateLimbGeometry. intros H.
  apply rbind_Ok in H as (points & _ & H).
  destruct (decide (length points = 1)); [discriminate|].
  apply rbind_Ok in H as (parentBone & _ & H).
  destruct (decide (length points = 0)); [discriminate|].
  apply Ok_inj in H. subst g. cbv zeta. apply finishGeometry_ok.
  - apply Forall_app; split; [apply Forall_app; split|].
    + apply tubeVertices_ok.
    + apply buildBulgedEndCap_ok, blendWeights_sum.
    + apply buildBulgedEndCap_ok. intros t. cbn [fst snd]. lra.
  - rewrite !length_app, !buildBulgedEndCap_length, tubeVertices_length.
    apply capIndices_range; [lia|lia|].
    apply capIndices_range; [lia|lia|].
    apply tubeIndices_range; [lia|constructor].
Qed.

Lemma generateNeckGeometry_ok bones options g :
  generateNeckGeometry bones options = Ok g -> skinBindingOk g.
Proof.
  unfold generateNeckGeometry. intros H.
  apply rbind_Ok in H as (neckPoints & Hpts & H).
  apply rmapM_length in Hpts. simpl in Hpts.
  apply rbind_Ok in H as (neckTop & _ & H).
  apply rbind_Ok in H as (headPos & _ & H).
  apply Ok_inj in H. subst g. cbv zeta. apply finishGeometry_ok.
  - apply Forall_app; split; [apply Forall_app; split|].
    + apply neckVertices_ok.
    + apply capRings_ok, blendWeights_sum.
    + constructor; [apply capApex_ok | constructor].
  - rewrite !length_app, capRings_length, neckVertices_length, Hpts. cbn [length].
    apply capIndices_range; [lia|lia|].
    apply tubeIndices_range; [lia|constructor].
Qed.

Lemma generateTorsoGeometry_ok bones options g :
  generateTorsoGeometry bones options = Ok g -> skinBindingOk g.
Proof.
  unfold generateTorsoGeometry. intros H.
  apply rbind_Ok in H as (leftPelvis & _ & H).
  apply rbind_Ok in H as (rightPelvis & _ & H).
  apply rbind_Ok in H as (spinePoints & _ & H).
  apply rbind_Ok in H as (leftCollar & _ & H).
  apply rbind_Ok in H as (rightCollar & _ & H).
  destruct (decide (length spinePoints = 0)); [discriminate|].
  apply rbind_Ok in H as (tailBase & _ & H).
  apply rbind_Ok in H as (neckBase & _ & H).
  apply Ok_inj in H. subst g. cbv zeta. apply finishGeometry_ok.
  - apply Forall_app; split; [apply Forall_app; split|apply Forall_app; split];
      [|apply Forall_app; split| |].
    + apply tubeVertices_ok.
    + apply capRings_ok, blendWeights_sum.
    + constructor; [apply capApex_ok | constructor].
    + apply capRings_ok, blendWeights_sum.
    + constructor; [apply capApex_ok | constructor].
  - rewrite !length_app, !capRings_length, tubeVertices_length. cbn [length].
    rewrite !length_app. cbn [length].
    apply capIndices_range; [lia|lia|].
    apply capIndices_range; [lia|lia|].
    apply tubeIndices_range; [lia|constructor].
Qed.

(** The head: every vertex gets [(boneIdx, 0, 0, 0)] and [(1, 0, 0, 0)]. *)
Lemma fillFirstSlot_fold_length {A : Type} (x : A) (l : list nat) (acc : list A) :
  length (fold_left (fun acc i => <[i * 4 := x]> acc) l acc) = length acc.
Proof.
  revert acc. induction l as [|y l IHl]; intros acc; simpl; [done|].
  by rewrite IHl, length_insert.
Qed.

Lemma fillFirstSlot_lookup {A : Type} (zero x : A) (vcount m p : nat) :
  m <= vcount -> p < vcount * 4 ->
  fold_left (fun acc i => <[i * 4 := x]> acc) (seq 0 m) (replicate (vcount * 4) zero) !! p
  = Some (if decide (p mod 4 = 0 /\ p / 4 < m) then x else zero).
Proof.
  induction m as [|m IH]; intros Hm Hp.
  - simpl. rewrite lookup_replicate_2 by lia.
    case_decide as H; [destruct H; lia|done].
  - rewrite seq_S, fold_left_app. cbn [fold_left Nat.add].
    destruct (decide (p = m * 4)) as [->|Hne].
    + rewrite list_lookup_insert_eq
        by (rewrite fillFirstSlot_fold_length, length_replicate; lia).
      rewrite Nat.Div0.mod_mul, Nat.div_mul by lia.
      clear IH. case_decide as H; [done|]. exfalso. apply H. lia.
    + rewrite list_lookup_insert_ne by lia. rewrite IH by lia. clear IH.
      f_equal. pose proof (Nat.div_mod_eq p 4) as Hdm.
      repeat case_decide; try done.
      * exfalso. destruct H as [H1 H2]. apply H0. split; [done|lia].
      * exfalso. destruct H0 as [H1 H2]. apply H. split; [done|].
        destruct (decide (p / 4 = m)); [lia|lia].
Qed.

Lemma fillFirstSlot_nth {A : Type} (zero x : A) (vcount i : nat) :
  i < vcount ->
  nth (4 * i) (fillFirstSlot zero x vcount) zero = x
  /\ nth (4 * i + 1) (fillFirstSlot zero x vcount) zero = zero
  /\ nth (4 * i + 2) (fillFirstSlot zero x vcount) zero = zero
  /\ nth (4 * i + 3) (fillFirstSlot zero x vcount) zero = zero.
Proof.
  intros Hi. unfold fillFirstSlot. rewrite !nth_lookup.
  rewrite !fillFirstSlot_lookup by lia. cbn [default].
  assert (M0 : (4 * i) mod 4 = 0) by (rewrite Nat.mul_comm; apply Nat.Div0.mod_mul).
  assert (D0 : 4 * i / 4 = i) by (rewrite Nat.mul_comm; apply Nat.div_mul; lia).
  assert (M1 : (4 * i + 1) mod 4 = 1).
  { rewrite Nat.add_comm, Nat.mul_comm, Nat.Div0.mod_add. reflexivity. }
  assert (M2 : (4 * i + 2) mod 4 = 2).
  { rewrite Nat.add_comm, Nat.mul_comm, Nat.Div0.mod_add. reflexivity. }
  assert (M3 : (4 * i + 3) mod 4 = 3).
  { rewrite Nat.add_comm, Nat.mul_comm, Nat.Div0.mod_add. reflexivity. }
  rewrite M0, D0, M1, M2, M3.
  repeat split; case_decide as H; try done; try (destruct H; lia);
    exfalso; apply H; lia.
Qed.

Lemma generateHeadGeometry_ok bones solid g :
  generateHeadGeometry bones solid = Ok g -> skinBindingOk g.
Proof.
  unfold generateHeadGeometry. intros H.
  destruct (findBone "spine_neck" bones); [|discriminate].
  destruct (findBone "head" bones) as [[boneIdx headBone]|]; [|discriminate].
  destruct (attributes (BG.toNonIndexed solid) !! "position") as [position|] eqn:Hpos;
    [|discriminate].
  apply Ok_inj in H. subst g.
  intros i Hi. unfold BG.vertexCount, BG.setAttribute in Hi. cbn [attributes] in Hi.
  rewrite !lookup_insert_ne in Hi by done. rewrite Hpos in Hi.
  unfold skinIndexOf, skinWeightOf, BG.setAttribute. cbn [attributes].
  rewrite lookup_insert_ne by done. rewrite !lookup_insert_eq.
  eexists _, _. split; [reflexivity|]. split; [reflexivity|].
  destruct (fillFirstSlot_nth 0 (toUint16 boneIdx) _ i Hi) as (_ & _ & I2 & I3).
  destruct (fillFirstSlot_nth 0%R 1%R _ i Hi) as (W0 & W1 & W2 & W3).
  rewrite I2, I3, W0, W1, W2, W3. apply bindingOk_intro. lra.
Qed.
End Generators.

(** C1.  Every vertex of the geometry a part generator returns (torso,
    limb, tail, neck, head) binds through the first two slots only: index
    and weight slots 2 and 3 are zero and the two weights sum to 1, hence
    to 1 within 1e-5. *)
Theorem skin_binding_invariant (bones : list SkelBone) (options : PartOptions)
    (solid g : BufferGeometry) :
  generateTorsoGeometry bones options = Ok g
  \/ generateLimbGeometry bones options = Ok g
  \/ generateTailGeometry bones options = Ok g
  \/ generateNeckGeometry bones options = Ok g
  \/ generateHeadGeometry bones solid = Ok g ->
  skinBindingOk g.
Proof.
  intros [H|[H|[H|[H|H]]]].
  - by eapply generateTorsoGeometry_ok.
  - by eapply generateLimbGeometry_ok.
  - by eapply generateTailGeometry_ok.
  - by eapply generateNeckGeometry_ok.
  - by eapply generateHeadGeometry_ok.
Qed.

(** The tail of four sides on the skeleton of two bones. *)
Lemma skin_binding_invariant_witness :
  exists g, generateTailGeometry twoBones shortTail = Ok g /\ skinBindingOk g.
Proof.
  eexists. split; [reflexivity|].
  apply (skin_binding_invariant twoBones shortTail (mkGeo ∅ None)).
  right. right. left. reflexivity.
Defined.

(** ** The variant factor *)

Lemma jsmod_one_range (x : R) : 0 <= x -> 0 <= jsmod x 1 < 1.
Proof.
  intros Hx. unfold jsmod, truncR.
  replace (x / 1) with x by field.
  destruct (Rle_dec 0 x) as [_|N]; [|contradiction].
  pose proof (base_fp x) as [H1 H2]. unfold frac_part in *. lra.
Qed.

Lemma random01_range (s : R) : 0 <= random01 s < 1.
Proof. unfold random01. apply jsmod_one_range. apply Rabs_pos. Qed.

(** C7.  The variant factor is a function of the seed alone (the seed, or
    0.5 without one, through [random01]), and for every seed the leg scale
    stays within 10% of 1 and the tusk and head scales within 15% of 1. *)
Theorem variant_scales_bounded (seed : option R) :
  variantFactor seed = random01 (default 0.5 seed)
  /\ Rabs (legScale seed - 1) <= 0.10
  /\ Rabs (tuskScale seed - 1) <= 0.15
  /\ Rabs (headScale seed - 1) <= 0.15.
Proof.
  pose proof (random01_range (variantSeed seed)) as Hr.
  unfold legScale, tuskScale, headScale, variantFactor.
  split; [reflexivity|].
  repeat split; apply Rabs_le; lra.
Qed.

(** ** Headings *)

Lemma PI_gt_3 : 3 < PI.
Proof. pose proof PI2_3_2. lra. Qed.

Lemma atan2_sin_cos (h : R) : - (PI / 2) < h < PI / 2 -> atan2 (sin h) (cos h) = h.
Proof.
  intros Hh. unfold atan2.
  assert (Hc : 0 < cos h) by (apply cos_gt_0; lra).
  destruct (Rlt_dec 0 (cos h)) as [_|N]; [|contradiction].
  change (sin h / cos h) with (tan h). apply atan_tan. exact Hh.
Qed.

Lemma atan2_ahead : atan2 0 1 = 0.
Proof.
  unfold atan2. destruct (Rlt_dec 0 1); [|lra].
  unfold Rdiv. rewrite Rmult_0_l. apply atan_0.
Qed.

Lemma atan2_behind : atan2 0 (-1) = PI.
Proof.
  unfold atan2. destruct (Rlt_dec 0 (-1)); [lra|].
  destruct (Rlt_dec (-1) 0); [|lra]. destruct (Rle_dec 0 0); [|lra].
  unfold Rdiv. rewrite Rmult_0_l, atan_0. lra.
Qed.

Lemma atan2_side : atan2 1 0 = PI / 2.
Proof.
  unfold atan2. destruct (Rlt_dec 0 0); [lra|].
  destruct (Rlt_dec 0 1); [reflexivity|lra].
Qed.

(** [rotateDirection(a)] turns a heading [h] into [h - a]. *)
Lemma rotateDirection_heading (w : World) (h a : R) :
  direction (locomotion w) = mkV3 (sin h) 0 (cos h) ->
  exists w', ElephantLocomotion.rotateDirection a w = Ok w'
    /\ direction (locomotion w') = mkV3 (sin (h - a)) 0 (cos (h - a)).
Proof.
  intros Hd. eexists. split; [reflexivity|].
  cbn. rewrite Hd. cbn.
  rewrite <- sin_minus.
  replace (sin h * sin a + cos h * cos a) with (cos (h - a)) by (rewrite cos_minus; ring).
  apply normalize_unit. unfold V3.lengthSq; cbn.
  pose proof (sin2_cos2 (h - a)) as H. unfold Rsqr in H. lra.
Qed.

(** From the heading 0, with [turnSpeed = 0.4] and [dt = 1], a turn toward
    a target of heading [t] with [0.4 <= t <= PI] ends at the heading
    [-0.4]. *)
Lemma turnToward_from_ahead (target : Vector3) (t : R) :
  atan2 (vx target) (vz target) = t -> 0.4 <= t <= PI ->
  exists w', ElephantLocomotion.turnToward target 1 restWorld = Ok w'
    /\ direction (locomotion w') = mkV3 (- sin 0.4) 0 (cos 0.4)
    /\ headingOf (locomotion w') = -0.4.
Proof.
  intros Ht Hrange. pose proof PI_gt_3 as Hpi.
  unfold ElephantLocomotion.turnToward, withLoco.
  cbn [locomotion restWorld newLocomotion direction turnSpeed vx vz].
  rewrite atan2_ahead, Ht.
  replace (t - 0) with t by ring.
  destruct (Rgt_dec t PI) as [G|_]; [lra|].
  destruct (Rlt_dec t (- PI)) as [G|_]; [lra|].
  assert (Hc : clamp t (- (0.4 * 1)) (0.4 * 1) = 0.4).
  { unfold clamp. rewrite Rmin_left by lra. rewrite Rmax_right by lra. lra. }
  rewrite Hc.
  destruct (rotateDirection_heading restWorld 0 0.4) as (w' & E & Hd).
  { cbn. rewrite sin_0, cos_0. reflexivity. }
  exists w'. split; [exact E|].
  split.
  - rewrite Hd, sin_minus, cos_minus, sin_0, cos_0. f_equal; ring.
  - unfold headingOf. rewrite Hd. cbn [vx vz].
    replace (-0.4) with (0 - 0.4) by lra.
    apply atan2_sin_cos. lra.
Qed.

(** C6.  With [turnSpeed = 0.4], [dt = 1] and the heading 0, a turn toward
    the heading [PI] and a turn toward the heading [PI / 2] both end at the
    heading [-0.4]: the clamped delta [+0.4] is applied with the opposite
    sign. *)
Theorem turnToward_heading_decreases :
  headingOf (locomotion restWorld) = 0
  /\ atan2 (vx (mkV3 0 0 (-1))) (vz (mkV3 0 0 (-1))) = PI
  /\ atan2 (vx (mkV3 1 0 0)) (vz (mkV3 1 0 0)) = PI / 2
  /\ (exists w', ElephantLocomotion.turnToward (mkV3 0 0 (-1)) 1 restWorld = Ok w'
        /\ direction (locomotion w') = mkV3 (- sin 0.4) 0 (cos 0.4)
        /\ headingOf (locomotion w') = -0.4)
  /\ (exists w', ElephantLocomotion.turnToward (mkV3 1 0 0) 1 restWorld = Ok w'
        /\ direction (locomotion w') = mkV3 (- sin 0.4) 0 (cos 0.4)
        /\ headingOf (locomotion w') = -0.4).
Proof.
  pose proof PI_gt_3 as Hpi.
  split; [exact atan2_ahead|]. split; [exact atan2_behind|]. split; [exact atan2_side|].
  split.
  - apply (turnToward_from_ahead _ PI); [exact atan2_behind | lra].
  - apply (turnToward_from_ahead _ (PI / 2)); [exact atan2_side | lra].
Qed.

(** ** ElephantBehavior.update *)

(** C10.  [update(0)] returns the world as it found it: clock, locomotion,
    springs and every bone are untouched. *)
Theorem behavior_update_zero
    (updateMatrixWorld : string -> gmap string Bone -> gmap string Bone)
    (rand : nat -> R) (w : World) :
  ElephantBehavior.update updateMatrixWorld rand 0 w = Ok w.
Proof.
  unfold ElephantBehavior.update. destruct (Req_dec_T 0 0) as [_|N]; [reflexivity|].
  exfalso. apply N. reflexivity.
Qed.

(** ** The spring channels *)

Lemma springRun_S n :
  springRun (S n) = ElephantLocomotion.springStep 10.0 5.0 0.016 1 (springRun n).
Proof. reflexivity. Qed.

Lemma springStep_exact (s : Spring) :
  ElephantLocomotion.springStep 10.0 5.0 0.016 1 s
  = mkSpring (1 + (3117 * (angle s - 1) + 46 * velocity s) / 3125)
             ((-500 * (angle s - 1) + 2875 * velocity s) / 3125).
Proof.
  unfold ElephantLocomotion.springStep. f_equal; lra.
Qed.

Lemma springRun_springZ (n : nat) :
  angle (springRun n) = 1 + IZR (springZ n).1 / 3125 ^ n
  /\ velocity (springRun n) = IZR (springZ n).2 / 3125 ^ n.
Proof.
  induction n as [|n [IHa IHv]].
  - cbn. split; lra.
  - rewrite springRun_S, springStep_exact. cbn [springZ]. destruct (springZ n) as [e v].
    cbn [fst snd angle velocity] in *.
    rewrite IHa, IHv.
    assert (Hp : 3125 ^ n <> 0) by (apply pow_nonzero; lra).
    rewrite !plus_IZR, !mult_IZR. cbn [pow].
    split; field; exact Hp.
Qed.

Lemma springEnergy_decreases (s : Spring) :
  springEnergy (ElephantLocomotion.springStep 10.0 5.0 0.016 1 s) <= springEnergy s.
Proof.
  rewrite springStep_exact. unfold springEnergy. cbn [angle velocity].
  set (e := angle s - 1). set (v := velocity s).
  replace (1 + (3117 * e + 46 * v) / 3125 - 1) with ((3117 * e + 46 * v) / 3125) by field.
  pose proof (pow2_ge_0 (3016808 * e + 1834604 * v)) as H1.
  pose proof (pow2_ge_0 v) as H2.
  nra.
Qed.

Lemma springEnergy_run_le (n m : nat) :
  (n <= m)%nat -> springEnergy (springRun m) <= springEnergy (springRun n).
Proof.
  induction 1 as [|m Hle IH]; [lra|].
  rewrite springRun_S. pose proof (springEnergy_decreases (springRun m)). lra.
Qed.

Lemma springEnergy_bounds (s : Spring) (eps : R) :
  springEnergy s <= eps ->
  2 * (angle s - 1) ^ 2 <= eps /\ 2 / 3 * velocity s ^ 2 <= eps.
Proof.
  unfold springEnergy. intros H.
  pose proof (pow2_ge_0 (angle s - 1 + velocity s)) as H1.
  pose proof (pow2_ge_0 (3 * (angle s - 1) + velocity s)) as H2.
  split; nra.
Qed.

Lemma energy_of_ratio (e v p : R) :
  0 < p ->
  10000 * (3 * e * e + 2 * e * v + v * v) <= p * p ->
  3 * (1 + e / p - 1) ^ 2 + 2 * (1 + e / p - 1) * (v / p) + (v / p) ^ 2 <= 1 / 10000.
Proof.
  intros Hp H.
  replace (3 * (1 + e / p - 1) ^ 2 + 2 * (1 + e / p - 1) * (v / p) + (v / p) ^ 2)
    with ((3 * e * e + 2 * e * v + v * v) / (p * p)) by (field; lra).
  apply (Rmult_le_reg_r (p * p)); [nra|].
  unfold Rdiv at 1. rewrite Rmult_assoc, Rinv_l by nra. lra.
Qed.

Lemma springEnergy_150 : springEnergy (springRun 150) <= 1 / 10000.
Proof.
  unfold springEnergy.
  destruct (springRun_springZ 150) as [Ha Hv]. rewrite Ha, Hv.
  apply energy_of_ratio; [apply pow_lt; lra|].
  rewrite pow_IZR, <- !mult_IZR, <- !plus_IZR, <- !mult_IZR.
  apply IZR_le, Z.leb_le. vm_compute. reflexivity.
Qed.

Lemma springRun_102 : 1.01 < angle (springRun 102).
Proof.
  destruct (springRun_springZ 102) as [Ha _]. rewrite Ha.
  set (e := (springZ 102).1).
  assert (HZ : (3125 ^ Z.of_nat 102 <? 100 * e)%Z = true)
    by (subst e; vm_compute; reflexivity).
  apply Z.ltb_lt, IZR_lt in HZ. rewrite mult_IZR in HZ.
  rewrite <- pow_IZR in HZ.
  set (p := 3125 ^ 102) in *.
  assert (Hp : 0 < p) by (apply pow_lt; lra).
  clearbody p e.
  assert (H : 0.01 < IZR e / p).
  { apply (Rmult_lt_reg_r p); [exact Hp|].
    unfold Rdiv. rewrite Rmult_assoc, Rinv_l by lra. lra. }
  lra.
Qed.

(** C8, as far as it holds.  From step 150 on the angle stays within 1% of
    the target 1 and the velocity within 0.02 of 0. *)
Theorem spring_settles (n : nat) :
  (150 <= n)%nat ->
  Rabs (angle (springRun n) - 1) <= 0.01 /\ Rabs (velocity (springRun n)) <= 0.02.
Proof.
  intros Hn.
  pose proof (springEnergy_run_le 150 n Hn) as H1.
  pose proof springEnergy_150 as H2.
  destruct (springEnergy_bounds (springRun n) (1 / 10000) ltac:(lra)) as [Ha Hv].
  split; apply Rabs_le; split; nra.
Qed.

Lemma springRun_77 : Rabs (angle (springRun 77) - 1) <= 0.01.
Proof.
  destruct (springRun_springZ 77) as [Ha _]. rewrite Ha.
  set (e := (springZ 77).1).
  assert (HZ1 : (- 3125 ^ Z.of_nat 77 <=? 100 * e)%Z = true)
    by (subst e; vm_compute; reflexivity).
  assert (HZ2 : (100 * e <=? 3125 ^ Z.of_nat 77)%Z = true)
    by (subst e; vm_compute; reflexivity).
  apply Z.leb_le, IZR_le in HZ1, HZ2.
  rewrite opp_IZR in HZ1. rewrite mult_IZR in HZ1, HZ2.
  rewrite <- pow_IZR in HZ1, HZ2.
  set (p := 3125 ^ 77) in *.
  assert (Hp : 0 < p) by (apply pow_lt; lra).
  clearbody p e.
  assert (H : - 0.01 <= IZR e / p <= 0.01).
  { split.
    - apply (Rmult_le_reg_r p); [exact Hp|].
      unfold Rdiv. rewrite Rmult_assoc, Rinv_l by lra. lra.
    - apply (Rmult_le_reg_r p); [exact Hp|].
      unfold Rdiv. rewrite Rmult_assoc, Rinv_l by lra. lra. }
  apply Rabs_le. lra.
Qed.

(** The spring is underdamped ([damping ^ 2 < 4 * stiffness]): the angle
    is within 1% of the target at step 77 and then overshoots it, being
    above 1.01 at step 102. *)
Lemma spring_overshoots :
  Rabs (angle (springRun 77) - 1) <= 0.01
  /\ 1.01 < angle (springRun 102)
  /\ 5.0 * 5.0 < 4 * 10.0.
Proof.
  split; [exact springRun_77|]. split; [exact springRun_102|]. lra.
Qed.

Lemma spring_settles_witness :
  Rabs (angle (springRun 150) - 1) <= 0.01 /\ Rabs (velocity (springRun 150)) <= 0.02.
Proof. apply (spring_settles 150). apply le_n. Defined.

(** ** Statements that do not throw *)

Lemma seqA_Ok (a b : Action) (w w1 : World) : a w = Ok w1 -> (a >> b) w = b w1.
Proof. intros E. unfold seqA. by rewrite E. Qed.

Section Runs.
Variable K : Rest -> Rest -> Prop.
Hypothesis K_refl : forall r, K r r.
Hypothesis K_trans : forall a b c, K a b -> K b c -> K a c.
Variable w0 : World.

Lemma runs_skip : runs K w0 skip.
Proof. intros w Hw. exists w. by repeat split. Qed.

Lemma runs_seq (a b : Action) : runs K w0 a -> runs K w0 b -> runs K w0 (a >> b).
Proof.
  intros Ha Hb w Hw. destruct (Ha w Hw) as (w1 & E1 & H1 & K1).
  destruct (Hb w1 H1) as (w2 & E2 & H2 & K2).
  exists w2. unfold seqA. rewrite E1. simpl. eauto.
Qed.

Lemma runs_letBone (name : string) (k : BoneRef -> Action) :
  (forall x, valid w0 x -> runs K w0 (k x)) -> runs K w0 (letBone name k).
Proof.
  intros Hk w Hw. unfold letBone. apply Hk; [|exact Hw].
  destruct (bones w !! name) as [b|] eqn:E; [|exact I].
  unfold valid. apply elem_of_dom. rewrite <- Hw. apply elem_of_dom. by rewrite E.
Qed.

Lemma runs_writeBone (name : string) (f : Bone -> Bone) :
  valid w0 (Some name) -> runs K w0 (writeBone (Some name) f).
Proof.
  intros Hv w Hw. unfold writeBone.
  assert (Hin : is_Some (bones w !! name)).
  { apply elem_of_dom. rewrite Hw. apply elem_of_dom. exact Hv. }
  destruct Hin as [b Hb]. rewrite Hb. eexists. split; [reflexivity|]. split.
  - unfold sameBones in *. cbn. rewrite dom_insert_L, <- Hw.
    assert (Hn : name ∈ dom (bones w)) by (apply elem_of_dom; by rewrite Hb).
    apply subseteq_union_1_L, singleton_subseteq_l, Hn.
  - apply K_refl.
Qed.

Lemma runs_withLoco (k : Locomotion -> Action) :
  (forall l, runs K w0 (k l)) -> runs K w0 (withLoco k).
Proof. intros Hk w Hw. unfold withLoco. by apply Hk. Qed.

Lemma runs_withMesh (k : option Vector3 -> Action) :
  (forall m, runs K w0 (k m)) -> runs K w0 (withMesh k).
Proof. intros Hk w Hw. unfold withMesh. by apply Hk. Qed.

Lemma runs_assign (f : Locomotion -> Locomotion) :
  (forall r, K r (restWithLoco f r)) -> runs K w0 (assign f).
Proof.
  intros Hf w Hw. eexists. split; [reflexivity|]. split; [exact Hw|].
  apply (Hf (rest w)).
Qed.

Lemma runs_random (rand : nat -> R) (k : R -> Action) :
  (forall l m t b c, K (l, m, t, b, c) (l, m, t, b, S c)) ->
  (forall r, runs K w0 (k r)) -> runs K w0 (random rand k).
Proof.
  intros Hc Hk w Hw. unfold random.
  destruct (Hk (rand (randomCursor w)) (setRandomCursor (S (randomCursor w)) w) Hw)
    as (w' & E & H' & K').
  exists w'. split; [exact E|]. split; [exact H'|].
  eapply K_trans; [|exact K']. apply Hc.
Qed.

Lemma runs_moveMesh (f : Vector3 -> Vector3) :
  (forall l m t b c, K (l, m, t, b, c) (l, f <$> m, t, b, c)) -> runs K w0 (moveMesh f).
Proof.
  intros Hm w Hw. eexists. split; [reflexivity|]. split; [exact Hw|]. apply Hm.
Qed.

Lemma runs_setState (s : LocoState) :
  (forall l m t b c, K (l, m, t, b, c) (l, m, t, s, c)) -> runs K w0 (setState s).
Proof. intros Hs w Hw. eexists. split; [reflexivity|]. split; [exact Hw|]. apply Hs. Qed.
End Runs.

Ltac unfold_loco :=
  lazymatch goal with
  | |- context [ElephantLocomotion.rotateDirection] =>
      unfold ElephantLocomotion.rotateDirection
  | |- context [ElephantLocomotion.turnToward] => unfold ElephantLocomotion.turnToward
  | |- context [ElephantLocomotion.legPose] => unfold ElephantLocomotion.legPose
  | |- context [ElephantLocomotion.applyWalkPose] =>
      unfold ElephantLocomotion.applyWalkPose
  | |- context [ElephantLocomotion.applyTrunkWalk] =>
      unfold ElephantLocomotion.applyTrunkWalk
  | |- context [ElephantLocomotion.applyEarWalk] => unfold ElephantLocomotion.applyEarWalk
  | |- context [ElephantLocomotion.updateWalk] => unfold ElephantLocomotion.updateWalk
  | |- context [ElephantLocomotion.updateIdle] => unfold ElephantLocomotion.updateIdle
  | |- context [ElephantLocomotion.updateWander] => unfold ElephantLocomotion.updateWander
  | |- context [ElephantLocomotion.updateCurious] =>
      unfold ElephantLocomotion.updateCurious
  | |- context [ElephantLocomotion.applySecondaryMotion] =>
      unfold ElephantLocomotion.applySecondaryMotion
  | |- context [ElephantLocomotion.transition] => unfold ElephantLocomotion.transition
  end.

(** One step through a statement; [side] proves that the relation on the
    rest of the world admits the step.  The reflexivity and transitivity of
    the relation are taken from the context. *)
Ltac runs_step side :=
  lazymatch goal with
  | |- runs _ _ (_ >> _) => apply runs_seq; [assumption | | ]
  | |- runs _ _ skip => apply runs_skip; assumption
  | |- runs _ _ (letBone _ _) =>
      apply runs_letBone; intros [?|] ?; cbn [ifBone orBone]
  | |- runs _ _ (writeBone (Some _) _) =>
      apply runs_writeBone; [assumption | assumption]
  | |- runs _ _ (withLoco _) => apply runs_withLoco; intros ?
  | |- runs _ _ (withMesh _) => apply runs_withMesh; intros ?
  | |- runs _ _ (assign _) => apply runs_assign; side
  | |- runs _ _ (random _ _) => apply runs_random; [assumption | side | intros ?]
  | |- runs _ _ (moveMesh _) => apply runs_moveMesh; side
  | |- runs _ _ (setState _) => apply runs_setState; side
  | |- runs _ _ (if ?c then _ else _) => destruct c
  | |- runs _ _ (match ?c with _ => _ end) => destruct c
  | |- runs _ _ (let _ := _ in _) => cbv zeta
  | |- runs _ _ _ => unfold_loco
  end.

Ltac runs_all side := repeat (runs_step side).

(** ** The state machine *)

Lemma keepsStateMachine_refl r : keepsStateMachine r r.
Proof. destruct r as [[[[l m] t] b] c]. by repeat split. Qed.

Lemma keepsStateMachine_trans a b c :
  keepsStateMachine a b -> keepsStateMachine b c -> keepsStateMachine a c.
Proof.
  destruct a as [[[[l1 m1] t1] b1] c1], b as [[[[l2 m2] t2] b2] c2],
           c as [[[[l3 m3] t3] b3] c3].
  intros (A1 & A2 & A3 & A4) (B1 & B2 & B3 & B4). repeat split; congruence.
Qed.

Ltac ksm_side :=
  first [ intros [[[[? ?] ?] ?] ?]; cbn; by repeat split
        | intros; cbn; by repeat split ].

(** The pose of a frame and the springs leave the state machine alone. *)
Lemma pose_keeps_state_machine (w0 : World) (rand : nat -> R) (dt : R) :
  valid w0 (Some "spine_base") ->
  runs keepsStateMachine w0
    (withLoco (fun this =>
       match state this with
       | wander => ElephantLocomotion.updateWander rand dt (Some "spine_base")
       | curious => ElephantLocomotion.updateCurious dt (Some "spine_base")
       | idle => ElephantLocomotion.updateIdle dt (Some "spine_base")
       end) >> ElephantLocomotion.applySecondaryMotion dt).
Proof.
  intros Hroot.
  pose proof keepsStateMachine_refl as Kr. pose proof keepsStateMachine_trans as Kt.
  runs_all ksm_side.
Qed.

Section StateMachine.
Variable rand : nat -> R.
Hypothesis rand_unit : forall n, 0 <= rand n < 1.

Lemma transition_expired (w : World) :
  _stateTimer (locomotion w) <= 0 ->
  exists w', ElephantLocomotion.transition rand w = Ok w'
    /\ bones w' = bones w /\ mesh w' = mesh w
    /\ transitionOutcome (state (locomotion w)) (rand (randomCursor w)) w'.
Proof.
  intros Hexp. unfold ElephantLocomotion.transition, withLoco.
  destruct (Rle_dec (_stateTimer (locomotion w)) 0) as [_|N]; [|contradiction].
  pose proof (rand_unit (S (randomCursor w))) as Hr'.
  pose proof (rand_unit (randomCursor w)) as Hr.
  unfold transitionOutcome.
  destruct (state (locomotion w)) eqn:Es.
  - unfold seqA at 1. unfold random at 1.
    destruct (Rlt_dec (rand (randomCursor w)) 0.65) as [H1|H1];
      [|destruct (Rlt_dec (rand (randomCursor w)) 0.9) as [H2|H2]];
      (eexists; split; [reflexivity|]); cbn;
      (split; [reflexivity|]); (split; [reflexivity|]);
      (split; [reflexivity|]); (split; [reflexivity|]);
      repeat split; intros; try lra.
  - eexists; split; [reflexivity|]; cbn. repeat split; lra.
  - eexists; split; [reflexivity|]; cbn. repeat split; lra.
Qed.

(** C2.  With the root bone and the mesh in place, an [update(dt)] that
    finds the dwell timer expired leaves the state machine as the
    specification says: from [idle] the draw [r] picks [idle] (timer in
    [4, 7]), [wander] (timer in [5, 9]) or [curious] (timer in [3, 5]) at
    the thresholds 0.65 and 0.9; from [wander] and [curious] the next state
    is [idle] (timer in [4, 7]); the in-state clock is 0 again. *)
Theorem update_state_machine (w : World) (dt : R) :
  is_Some (bones w !! "spine_base") ->
  is_Some (mesh w) ->
  _stateTimer (locomotion w) - dt <= 0 ->
  exists w', ElephantLocomotion.update rand dt w = Ok w'
    /\ transitionOutcome (state (locomotion w)) (rand (randomCursor w)) w'.
Proof.
  intros [b Hb] [m Hm] Hexp.
  unfold ElephantLocomotion.update, letBone, withMesh. rewrite Hb, Hm.
  set (w1 := setLocomotion (withStateTimer (_stateTimer (locomotion w) - dt))
               (setLocomotion (withStateTime (_stateTime (locomotion w) + dt)) w)).
  destruct (transition_expired w1) as (w2 & E2 & Hb2 & Hm2 & Hout); [exact Hexp|].
  assert (Hroot : valid w2 (Some "spine_base")).
  { unfold valid. rewrite Hb2. cbn. by rewrite Hb. }
  destruct (pose_keeps_state_machine w2 rand dt Hroot w2 eq_refl) as (w' & E' & _ & HK).
  exists w'. split.
  - do 2 match goal with
         | |- (?a >> ?b) ?x = _ => rewrite (seqA_Ok a b x _ eq_refl)
         end.
    fold w1. rewrite (seqA_Ok _ _ w1 w2 E2). exact E'.
  - unfold keepsStateMachine, rest in HK. destruct HK as (K1 & K2 & K3 & K4).
    unfold transitionOutcome in *. cbn zeta in *.
    rewrite K1, K2, K3, K4. exact Hout.
Qed.
End StateMachine.

(** A first frame of 16 ms on the root bone alone, every draw being 0.5. *)
Lemma update_state_machine_witness :
  exists w', ElephantLocomotion.update (fun _ => 0.5) 0.016 rootWorld = Ok w'
    /\ transitionOutcome idle 0.5 w'.
Proof.
  apply (update_state_machine (fun _ => 0.5) (fun _ => ltac:(lra)) rootWorld 0.016).
  - eexists. reflexivity.
  - eexists. reflexivity.
  - cbn. lra.
Defined.

(** ** The exact effect of a statement *)

Section Acts.
Variable w0 : World.

Lemma acts_seq (G1 G2 : World -> World) (a b : Action) :
  acts w0 G1 a -> acts w0 G2 b -> acts w0 (andThen G1 G2) (a >> b).
Proof.
  intros Ha Hb w Hw. destruct (Ha w Hw) as [E1 H1]. destruct (Hb _ H1) as [E2 H2].
  split; [|exact H2]. unfold seqA. rewrite E1. exact E2.
Qed.

Lemma acts_letBone (name : string) (k : BoneRef -> Action) (G : World -> World) :
  acts w0 G (k (boneRef w0 name)) -> acts w0 G (letBone name k).
Proof.
  intros Hk w Hw. unfold letBone.
  replace (match bones w !! name with Some _ => Some name | None => None end)
    with (boneRef w0 name); [by apply Hk|].
  unfold boneRef.
  assert (H : is_Some (bones w !! name) <-> is_Some (bones w0 !! name)).
  { rewrite <- !elem_of_dom. by rewrite Hw. }
  destruct (bones w !! name), (bones w0 !! name); try done.
  - destruct H as [H _]. destruct (H ltac:(eauto)) as [? ?]. done.
  - destruct H as [_ H]. destruct (H ltac:(eauto)) as [? ?]. done.
Qed.

Lemma valid_boneRef (name : string) : valid w0 (boneRef w0 name).
Proof. unfold boneRef, valid. destruct (bones w0 !! name) eqn:E; [by rewrite E|done]. Qed.

Lemma valid_orBone (x y : BoneRef) : valid w0 x -> valid w0 y -> valid w0 (orBone x y).
Proof. by destruct x. Qed.

Lemma acts_guarded_write (x : BoneRef) (f : Bone -> Bone) :
  valid w0 x -> acts w0 (touch x f) (ifBone x (writeBone x f)).
Proof.
  intros Hx w Hw. destruct x as [name|]; [|by split].
  cbn [ifBone touch]. unfold writeBone.
  assert (Hin : is_Some (bones w !! name)).
  { apply elem_of_dom. rewrite Hw. apply elem_of_dom. exact Hx. }
  destruct Hin as [b Hb]. rewrite Hb.
  assert (E : <[name := f b]> (bones w) = alter f name (bones w)).
  { apply map_eq. intros k. destruct (decide (k = name)) as [->|Hne].
    - by rewrite lookup_insert_eq, lookup_alter_eq, Hb.
    - by rewrite lookup_insert_ne, lookup_alter_ne. }
  split.
  - unfold setBones. by rewrite E.
  - unfold sameBones in *. cbn. by rewrite dom_alter_L.
Qed.

Lemma acts_withLoco (k : Locomotion -> Action) (G : Locomotion -> World -> World) :
  (forall l, acts w0 (G l) (k l)) -> acts w0 (fun w => G (locomotion w) w) (withLoco k).
Proof. intros Hk w Hw. exact (Hk (locomotion w) w Hw). Qed.

Lemma acts_assign (f : Locomotion -> Locomotion) : acts w0 (setLocomotion f) (assign f).
Proof. intros w Hw. by split. Qed.
End Acts.

Lemma bones_touch (x : BoneRef) (f : Bone -> Bone) (w : World) (name : string) :
  bones (touch x f w) !! name
  = if decide (x = Some name) then f <$> bones w !! name else bones w !! name.
Proof.
  destruct x as [n|]; unfold touch, setBones; cbn [bones].
  - case_decide as E.
    + injection E as ->. apply lookup_alter_eq.
    + apply lookup_alter_ne. congruence.
  - by case_decide.
Qed.

Lemma touch_lookup_None (x : BoneRef) (f : Bone -> Bone) (w : World) (name : string) :
  bones w !! name = None -> bones (touch x f w) !! name = None.
Proof. intros H. rewrite bones_touch. case_decide; by rewrite H. Qed.

Lemma touch_lookup_Some (x : BoneRef) (f : Bone -> Bone) (w : World) (name : string)
    (b : Bone) :
  bones w !! name = Some b ->
  bones (touch x f w) !! name
  = Some ((if decide (x = Some name) then f else fun b0 => b0) b).
Proof. intros H. rewrite bones_touch. case_decide; by rewrite H. Qed.

Lemma boneRef_present (w : World) (name : string) (b : Bone) :
  bones w !! name = Some b -> boneRef w name = Some name.
Proof. intros H. unfold boneRef. by rewrite H. Qed.

Lemma boneRef_absent (w : World) (name : string) :
  bones w !! name = None -> boneRef w name = None.
Proof. intros H. unfold boneRef. by rewrite H. Qed.

Lemma boneRef_other (w : World) (n name : string) :
  n <> name -> boneRef w n <> Some name.
Proof. intros H. unfold boneRef. destruct (bones w !! n); congruence. Qed.

Lemma locomotion_touch (x : BoneRef) (f : Bone -> Bone) (w : World) :
  locomotion (touch x f w) = locomotion w.
Proof. by destruct x. Qed.

(** Decide which of the guarded writes reach the bone of the hypothesis. *)
Ltac pick_bone Hb :=
  repeat match goal with
    | |- context [decide (?x = Some ?n)] =>
        first [ rewrite (decide_True (P := x = Some n))
                  by (first [ reflexivity | exact (boneRef_present _ _ _ Hb) ])
              | rewrite (decide_False (P := x = Some n))
                  by (first [ apply boneRef_other; congruence | congruence ]) ]
    end.

Ltac weights :=
  unfold lookupWeight, tailWeights, earWeights;
  repeat (case_decide; [try congruence|]); try congruence;
  cbn [position matrixWorld rotation addRotY addRotZ setRotY setRotZ vx vy vz];
  repeat split; try reflexivity; try lra.

Ltac acts_all :=
  repeat lazymatch goal with
    | |- acts _ _ (_ >> _) => eapply acts_seq
    | |- acts _ _ (letBone _ _) => eapply acts_letBone
    | |- acts _ _ (assign _) => eapply acts_assign
    | |- acts _ _ (ifBone _ (writeBone _ _)) =>
        eapply acts_guarded_write;
        first [ apply valid_boneRef | apply valid_orBone; apply valid_boneRef ]
    | |- acts _ _ (let _ := _ in _) => cbv zeta
    end.

(** C5 (as the code has it).  [applySecondaryMotion(dt)] never throws.  Each
    of the three channels takes one semi-implicit Euler step towards
    (the wander speed if the state is [wander], else 0) times its gain
    (trunk 0.4, ears 0.3, tail 0.5) with stiffness 10 and damping 5.  Bones
    are neither added nor removed; positions, world matrices and
    [rotation.x] stay; [rotation.y] grows by the trunk angle times
    0.7 / 0.5 / 0.35 / 0.2 along the trunk ([trunk_mid] taking the place of
    a missing [trunk_mid1]) and by the tail angle times 0.6 / 0.4 / 0.2 along
    the tail; [rotation.z] grows by the full ears angle on [ear_left] and
    shrinks by the full ears angle on [ear_right]. *)
Theorem secondary_motion_layers (w : World) (dt : R) :
  exists w', ElephantLocomotion.applySecondaryMotion dt w = Ok w'
    /\ let s := _spring (locomotion w) in
       let s' := _spring (locomotion w') in
       let speed := springSpeed (locomotion w) in
       trunk s' = ElephantLocomotion.springStep 10.0 5.0 dt (speed * 0.4) (trunk s)
       /\ ears s' = ElephantLocomotion.springStep 10.0 5.0 dt (speed * 0.3) (ears s)
       /\ tail s' = ElephantLocomotion.springStep 10.0 5.0 dt (speed * 0.5) (tail s)
       /\ (forall name, bones w !! name = None -> bones w' !! name = None)
       /\ (forall name b, bones w !! name = Some b ->
             exists b', bones w' !! name = Some b'
               /\ position b' = position b
               /\ matrixWorld b' = matrixWorld b
               /\ vx (rotation b') = vx (rotation b)
               /\ vy (rotation b')
                  = vy (rotation b) + angle (trunk s') * lookupWeight (trunkWeights w) name
                                    + angle (tail s') * lookupWeight tailWeights name
               /\ vz (rotation b')
                  = vz (rotation b) + angle (ears s') * lookupWeight earWeights name).
Proof.
  eassert (HG : acts w _ (ElephantLocomotion.applySecondaryMotion dt)).
  { unfold ElephantLocomotion.applySecondaryMotion.
    eapply acts_withLoco. intros this. cbv zeta. acts_all. }
  destruct (HG w eq_refl) as [E _]. clear HG.
  eexists. split; [exact E|]. clear E. cbv zeta.
  unfold andThen, springSpeed.
  set (sT := ElephantLocomotion.springStep 10.0 5.0 dt _ (trunk _)).
  set (sE := ElephantLocomotion.springStep 10.0 5.0 dt _ (ears _)).
  set (sA := ElephantLocomotion.springStep 10.0 5.0 dt _ (tail _)).
  repeat (rewrite locomotion_touch;
          cbn [locomotion setLocomotion _spring withSpring trunk ears tail]).
  split; [reflexivity|]. split; [reflexivity|]. split; [reflexivity|].
  split.
  - intros name Hn.
    repeat first [ apply touch_lookup_None | progress cbn [bones setLocomotion] ].
    exact Hn.
  - intros name b Hb.
    eexists. split.
    { repeat first [ eapply touch_lookup_Some | progress cbn [bones setLocomotion] ].
      exact Hb. }
    assert (Hmid : orBone (boneRef w "trunk_mid1") (boneRef w "trunk_mid")
                   = match bones w !! "trunk_mid1" with
                     | Some _ => Some "trunk_mid1"
                     | None => boneRef w "trunk_mid"
                     end).
    { unfold boneRef at 1. by destruct (bones w !! "trunk_mid1"). }
    rewrite Hmid. clear Hmid. unfold trunkWeights.
    destruct (bones w !! "trunk_mid1") as [bm|] eqn:Em.
    all: destruct (decide (name = "trunk_base")) as [->|N1]; [pick_bone Hb; weights|].
    all: destruct (decide (name = "trunk_mid1")) as [->|N2]; [pick_bone Hb; weights|].
    all: destruct (decide (name = "trunk_mid")) as [->|N3]; [pick_bone Hb; weights|].
    all: destruct (decide (name = "trunk_mid2")) as [->|N4]; [pick_bone Hb; weights|].
    all: destruct (decide (name = "trunk_tip")) as [->|N5]; [pick_bone Hb; weights|].
    all: destruct (decide (name = "ear_left")) as [->|N6]; [pick_bone Hb; weights|].
    all: destruct (decide (name = "ear_right")) as [->|N7]; [pick_bone Hb; weights|].
    all: destruct (decide (name = "tail_base")) as [->|N8]; [pick_bone Hb; weights|].
    all: destruct (decide (name = "tail_mid")) as [->|N9]; [pick_bone Hb; weights|].
    all: destruct (decide (name = "tail_tip")) as [->|N10]; [pick_bone Hb; weights|].
    all: pick_bone Hb; weights.
Qed.

(** The ears of [earWorld]: the only bone is the right ear. *)
Lemma earWorld_bones (name : string) :
  bones earWorld !! name = if decide (name = "ear_right") then Some restBone else None.
Proof.
  cbn [bones earWorld]. case_decide as E.
  - rewrite E. apply lookup_singleton_eq.
  - apply lookup_singleton_ne. congruence.
Qed.

(** One frame of 0.1 s while wandering: the ears spring moves to a positive
    angle, and the whole of that angle is taken off [ear_right.rotation.z]. *)
Lemma ears_angle_subtracted :
  exists w' b', ElephantLocomotion.applySecondaryMotion 0.1 earWorld = Ok w'
    /\ bones earWorld !! "ear_right" = Some restBone
    /\ bones w' !! "ear_right" = Some b'
    /\ 0 < angle (ears (_spring (locomotion w')))
    /\ vz (rotation b') = vz (rotation restBone) - angle (ears (_spring (locomotion w')))
    /\ vz (rotation b') < vz (rotation restBone).
Proof.
  eassert (HG : acts earWorld _ (ElephantLocomotion.applySecondaryMotion 0.1)).
  { unfold ElephantLocomotion.applySecondaryMotion.
    eapply acts_withLoco. intros this. cbv zeta. acts_all. }
  destruct (HG earWorld eq_refl) as [E _]. clear HG.
  assert (Hb : bones earWorld !! "ear_right" = Some restBone).
  { rewrite earWorld_bones. by rewrite decide_True. }
  eexists. eexists. split; [exact E|]. clear E.
  split; [exact Hb|].
  unfold andThen. split.
  { repeat first [ eapply touch_lookup_Some | progress cbn [bones setLocomotion] ].
    exact Hb. }
  repeat (rewrite locomotion_touch;
          cbn [locomotion setLocomotion _spring withSpring trunk ears tail]).
  assert (Hmid : orBone (boneRef earWorld "trunk_mid1") (boneRef earWorld "trunk_mid")
                 = None).
  { rewrite !boneRef_absent; [done| |]; rewrite earWorld_bones; by rewrite decide_False. }
  rewrite Hmid. clear Hmid.
  pick_bone Hb.
  cbn [position matrixWorld rotation addRotY addRotZ setRotY setRotZ vx vy vz
       ElephantLocomotion.springStep angle velocity].
  cbn [earWorld locomotion state withState newLocomotion wanderSpeed _spring ears
       angle velocity].
  repeat split; lra.
Qed.

(** ** Missing bones *)

Section Coupled.
Variables w01 w02 : World.

Lemma coupled_boneOnly (a1 a2 : Action) :
  runs eq w01 a1 -> runs eq w02 a2 -> coupled w01 w02 a1 a2.
Proof.
  intros H1 H2 w1 w2 S1 S2 Hr.
  destruct (H1 w1 S1) as (w1' & E1 & S1' & R1).
  destruct (H2 w2 S2) as (w2' & E2 & S2' & R2).
  exists w1', w2'. repeat split; try assumption. congruence.
Qed.

Lemma coupled_seq (a1 a2 b1 b2 : Action) :
  coupled w01 w02 a1 a2 -> coupled w01 w02 b1 b2 ->
  coupled w01 w02 (a1 >> b1) (a2 >> b2).
Proof.
  intros Ha Hb w1 w2 S1 S2 Hr.
  destruct (Ha w1 w2 S1 S2 Hr) as (u1 & u2 & E1 & E2 & T1 & T2 & Hr').
  destruct (Hb u1 u2 T1 T2 Hr') as (v1 & v2 & F1 & F2 & U1 & U2 & Hr'').
  exists v1, v2. unfold seqA. rewrite E1, E2. cbn. by repeat split.
Qed.

Lemma coupled_withLoco (k1 k2 : Locomotion -> Action) :
  (forall l, coupled w01 w02 (k1 l) (k2 l)) -> coupled w01 w02 (withLoco k1) (withLoco k2).
Proof.
  intros Hk w1 w2 S1 S2 Hr. unfold withLoco.
  assert (E : locomotion w1 = locomotion w2) by (unfold rest in Hr; congruence).
  rewrite E. by apply Hk.
Qed.

Lemma coupled_withMesh (k1 k2 : option Vector3 -> Action) :
  (forall m, coupled w01 w02 (k1 m) (k2 m)) -> coupled w01 w02 (withMesh k1) (withMesh k2).
Proof.
  intros Hk w1 w2 S1 S2 Hr. unfold withMesh.
  assert (E : mesh w1 = mesh w2) by (unfold rest in Hr; congruence).
  rewrite E. by apply Hk.
Qed.

Lemma coupled_pure (G : World -> World) :
  (forall w, bones (G w) = bones w) ->
  (forall w1 w2, rest w1 = rest w2 -> rest (G w1) = rest (G w2)) ->
  coupled w01 w02 (fun w => Ok (G w)) (fun w => Ok (G w)).
Proof.
  intros Hb HG w1 w2 S1 S2 Hr. exists (G w1), (G w2).
  unfold sameBones in *. rewrite !Hb. repeat split; try assumption. by apply HG.
Qed.

Lemma coupled_assign (f : Locomotion -> Locomotion) :
  coupled w01 w02 (assign f) (assign f).
Proof.
  apply (coupled_pure (setLocomotion f)); [done|].
  intros w1 w2 Hr. unfold rest in *. cbn. congruence.
Qed.

Lemma coupled_moveMesh (f : Vector3 -> Vector3) :
  coupled w01 w02 (moveMesh f) (moveMesh f).
Proof.
  apply (coupled_pure (setMesh f)); [done|].
  intros w1 w2 Hr. unfold rest in *. cbn. congruence.
Qed.

Lemma coupled_setState (s : LocoState) : coupled w01 w02 (setState s) (setState s).
Proof.
  apply (coupled_pure (setBehaviorState s)); [done|].
  intros w1 w2 Hr. unfold rest in *. cbn. congruence.
Qed.

Lemma coupled_skip : coupled w01 w02 skip skip.
Proof. apply (coupled_pure (fun w => w)); done. Qed.

Lemma coupled_random (rand : nat -> R) (k1 k2 : R -> Action) :
  (forall r, coupled w01 w02 (k1 r) (k2 r)) ->
  coupled w01 w02 (random rand k1) (random rand k2).
Proof.
  intros Hk w1 w2 S1 S2 Hr. unfold random.
  assert (E : randomCursor w1 = randomCursor w2) by (unfold rest in Hr; congruence).
  rewrite E. apply Hk; try assumption.
  unfold rest in *. cbn. congruence.
Qed.
End Coupled.

Ltac eq_side := intros; reflexivity.

(** Statements that write bones only. *)
Ltac bone_only :=
  apply coupled_boneOnly;
  (pose proof (@eq_refl Rest) as Kr; pose proof (@eq_trans Rest) as Kt;
   runs_all eq_side).

Ltac coupled_all :=
  repeat lazymatch goal with
    | |- coupled _ _ (_ >> _) (_ >> _) => apply coupled_seq
    | |- coupled _ _ (withLoco _) (withLoco _) => apply coupled_withLoco; intros ?
    | |- coupled _ _ (withMesh _) (withMesh _) => apply coupled_withMesh; intros ?
    | |- coupled _ _ (assign _) (assign _) => apply coupled_assign
    | |- coupled _ _ (moveMesh _) (moveMesh _) => apply coupled_moveMesh
    | |- coupled _ _ (setState _) (setState _) => apply coupled_setState
    | |- coupled _ _ skip skip => apply coupled_skip
    | |- coupled _ _ (random _ _) (random _ _) => apply coupled_random; intros ?
    | |- coupled _ _ (if ?c then _ else _) _ => destruct c
    | |- coupled _ _ (match ?c with _ => _ end) _ => destruct c
    | |- coupled _ _ (let _ := _ in _) _ => cbv zeta
    | |- coupled _ _ (letBone _ _) (letBone _ _) => bone_only
    | |- coupled _ _ (writeBone _ _) (writeBone _ _) => bone_only
    | |- coupled _ _ (ElephantLocomotion.legPose _ _ _ _ _) _ => bone_only
    | |- coupled _ _ (ElephantLocomotion.applyWalkPose _) _ => bone_only
    | |- coupled _ _ (ElephantLocomotion.applyTrunkWalk _ _) _ => bone_only
    | |- coupled _ _ (ElephantLocomotion.applyEarWalk _ _) _ => bone_only
    | |- coupled _ _ _ _ => unfold_loco
    end.

(** [update(dt)] returns whatever bones, mesh and random draws it finds. *)
Lemma update_never_throws (rand : nat -> R) (dt : R) (w : World) :
  exists w', ElephantLocomotion.update rand dt w = Ok w' /\ dom (bones w') = dom (bones w).
Proof.
  assert (Kr : forall r, anyChange r r) by done.
  assert (Kt : forall a b c, anyChange a b -> anyChange b c -> anyChange a c) by done.
  assert (H : runs anyChange w (ElephantLocomotion.update rand dt)).
  { unfold ElephantLocomotion.update. apply runs_letBone. intros [root|] Hroot.
    - apply runs_withMesh. intros [m|]; [|by apply runs_skip].
      runs_all ltac:(done).
    - apply runs_withMesh. intros [m|]; by apply runs_skip. }
  destruct (H w eq_refl) as (w' & E & S & _). exists w'. by split.
Qed.

(** Without the root bone [update(dt)] returns at its first line. *)
Lemma update_without_root (rand : nat -> R) (dt : R) (w : World) :
  bones w !! "spine_base" = None -> ElephantLocomotion.update rand dt w = Ok w.
Proof.
  intros H. unfold ElephantLocomotion.update, letBone, withMesh. rewrite H.
  by destruct (mesh w).
Qed.

(** With the root bone on both sides, everything but the bones evolves in
    the same way whatever other bones are there. *)
Lemma update_ignores_optional_bones (rand : nat -> R) (dt : R) (w1 w2 : World) :
  rest w1 = rest w2 ->
  is_Some (bones w1 !! "spine_base") ->
  is_Some (bones w2 !! "spine_base") ->
  exists w1' w2', ElephantLocomotion.update rand dt w1 = Ok w1'
    /\ ElephantLocomotion.update rand dt w2 = Ok w2'
    /\ rest w1' = rest w2'.
Proof.
  intros Hr [b1 H1] [b2 H2].
  assert (V1 : valid w1 (Some "spine_base")) by (cbn; eauto).
  assert (V2 : valid w2 (Some "spine_base")) by (cbn; eauto).
  assert (H : coupled w1 w2 (ElephantLocomotion.update rand dt)
                            (ElephantLocomotion.update rand dt)).
  { intros u1 u2 S1 S2 Hu. unfold ElephantLocomotion.update, letBone.
    assert (I1 : is_Some (bones u1 !! "spine_base")).
    { apply elem_of_dom. rewrite S1. apply elem_of_dom. eauto. }
    assert (I2 : is_Some (bones u2 !! "spine_base")).
    { apply elem_of_dom. rewrite S2. apply elem_of_dom. eauto. }
    destruct I1 as [c1 I1], I2 as [c2 I2]. rewrite I1, I2.
    match goal with
    | |- exists _ _, ?a u1 = _ /\ _ =>
        cut (coupled w1 w2 a a); [intros C; exact (C u1 u2 S1 S2 Hu)|]
    end.
    clear u1 u2 S1 S2 Hu c1 c2 I1 I2.
    apply coupled_withMesh. intros [m|]; [|apply coupled_skip].
    coupled_all. }
  destruct (H w1 w2 eq_refl eq_refl Hr) as (w1' & w2' & E1 & E2 & _ & _ & Hr').
  eauto.
Qed.

(** *** A skeleton beside a skeleton with more bones *)

Ltac split_all := repeat match goal with |- _ /\ _ => split end.

Section Paired.
Variables D1 D2 : gset string.
Variable orig : gmap string Bone.
Hypothesis HD : D1 ⊆ D2.

Lemma refD_lookup (D : gset string) (w : World) (name : string) :
  dom (bones w) = D -> boneRef w name = refD D name.
Proof.
  intros <-. unfold refD, boneRef. destruct (bones w !! name) as [b|] eqn:E.
  - rewrite decide_True; [done|]. apply elem_of_dom. eauto.
  - rewrite decide_False; [done|]. by apply not_elem_of_dom.
Qed.

Lemma paired_seq (m m' m'' : Mode) (a1 a2 b1 b2 : Action) :
  paired D1 D2 orig m m' a1 a2 -> paired D1 D2 orig m' m'' b1 b2 ->
  paired D1 D2 orig m m'' (a1 >> b1) (a2 >> b2).
Proof.
  intros Ha Hb u1 u2 S.
  destruct (Ha u1 u2 S) as (v1 & v2 & E1 & E2 & S').
  destruct (Hb v1 v2 S') as (x1 & x2 & F1 & F2 & S'').
  exists x1, x2. unfold seqA. rewrite E1, E2. cbn. by split_all.
Qed.

Lemma paired_ext (m m' : Mode) (a1 a2 a1' a2' : Action) :
  (forall w, a1 w = a1' w) -> (forall w, a2 w = a2' w) ->
  paired D1 D2 orig m m' a1' a2' -> paired D1 D2 orig m m' a1 a2.
Proof.
  intros H1 H2 H u1 u2 S. rewrite H1, H2. by apply H.
Qed.

Lemma paired_skip (m : Mode) : paired D1 D2 orig m m skip skip.
Proof. intros u1 u2 S. by exists u1, u2. Qed.

Lemma paired_withLoco (m m' : Mode) (k1 k2 : Locomotion -> Action) :
  (forall l, paired D1 D2 orig m m' (k1 l) (k2 l)) ->
  paired D1 D2 orig m m' (withLoco k1) (withLoco k2).
Proof.
  intros Hk u1 u2 S. unfold withLoco.
  assert (E : locomotion u1 = locomotion u2).
  { destruct S as (Hr & _). unfold rest in Hr. congruence. }
  rewrite <- E. by apply Hk.
Qed.

Lemma paired_withMesh (m m' : Mode) (k1 k2 : option Vector3 -> Action) :
  (forall p, paired D1 D2 orig m m' (k1 p) (k2 p)) ->
  paired D1 D2 orig m m' (withMesh k1) (withMesh k2).
Proof.
  intros Hk u1 u2 S. unfold withMesh.
  assert (E : mesh u1 = mesh u2).
  { destruct S as (Hr & _). unfold rest in Hr. congruence. }
  rewrite <- E. by apply Hk.
Qed.

(** A step that leaves the bones alone and acts on the rest of both
    worlds in the same way. *)
Lemma paired_pure (m : Mode) (G : World -> World) :
  (forall w, bones (G w) = bones w) ->
  (forall w1 w2, rest w1 = rest w2 -> rest (G w1) = rest (G w2)) ->
  (forall w, trunk (_spring (locomotion (G w))) = trunk (_spring (locomotion w))) ->
  paired D1 D2 orig m m (fun w => Ok (G w)) (fun w => Ok (G w)).
Proof.
  intros Hb Hr Ht u1 u2 (S1 & S2 & S3 & S4 & S5). exists (G u1), (G u2).
  split; [done|]. split; [done|]. unfold sideBySide. rewrite !Hb.
  split_all; try done; try (by apply Hr).
  - destruct m; cbn in *; try done. by rewrite Ht.
  - intros name b1 H1. specialize (S5 name b1 H1). unfold boneRel in *.
    destruct m; try exact S5. by rewrite Ht.
Qed.

Lemma paired_assign (m : Mode) (f : Locomotion -> Locomotion) :
  (forall l, trunk (_spring (f l)) = trunk (_spring l)) ->
  paired D1 D2 orig m m (assign f) (assign f).
Proof.
  intros Hf. apply (paired_pure m (setLocomotion f)); [done| |intros w; apply Hf].
  intros w1 w2 Hr. unfold rest in *. cbn. congruence.
Qed.

(** Before the trunk spring is stepped the locomotion may change in any
    way. *)
Lemma paired_assign_before (f : Locomotion -> Locomotion) :
  paired D1 D2 orig Before Before (assign f) (assign f).
Proof.
  intros u1 u2 (S1 & S2 & S3 & S4 & S5).
  exists (setLocomotion f u1), (setLocomotion f u2).
  split; [done|]. split; [done|]. unfold sideBySide. split_all; try done.
  unfold rest in *. cbn. congruence.
Qed.

(** The step of the trunk spring. *)
Lemma paired_arm (f : Locomotion -> Locomotion) (d : R) :
  (forall l, angle (trunk (_spring (f l))) = d) ->
  paired D1 D2 orig Before (Armed d) (assign f) (assign f).
Proof.
  intros Hf u1 u2 (S1 & S2 & S3 & S4 & S5).
  exists (setLocomotion f u1), (setLocomotion f u2).
  split; [done|]. split; [done|]. unfold sideBySide. split_all; try done.
  - unfold rest in *. cbn. congruence.
  - cbn. apply Hf.
Qed.

Lemma paired_moveMesh (m : Mode) (f : Vector3 -> Vector3) :
  paired D1 D2 orig m m (moveMesh f) (moveMesh f).
Proof.
  apply (paired_pure m (setMesh f)); [done| |done].
  intros w1 w2 Hr. unfold rest in *. cbn. congruence.
Qed.

Lemma paired_setState (m : Mode) (s : LocoState) :
  paired D1 D2 orig m m (setState s) (setState s).
Proof.
  apply (paired_pure m (setBehaviorState s)); [done| |done].
  intros w1 w2 Hr. unfold rest in *. cbn. congruence.
Qed.

Lemma paired_random (m m' : Mode) (rand : nat -> R) (k1 k2 : R -> Action) :
  (forall r, paired D1 D2 orig m m' (k1 r) (k2 r)) ->
  paired D1 D2 orig m m' (random rand k1) (random rand k2).
Proof.
  intros Hk u1 u2 S. unfold random.
  assert (E : randomCursor u1 = randomCursor u2).
  { destruct S as (Hr & _). unfold rest in Hr. congruence. }
  rewrite <- E. apply Hk.
  destruct S as (S1 & S2 & S3 & S4 & S5). unfold sideBySide. split_all; try done.
  unfold rest in *. cbn. congruence.
Qed.

Lemma paired_letBone (m m' : Mode) (name : string) (k1 k2 : BoneRef -> Action) :
  paired D1 D2 orig m m' (k1 (refD D1 name)) (k2 (refD D2 name)) ->
  paired D1 D2 orig m m' (letBone name k1) (letBone name k2).
Proof.
  intros Hk u1 u2 S.
  change (exists v1 v2, k1 (boneRef u1 name) u1 = Ok v1
            /\ k2 (boneRef u2 name) u2 = Ok v2 /\ sideBySide D1 D2 orig m' v1 v2).
  pose proof S as (S1 & S2 & S3 & S4 & S5).
  rewrite (refD_lookup D1 u1 name S2), (refD_lookup D2 u2 name S3).
  by apply Hk.
Qed.

(** *** Writes *)

Lemma present_in (D : gset string) (w : World) (name : string) :
  dom (bones w) = D -> name ∈ D -> exists b, bones w !! name = Some b.
Proof. intros <- H. by apply elem_of_dom in H as [b H]; eauto. Qed.

Lemma absent_in (D : gset string) (w : World) (name : string) :
  dom (bones w) = D -> name ∉ D -> bones w !! name = None.
Proof. intros <- H. by apply not_elem_of_dom. Qed.

(** The same write to a bone that both sides have and pose alike. *)
Lemma sideBySide_write_both (m : Mode) (n : string) (f : Bone -> Bone)
    (u1 u2 : World) (b1 : Bone) :
  sideBySide D1 D2 orig m u1 u2 -> bones u1 !! n = Some b1 ->
  ~ cancelledIn D1 D2 n -> (m = After -> ~ redirectedIn D1 D2 n) ->
  bones u2 !! n = Some b1
  /\ sideBySide D1 D2 orig m (setBones (insert n (f b1)) u1)
                              (setBones (insert n (f b1)) u2).
Proof.
  intros (S1 & S2 & S3 & S4 & S5) Hb Hc Hr.
  assert (Hb2 : bones u2 !! n = Some b1).
  { destruct (S5 n b1 Hb) as [_ H]. specialize (H Hc).
    destruct m; try exact H. destruct H as [_ H]. apply H. by apply Hr. }
  split; [exact Hb2|]. unfold sideBySide. split_all.
  - exact S1.
  - cbn [bones setBones]. rewrite dom_insert_lookup_L; [exact S2|eauto].
  - cbn [bones setBones]. rewrite dom_insert_lookup_L; [exact S3|eauto].
  - exact S4.
  - intros name b Hn. cbn [bones setBones locomotion] in *.
    destruct (decide (name = n)) as [->|NE].
    + rewrite lookup_insert_eq in Hn. injection Hn as <-.
      rewrite lookup_insert_eq. split; [done|]. intros _.
      destruct m; try done. split; [|done]. intros H. by destruct (Hr eq_refl).
    + rewrite lookup_insert_ne in Hn by done. rewrite lookup_insert_ne by done.
      by apply S5.
Qed.

(** A write on the side of the larger skeleton to a bone that the smaller
    one lacks or does not pose. *)
Lemma sideBySide_write_right (m : Mode) (n : string) (f : Bone -> Bone)
    (u1 u2 : World) (b2 : Bone) :
  sideBySide D1 D2 orig m u1 u2 -> bones u2 !! n = Some b2 ->
  n ∉ D1 \/ cancelledIn D1 D2 n ->
  sideBySide D1 D2 orig m u1 (setBones (insert n (f b2)) u2).
Proof.
  intros (S1 & S2 & S3 & S4 & S5) Hb Hn. unfold sideBySide. split_all.
  - exact S1.
  - exact S2.
  - cbn [bones setBones]. rewrite dom_insert_lookup_L; [exact S3|eauto].
  - exact S4.
  - intros name b H1. cbn [bones setBones locomotion] in *.
    destruct (decide (name = n)) as [->|NE].
    + assert (Hc : cancelledIn D1 D2 n).
      { destruct Hn as [Hn|Hn]; [|exact Hn]. exfalso. apply Hn.
        rewrite <- S2. apply elem_of_dom. eauto. }
      destruct (S5 n b H1) as [H _]. split; [exact H|]. intros N. by destruct N.
    + rewrite lookup_insert_ne by done. by apply S5.
Qed.

Lemma legPartner_trunk_mid : legPartner "trunk_mid" = None.
Proof. reflexivity. Qed.

Lemma not_cancelled (n : string) : legPartner n = None -> ~ cancelledIn D1 D2 n.
Proof. intros E (p & H & _). congruence. Qed.

(** The spring write to [trunk_mid] in place of [trunk_mid1]. *)
Lemma sideBySide_redirect (d : R) (u1 u2 : World) (b1 : Bone) :
  sideBySide D1 D2 orig (Armed d) u1 u2 ->
  "trunk_mid1" ∉ D1 -> "trunk_mid1" ∈ D2 ->
  bones u1 !! "trunk_mid" = Some b1 ->
  sideBySide D1 D2 orig After
    (setBones (insert "trunk_mid" (addRotY (d * 0.5) b1)) u1) u2.
Proof.
  intros (S1 & S2 & S3 & S4 & S5) N1 N2 Hb. unfold sideBySide. split_all.
  - exact S1.
  - cbn [bones setBones]. rewrite dom_insert_lookup_L; [exact S2|eauto].
  - exact S3.
  - exact Logic.I.
  - intros name b Hn. cbn [bones setBones locomotion] in *. cbn in S4.
    destruct (decide (name = "trunk_mid")) as [->|NE].
    + rewrite lookup_insert_eq in Hn. injection Hn as <-.
      split; [intros H; by destruct (not_cancelled _ legPartner_trunk_mid H)|].
      intros _. split.
      * intros _. exists b1. split; [|by rewrite S4].
        destruct (S5 "trunk_mid" b1 Hb) as [_ H]. apply H.
        by apply not_cancelled.
      * intros H. destruct H. by split_all.
    + rewrite lookup_insert_ne in Hn by done.
      destruct (S5 name b Hn) as [H1 H2]. split; [exact H1|].
      intros Hc. split; [|intros _; by apply H2].
      intros (E & _). contradiction.
Qed.

(** Where [trunk_mid] does not stand in for [trunk_mid1], the spring
    leaves both sides alike. *)
Lemma sideBySide_shift (d : R) (u1 u2 : World) :
  sideBySide D1 D2 orig (Armed d) u1 u2 ->
  ("trunk_mid" ∈ D1 -> ~ redirectedIn D1 D2 "trunk_mid") ->
  sideBySide D1 D2 orig After u1 u2.
Proof.
  intros (S1 & S2 & S3 & S4 & S5) Hn. unfold sideBySide. split_all; try done.
  intros name b H1. destruct (S5 name b H1) as [H H']. split; [exact H|].
  intros Hc. split; [|intros _; by apply H'].
  intros Hr. exfalso. destruct Hr as (-> & Hr). apply Hn; [|by split_all].
  rewrite <- S2. apply elem_of_dom. eauto.
Qed.

Lemma paired_write_both (m : Mode) (n : string) (f : Bone -> Bone) :
  n ∈ D1 -> ~ cancelledIn D1 D2 n -> (m = After -> ~ redirectedIn D1 D2 n) ->
  paired D1 D2 orig m m (writeBone (Some n) f) (writeBone (Some n) f).
Proof.
  intros Hn Hc Hr u1 u2 S.
  destruct (present_in D1 u1 n) as [b1 Hb]; [by destruct S as (_ & ? & _)|exact Hn|].
  destruct (sideBySide_write_both m n f u1 u2 b1 S Hb Hc Hr) as [Hb2 S'].
  unfold writeBone. rewrite Hb, Hb2. eauto.
Qed.

Lemma paired_write_right (m : Mode) (n : string) (f : Bone -> Bone) :
  n ∈ D2 -> n ∉ D1 \/ cancelledIn D1 D2 n ->
  paired D1 D2 orig m m skip (writeBone (Some n) f).
Proof.
  intros Hn Hc u1 u2 S.
  destruct (present_in D2 u2 n) as [b2 Hb]; [by destruct S as (_ & _ & ? & _)|exact Hn|].
  pose proof (sideBySide_write_right m n f u1 u2 b2 S Hb Hc) as S'.
  unfold writeBone, skip. rewrite Hb. eauto.
Qed.

(** [skip] beside two writes. *)
Lemma paired_right_seq (m : Mode) (a b : Action) :
  paired D1 D2 orig m m skip a -> paired D1 D2 orig m m skip b ->
  paired D1 D2 orig m m skip (a >> b).
Proof.
  intros Ha Hb. eapply paired_ext; [| |exact (paired_seq m m m _ _ _ _ Ha Hb)]; done.
Qed.

(** [if (x) x.field = ...] on a bone that is no leg. *)
Lemma paired_guard1 (m : Mode) (n : string) (f : Bone -> Bone) :
  legPartner n = None -> (m = After -> n <> "trunk_mid") ->
  paired D1 D2 orig m m (ifBone (refD D1 n) (writeBone (refD D1 n) f))
                        (ifBone (refD D2 n) (writeBone (refD D2 n) f)).
Proof.
  intros Hl Hm. unfold refD.
  destruct (decide (n ∈ D1)) as [I1|N1].
  - rewrite decide_True by set_solver. cbn [ifBone].
    apply paired_write_both; [exact I1|by apply not_cancelled|].
    intros E (E' & _). by apply Hm.
  - destruct (decide (n ∈ D2)) as [I2|N2]; cbn [ifBone].
    + apply paired_write_right; [exact I2|by left].
    + apply paired_skip.
Qed.

(** [if (x) { x.field = ...; x.field = ... }] on a bone that is no leg. *)
Lemma paired_guard2 (m : Mode) (n : string) (f g : Bone -> Bone) :
  legPartner n = None -> (m = After -> n <> "trunk_mid") ->
  paired D1 D2 orig m m
    (ifBone (refD D1 n) (writeBone (refD D1 n) f >> writeBone (refD D1 n) g))
    (ifBone (refD D2 n) (writeBone (refD D2 n) f >> writeBone (refD D2 n) g)).
Proof.
  intros Hl Hm. unfold refD.
  assert (Hr : m = After -> ~ redirectedIn D1 D2 n).
  { intros E (E' & _). by apply Hm. }
  destruct (decide (n ∈ D1)) as [I1|N1].
  - rewrite decide_True by set_solver. cbn [ifBone].
    eapply paired_seq; apply paired_write_both; try done; by apply not_cancelled.
  - destruct (decide (n ∈ D2)) as [I2|N2]; cbn [ifBone].
    + apply paired_right_seq; apply paired_write_right; try done; by left.
    + apply paired_skip.
Qed.

(** One leg of [applyWalkPose]: both bones or none. *)
Lemma paired_legPose (m : Mode) (up lo : string) (swingAmp kneeBend swing : R) :
  legPartner up = Some lo -> legPartner lo = Some up ->
  up <> "trunk_mid" -> lo <> "trunk_mid" ->
  paired D1 D2 orig m m
    (ElephantLocomotion.legPose up lo swingAmp kneeBend swing)
    (ElephantLocomotion.legPose up lo swingAmp kneeBend swing).
Proof.
  intros Hu Hl Nu Nl. unfold ElephantLocomotion.legPose.
  do 2 apply paired_letBone. unfold refD.
  assert (Ru : m = After -> ~ redirectedIn D1 D2 up) by (intros _ (E & _); done).
  assert (Rl : m = After -> ~ redirectedIn D1 D2 lo) by (intros _ (E & _); done).
  destruct (decide (up ∈ D2)) as [U2|U2]; [|rewrite (decide_False (P := up ∈ D1)) by set_solver;
                                            apply paired_skip].
  destruct (decide (lo ∈ D2)) as [L2|L2];
    [|rewrite (decide_False (P := lo ∈ D1)) by set_solver;
      destruct (decide (up ∈ D1)); apply paired_skip].
  cbn [ifBone].
  destruct (decide (up ∈ D1)) as [U1|U1], (decide (lo ∈ D1)) as [L1|L1]; cbn [ifBone].
  - eapply paired_seq; apply paired_write_both; try done.
    + intros (p & E & Hp & _). congruence.
    + intros (p & E & Hp & _). congruence.
  - apply paired_right_seq; apply paired_write_right; try done.
    + right. exists lo. by split_all.
    + by left.
  - apply paired_right_seq; apply paired_write_right; try done.
    + by left.
    + right. exists up. by split_all.
  - apply paired_right_seq; apply paired_write_right; try done; by left.
Qed.

(** [const trunkMid1 = bones['trunk_mid1'] || bones['trunk_mid']; if
    (trunkMid1) trunkMid1.rotation.y += s.angle * 0.5] *)
Lemma paired_trunkMid1 (d : R) :
  paired D1 D2 orig (Armed d) After
    (ifBone (orBone (refD D1 "trunk_mid1") (refD D1 "trunk_mid"))
       (writeBone (orBone (refD D1 "trunk_mid1") (refD D1 "trunk_mid"))
                  (addRotY (d * 0.5))))
    (ifBone (orBone (refD D2 "trunk_mid1") (refD D2 "trunk_mid"))
       (writeBone (orBone (refD D2 "trunk_mid1") (refD D2 "trunk_mid"))
                  (addRotY (d * 0.5)))).
Proof.
  assert (Shift : forall a1 a2,
            ("trunk_mid" ∈ D1 -> ~ redirectedIn D1 D2 "trunk_mid") ->
            paired D1 D2 orig (Armed d) (Armed d) a1 a2 ->
            paired D1 D2 orig (Armed d) After a1 a2).
  { intros a1 a2 Hn H u1 u2 S. destruct (H u1 u2 S) as (v1 & v2 & E1 & E2 & S').
    exists v1, v2. split; [done|]. split; [done|]. by eapply sideBySide_shift. }
  unfold refD.
  destruct (decide ("trunk_mid1" ∈ D1)) as [I1|N1].
  - rewrite (decide_True (P := "trunk_mid1" ∈ D2)) by set_solver. cbn [orBone ifBone].
    apply Shift; [intros _ (_ & N & _); done|].
    apply paired_write_both; [exact I1|by apply not_cancelled|done].
  - destruct (decide ("trunk_mid1" ∈ D2)) as [I2|N2]; cbn [orBone ifBone].
    + (* the larger skeleton writes [trunk_mid1], the smaller one [trunk_mid] *)
      destruct (decide ("trunk_mid" ∈ D1)) as [M1|M1]; cbn [ifBone].
      * intros u1 u2 S.
        destruct (present_in D1 u1 "trunk_mid") as [b1 Hb1];
          [by destruct S as (_ & ? & _)|exact M1|].
        destruct (present_in D2 u2 "trunk_mid1") as [b2 Hb2];
          [by destruct S as (_ & _ & ? & _)|exact I2|].
        unfold writeBone. rewrite Hb1, Hb2. eexists _, _.
        split; [reflexivity|]. split; [reflexivity|].
        apply sideBySide_redirect; try done.
        apply sideBySide_write_right; [exact S|exact Hb2|by left].
      * apply Shift; [done|]. apply paired_write_right; [exact I2|by left].
    + (* both fall back on [trunk_mid] *)
      apply Shift; [intros _ (_ & _ & N); done|].
      destruct (decide ("trunk_mid" ∈ D1)) as [M1|M1].
      * rewrite (decide_True (P := "trunk_mid" ∈ D2)) by set_solver. cbn [ifBone].
        apply paired_write_both; [exact M1|by apply not_cancelled|done].
      * destruct (decide ("trunk_mid" ∈ D2)) as [M2|M2]; cbn [ifBone].
        -- apply paired_write_right; [exact M2|by left].
        -- apply paired_skip.
Qed.

(** [if (!x && !y && !z) return;] before statements that do nothing
    without the three bones. *)
Lemma early_return3 (x y z : BoneRef) (a : Action) (w : World) :
  (x = None -> y = None -> z = None -> a w = Ok w) ->
  match x, y, z with
  | None, None, None => skip
  | _, _, _ => a
  end w = a w.
Proof. destruct x, y, z; try done. intros H. symmetry. by apply H. Qed.

Lemma early_return2 (x y : BoneRef) (a : Action) (w : World) :
  (x = None -> y = None -> a w = Ok w) ->
  match x, y with
  | None, None => skip
  | _, _ => a
  end w = a w.
Proof. destruct x, y; try done. intros H. symmetry. by apply H. Qed.
End Paired.

(** One step through two copies of a statement run side by side. *)
Ltac paired_mode :=
  first [ intros _; discriminate | intros H; discriminate H ].

Ltac paired_step :=
  lazymatch goal with
  | |- paired _ _ _ _ _ (_ >> _) (_ >> _) => eapply paired_seq
  | |- paired _ _ _ _ _ skip skip => apply paired_skip
  | |- paired _ _ _ _ _ (letBone _ _) (letBone _ _) => apply paired_letBone
  | |- paired _ _ _ _ _ (withLoco _) (withLoco _) => apply paired_withLoco; intros ?
  | |- paired _ _ _ _ _ (withMesh _) (withMesh _) => apply paired_withMesh; intros ?
  | |- paired _ _ _ Before _ (assign _) (assign _) => apply paired_assign_before
  | |- paired _ _ _ _ _ (assign _) (assign _) =>
      apply paired_assign; intros ?; reflexivity
  | |- paired _ _ _ _ _ (random _ _) (random _ _) => apply paired_random; intros ?
  | |- paired _ _ _ _ _ (moveMesh _) (moveMesh _) => apply paired_moveMesh
  | |- paired _ _ _ _ _ (setState _) (setState _) => apply paired_setState
  | |- paired _ _ _ _ _ (ifBone _ (writeBone _ _ >> writeBone _ _)) _ =>
      apply paired_guard2; [assumption | reflexivity | paired_mode]
  | |- paired _ _ _ _ _ (ifBone _ (writeBone _ _)) _ =>
      apply paired_guard1; [assumption | reflexivity | paired_mode]
  | |- paired _ _ _ _ _ (writeBone (Some _) _) _ =>
      apply paired_write_both;
        [ assumption | apply not_cancelled; reflexivity
        | intros _ (E & _); discriminate E ]
  | |- paired _ _ _ _ _ (ElephantLocomotion.legPose _ _ _ _ _) _ =>
      apply paired_legPose; [assumption | reflexivity | reflexivity | done | done]
  | |- paired _ _ _ _ _ (match refD _ _ with _ => _ end) _ =>
      eapply paired_ext;
        [ intros ?; first [apply early_return3 | apply early_return2];
          intros; repeat match goal with E : refD _ _ = None |- _ => rewrite E; clear E end;
          reflexivity
        | intros ?; first [apply early_return3 | apply early_return2];
          intros; repeat match goal with E : refD _ _ = None |- _ => rewrite E; clear E end;
          reflexivity
        | ]
  | |- paired _ _ _ _ _ (if ?c then _ else _) _ => destruct c
  | |- paired _ _ _ _ _ (match ?c with _ => _ end) _ => destruct c
  | |- paired _ _ _ _ _ (let _ := _ in _) _ => cbv zeta
  | |- paired _ _ _ _ _ _ _ => unfold_loco
  end.

Ltac paired_all := repeat paired_step.

Section Frame.
Variables D1 D2 : gset string.
Variable orig : gmap string Bone.
Hypothesis HD : D1 ⊆ D2.
Hypothesis Hroot : "spine_base" ∈ D1.

(** The state machine and the pose of the state, side by side. *)
Lemma paired_transition (rand : nat -> R) :
  paired D1 D2 orig Before Before (ElephantLocomotion.transition rand)
                                  (ElephantLocomotion.transition rand).
Proof. paired_all. Qed.

Lemma paired_updateIdle (dt : R) :
  paired D1 D2 orig Before Before
    (ElephantLocomotion.updateIdle dt (Some "spine_base"))
    (ElephantLocomotion.updateIdle dt (Some "spine_base")).
Proof. paired_all. Qed.

Lemma paired_updateCurious (dt : R) :
  paired D1 D2 orig Before Before
    (ElephantLocomotion.updateCurious dt (Some "spine_base"))
    (ElephantLocomotion.updateCurious dt (Some "spine_base")).
Proof. paired_all. Qed.

Lemma paired_updateWander (rand : nat -> R) (dt : R) :
  paired D1 D2 orig Before Before
    (ElephantLocomotion.updateWander rand dt (Some "spine_base"))
    (ElephantLocomotion.updateWander rand dt (Some "spine_base")).
Proof. paired_all. Qed.

(** The springs: the trunk block turns the mode from [Before] to [After]. *)
Lemma paired_applySecondaryMotion (dt : R) :
  paired D1 D2 orig Before After (ElephantLocomotion.applySecondaryMotion dt)
                                 (ElephantLocomotion.applySecondaryMotion dt).
Proof.
  unfold ElephantLocomotion.applySecondaryMotion.
  apply paired_withLoco. intros this. cbv zeta.
  eapply paired_seq; [|paired_all].
  eapply paired_seq;
    [apply paired_arm; intros l; cbn [angle trunk _spring withSpring]; reflexivity|].
  do 5 apply paired_letBone.
  eapply paired_seq; [paired_step|].
  eapply paired_seq; [by apply paired_trunkMid1|].
  paired_all.
Qed.

(** The frame of [update] once the root bone and the mesh are found. *)
Lemma paired_update (rand : nat -> R) (dt : R) (u1 u2 : World) :
  sideBySide D1 D2 orig Before u1 u2 -> is_Some (mesh u1) ->
  exists v1 v2, ElephantLocomotion.update rand dt u1 = Ok v1
    /\ ElephantLocomotion.update rand dt u2 = Ok v2
    /\ sideBySide D1 D2 orig After v1 v2.
Proof.
  intros S [p Hp].
  assert (Hp2 : mesh u2 = Some p).
  { destruct S as (Hr & _). unfold rest in Hr. congruence. }
  pose proof S as (_ & S2 & S3 & _).
  destruct (present_in D1 u1 "spine_base" S2 Hroot) as [r1 Hr1].
  destruct (present_in D2 u2 "spine_base" S3) as [r2 Hr2]; [set_solver|].
  unfold ElephantLocomotion.update, letBone, withMesh. rewrite Hr1, Hr2, Hp, Hp2.
  match goal with
  | |- exists _ _, ?a u1 = _ /\ _ =>
      cut (paired D1 D2 orig Before After a a); [intros C; exact (C u1 u2 S)|]
  end.
  do 3 (eapply paired_seq; [paired_all|]).
  eapply paired_seq; [|apply paired_applySecondaryMotion].
  apply paired_withLoco. intros this.
  destruct (state this);
    [apply paired_updateIdle|apply paired_updateWander|apply paired_updateCurious].
Qed.
End Frame.

(** Without the mesh [update(dt)] returns at its first line. *)
Lemma update_without_mesh (rand : nat -> R) (dt : R) (w : World) :
  mesh w = None -> ElephantLocomotion.update rand dt w = Ok w.
Proof.
  intros H. unfold ElephantLocomotion.update, letBone, withMesh. rewrite H.
  by destruct (bones w !! "spine_base").
Qed.

(** The bones at the end of a frame run on a skeleton and on a skeleton
    with more bones. *)
Lemma update_beside_more_bones (rand : nat -> R) (dt : R) (w1 w2 w1' w2' : World) :
  rest w1 = rest w2 -> bones w1 ⊆ bones w2 ->
  is_Some (bones w1 !! "spine_base") -> is_Some (mesh w1) ->
  ElephantLocomotion.update rand dt w1 = Ok w1' ->
  ElephantLocomotion.update rand dt w2 = Ok w2' ->
  forall name b1, bones w1 !! name = Some b1 ->
    (poseCancelled w1 w2 name -> bones w1' !! name = Some b1)
    /\ (springRedirected w1 w2 name ->
        bones w1' !! name
        = addRotY (angle (trunk (_spring (locomotion w1'))) * 0.5) <$> bones w2' !! name)
    /\ (~ poseCancelled w1 w2 name -> ~ springRedirected w1 w2 name ->
        bones w1' !! name = bones w2' !! name).
Proof.
  intros Hr Hsub Hroot Hmesh E1 E2 name b1 Hb.
  assert (HD : dom (bones w1) ⊆ dom (bones w2)) by by apply subseteq_dom.
  assert (S : sideBySide (dom (bones w1)) (dom (bones w2)) (bones w1) Before w1 w2).
  { unfold sideBySide. split_all; try done.
    intros n b Hn. split; [done|]. intros _. by eapply lookup_weaken. }
  destruct (paired_update _ _ (bones w1) HD (proj2 (elem_of_dom _ _) Hroot) rand dt
              w1 w2 S Hmesh) as (v1 & v2 & F1 & F2 & S').
  rewrite E1 in F1. rewrite E2 in F2. injection F1 as <-. injection F2 as <-.
  destruct S' as (_ & T2 & _ & _ & T5).
  destruct (present_in _ w1' name T2) as [b1' Hb'];
    [apply elem_of_dom; eauto|].
  destruct (T5 name b1' Hb') as [Hc Hn].
  unfold poseCancelled, springRedirected. split_all.
  - intros C. specialize (Hc C). congruence.
  - intros Rd. destruct Hn as [Hn _].
    { destruct Rd as (-> & _). by apply not_cancelled. }
    destruct (Hn Rd) as (b2 & -> & ->). by rewrite Hb'.
  - intros C Rd. destruct (Hn C) as [_ Hn']. by rewrite Hb', (Hn' Rd).
Qed.

(** C9 (as the code has it).  Take two elephants that differ in their bones
    only.  [update(dt)] returns on both without throwing and keeps the names
    of the bones.  When the root bone [spine_base] or the mesh is missing the
    update is skipped as a whole and the elephant is left as it was.  When
    both have the root bone, the state machine, the gait, the springs, the
    mesh and the random draws come out the same on both.  When moreover the
    first elephant has some of the bones of the second and the mesh is
    there, a bone of the first ends the frame as the same bone of the second
    does, with two exceptions: a leg bone whose partner (upper or lower bone
    of the same leg) is missing is not posed at all and stays as it was; and
    [trunk_mid], when [trunk_mid1] is missing, takes the share of
    [trunk_mid1] in the trunk spring, half the spring angle, on top of its
    own pose. *)
Theorem update_tolerates_missing_bones (rand : nat -> R) (dt : R) (w1 w2 : World) :
  rest w1 = rest w2 ->
  exists w1' w2', ElephantLocomotion.update rand dt w1 = Ok w1'
    /\ ElephantLocomotion.update rand dt w2 = Ok w2'
    /\ dom (bones w1') = dom (bones w1)
    /\ dom (bones w2') = dom (bones w2)
    /\ (is_Some (bones w1 !! "spine_base") -> is_Some (bones w2 !! "spine_base") ->
        rest w1' = rest w2')
    /\ (bones w1 !! "spine_base" = None -> w1' = w1)
    /\ (bones w2 !! "spine_base" = None -> w2' = w2)
    /\ (mesh w1 = None -> w1' = w1 /\ w2' = w2)
    /\ (bones w1 ⊆ bones w2 -> is_Some (bones w1 !! "spine_base") ->
        is_Some (mesh w1) ->
        forall name b1, bones w1 !! name = Some b1 ->
          (poseCancelled w1 w2 name -> bones w1' !! name = Some b1)
          /\ (springRedirected w1 w2 name ->
              bones w1' !! name
              = addRotY (angle (trunk (_spring (locomotion w1'))) * 0.5)
                  <$> bones w2' !! name)
          /\ (~ poseCancelled w1 w2 name -> ~ springRedirected w1 w2 name ->
              bones w1' !! name = bones w2' !! name)).
Proof.
  intros Hr.
  destruct (update_never_throws rand dt w1) as (w1' & E1 & D1).
  destruct (update_never_throws rand dt w2) as (w2' & E2 & D2).
  exists w1', w2'. split_all; try assumption.
  - intros I1 I2.
    destruct (update_ignores_optional_bones rand dt w1 w2 Hr I1 I2)
      as (u1 & u2 & F1 & F2 & Hu).
    congruence.
  - intros N. rewrite (update_without_root rand dt w1 N) in E1. congruence.
  - intros N. rewrite (update_without_root rand dt w2 N) in E2. congruence.
  - intros N. assert (N2 : mesh w2 = None) by (unfold rest in Hr; congruence).
    rewrite (update_without_mesh rand dt w1 N) in E1.
    rewrite (update_without_mesh rand dt w2 N2) in E2. split; congruence.
  - intros Hsub Hroot Hmesh.
    exact (update_beside_more_bones rand dt w1 w2 w1' w2' Hr Hsub Hroot Hmesh E1 E2).
Qed.

(** A wandering elephant with the upper bone of a leg and no lower bone,
    against the same elephant with both, one frame of 16 ms: the rest of the
    world comes out the same, and the upper bone of the first is left
    unposed. *)
Lemma update_tolerates_missing_bones_witness :
  exists w1' w2',
    ElephantLocomotion.update (fun _ => 0.5) 0.016 upperLegWorld = Ok w1'
    /\ ElephantLocomotion.update (fun _ => 0.5) 0.016 wholeLegWorld = Ok w2'
    /\ rest w1' = rest w2'
    /\ bones w1' !! "back_left_upper_leg" = Some restBone.
Proof.
  assert (Hr0 : rest upperLegWorld = rest wholeLegWorld) by reflexivity.
  destruct (update_tolerates_missing_bones (fun _ => 0.5) 0.016 upperLegWorld
              wholeLegWorld Hr0)
    as (w1' & w2' & E1 & E2 & _ & _ & Hr & _ & _ & _ & Hb).
  assert (R1 : is_Some (bones upperLegWorld !! "spine_base")).
  { eexists. cbn [bones upperLegWorld]. rewrite lookup_insert_ne by done.
    apply lookup_singleton_eq. }
  assert (R2 : is_Some (bones wholeLegWorld !! "spine_base")).
  { eexists. cbn [bones wholeLegWorld]. rewrite !lookup_insert_ne by done.
    apply lookup_singleton_eq. }
  assert (N1 : bones upperLegWorld !! "back_left_lower_leg" = None).
  { cbn [bones upperLegWorld]. rewrite lookup_insert_ne by done.
    by apply lookup_singleton_ne. }
  exists w1', w2'. split; [exact E1|]. split; [exact E2|]. split; [by apply Hr|].
  destruct (Hb (insert_subseteq _ _ _ N1) R1 (mk_is_Some _ _ eq_refl)
              "back_left_upper_leg" restBone) as (Hc & _).
  - cbn [bones upperLegWorld]. apply lookup_insert_eq.
  - apply Hc. exists "back_left_lower_leg". split; [reflexivity|]. split.
    + by apply not_elem_of_dom.
    + apply elem_of_dom. eexists. cbn [bones wholeLegWorld]. apply lookup_insert_eq.
Defined.

(** A head without the root bone: the dwell timer has run out, and
    [update(dt)] leaves the world as it was, state machine and springs
    included. *)
Lemma update_skipped_without_root :
  bones headWorld !! "spine_base" = None
  /\ is_Some (bones headWorld !! "head")
  /\ _stateTimer (locomotion headWorld) - 0.016 <= 0
  /\ ElephantLocomotion.update (fun _ => 0.5) 0.016 headWorld = Ok headWorld.
Proof.
  assert (N : bones headWorld !! "spine_base" = None).
  { cbn [bones headWorld]. by apply lookup_singleton_ne. }
  split; [exact N|]. split.
  - eexists. cbn [bones headWorld]. apply lookup_singleton_eq.
  - split; [cbn; lra|]. by apply update_without_root.
Qed.

(** * Further properties of the sources *)

(** ** Vector algebra *)

Lemma lengthSq_nonneg (a : Vector3) : 0 <= V3.lengthSq a.
Proof. unfold V3.lengthSq. nra. Qed.

Lemma lengthSq_zero (a : Vector3) : V3.lengthSq a = 0 -> a = zeroV.
Proof.
  destruct a as [x y z]. unfold V3.lengthSq, zeroV. cbn [vx vy vz]. intros H.
  assert (x = 0) by nra. assert (y = 0) by nra. assert (z = 0) by nra.
  by subst.
Qed.

Lemma length_pos (a : Vector3) : a <> zeroV -> 0 < V3.length a.
Proof.
  intros Ha. unfold V3.length. apply sqrt_lt_R0.
  pose proof (lengthSq_nonneg a) as H.
  destruct (Req_dec (V3.lengthSq a) 0) as [E|NE]; [|lra].
  exfalso. apply Ha. by apply lengthSq_zero.
Qed.

Lemma length_sqr (a : Vector3) : V3.length a * V3.length a = V3.lengthSq a.
Proof. unfold V3.length. apply sqrt_sqrt, lengthSq_nonneg. Qed.

Lemma normalize_zero : V3.normalize zeroV = zeroV.
Proof.
  unfold V3.normalize, V3.length, V3.lengthSq, zeroV. cbn [vx vy vz].
  replace (0 * 0 + 0 * 0 + 0 * 0) with 0 by ring. rewrite sqrt_0.
  destruct (Req_dec_T 0 0) as [_|N]; [|contradiction]. f_equal; field.
Qed.

(** [normalize] divides by the length of a vector that is not zero. *)
Lemma normalize_nonzero (a : Vector3) :
  a <> zeroV ->
  V3.normalize a = mkV3 (vx a / V3.length a) (vy a / V3.length a) (vz a / V3.length a).
Proof.
  intros Ha. pose proof (length_pos a Ha) as Hl. unfold V3.normalize.
  destruct (Req_dec_T (V3.length a) 0) as [E|_]; [lra|]. reflexivity.
Qed.

Lemma lengthSq_normalize (a : Vector3) : a <> zeroV -> V3.lengthSq (V3.normalize a) = 1.
Proof.
  intros Ha. rewrite normalize_nonzero by exact Ha.
  pose proof (length_pos a Ha) as Hl. pose proof (length_sqr a) as Hs.
  unfold V3.lengthSq in *. cbn [vx vy vz].
  set (l := V3.length a) in *. clearbody l.
  replace (vx a / l * (vx a / l) + vy a / l * (vy a / l) + vz a / l * (vz a / l))
    with ((vx a * vx a + vy a * vy a + vz a * vz a) / (l * l)) by (field; lra).
  rewrite <- Hs. field. lra.
Qed.

Lemma dot_normalize_zero (a b : Vector3) :
  V3.dot a b = 0 -> V3.dot (V3.normalize a) b = 0.
Proof.
  intros H. unfold V3.normalize.
  set (l := if Req_dec_T (V3.length a) 0 then 1 else V3.length a).
  assert (Hl : l <> 0).
  { subst l. destruct (Req_dec_T (V3.length a) 0) as [E|NE]; [lra|exact NE]. }
  unfold V3.dot in *. cbn [vx vy vz].
  replace (vx a / l * vx b + vy a / l * vy b + vz a / l * vz b)
    with ((vx a * vx b + vy a * vy b + vz a * vz b) / l) by (field; exact Hl).
  rewrite H. field. exact Hl.
Qed.

Lemma dot_comm (a b : Vector3) : V3.dot a b = V3.dot b a.
Proof. unfold V3.dot. ring. Qed.

Lemma cross_dot_left (a b : Vector3) : V3.dot (V3.crossVectors a b) a = 0.
Proof. unfold V3.dot, V3.crossVectors. cbn [vx vy vz]. ring. Qed.

Lemma cross_dot_right (a b : Vector3) : V3.dot (V3.crossVectors a b) b = 0.
Proof. unfold V3.dot, V3.crossVectors. cbn [vx vy vz]. ring. Qed.

(** Lagrange's identity. *)
Lemma lengthSq_cross (a b : Vector3) :
  V3.lengthSq (V3.crossVectors a b)
  = V3.lengthSq a * V3.lengthSq b - V3.dot a b * V3.dot a b.
Proof. unfold V3.lengthSq, V3.dot, V3.crossVectors. cbn [vx vy vz]. ring. Qed.

Lemma cross_zero_left (b : Vector3) : V3.crossVectors zeroV b = zeroV.
Proof. unfold V3.crossVectors, zeroV. cbn [vx vy vz]. f_equal; ring. Qed.

(** ** createRing *)

(** The vertex of a ring in an orthonormal frame [(t, b)]. *)
Lemma ring_vertex_on_circle (t b center : Vector3) (c s radius : R) :
  V3.lengthSq t = 1 -> V3.lengthSq b = 1 -> V3.dot b t = 0 ->
  c * c + s * s = 1 ->
  V3.lengthSq
    (V3.sub (V3.add (V3.addScaledVector (V3.multiplyScalar t (c * radius)) b (s * radius))
                    center) center)
  = radius * radius.
Proof.
  intros Ht Hb Hbt Hcs.
  unfold V3.lengthSq, V3.dot, V3.sub, V3.add, V3.addScaledVector, V3.multiplyScalar in *.
  cbn [vx vy vz] in *.
  transitivity
    (radius * radius
     * (c * c * (vx t * vx t + vy t * vy t + vz t * vz t)
        + s * s * (vx b * vx b + vy b * vy b + vz b * vz b)
        + 2 * c * s * (vx b * vx t + vy b * vy t + vz b * vz t))); [ring|].
  rewrite Ht, Hb, Hbt. replace (c * c * 1 + s * s * 1 + 2 * c * s * 0) with (c * c + s * s) by ring.
  rewrite Hcs. ring.
Qed.

Lemma ring_vertex_dot (t b center axis : Vector3) (c s radius : R) :
  V3.dot
    (V3.sub (V3.add (V3.addScaledVector (V3.multiplyScalar t (c * radius)) b (s * radius))
                    center) center) axis
  = c * radius * V3.dot t axis + s * radius * V3.dot b axis.
Proof.
  unfold V3.dot, V3.sub, V3.add, V3.addScaledVector, V3.multiplyScalar.
  cbn [vx vy vz]. ring.
Qed.

Lemma cos_sin_unit (x : R) : cos x * cos x + sin x * sin x = 1.
Proof. pose proof (sin2_cos2 x) as H. unfold Rsqr in H. lra. Qed.

Lemma createRing_nth (center axis : Vector3) (radius : R) (sides : nat) (up : Vector3)
    (i : nat) :
  (i < sides)%nat ->
  nth i (createRing center axis radius sides up) zeroV
  = let tangent0 := V3.normalize (V3.crossVectors axis up) in
    let tangent :=
      if Rlt_dec (V3.lengthSq tangent0) 1e-6 then mkV3 1 0 0 else tangent0 in
    let bitangent := V3.normalize (V3.crossVectors axis tangent) in
    let theta := INR i / INR sides * PI * 2 in
    V3.add (V3.addScaledVector (V3.multiplyScalar tangent (cos theta * radius))
                               bitangent (sin theta * radius)) center.
Proof. intros Hi. unfold createRing. cbv zeta. by rewrite nth_map_seq. Qed.

(** The frame of a ring whose axis is not parallel to [up]. *)
Lemma ring_frame (axis up : Vector3) :
  V3.crossVectors axis up <> zeroV ->
  let t := V3.normalize (V3.crossVectors axis up) in
  let b := V3.normalize (V3.crossVectors axis t) in
  V3.lengthSq t = 1 /\ V3.lengthSq b = 1 /\ V3.dot b t = 0
  /\ V3.dot t axis = 0 /\ V3.dot b axis = 0.
Proof.
  intros Hc t b.
  assert (Ht : V3.lengthSq t = 1) by (by apply lengthSq_normalize).
  assert (Hta : V3.dot t axis = 0) by (apply dot_normalize_zero, cross_dot_left).
  assert (Hax : axis <> zeroV).
  { intros E. apply Hc. rewrite E. apply cross_zero_left. }
  assert (Hc2 : V3.crossVectors axis t <> zeroV).
  { intros E.
    pose proof (lengthSq_cross axis t) as HL. rewrite E, Ht in HL.
    rewrite (dot_comm axis t), Hta in HL.
    assert (HZ : V3.lengthSq axis = 0).
    { unfold V3.lengthSq at 1 in HL. unfold zeroV in HL. cbn [vx vy vz] in HL. lra. }
    apply Hax. by apply lengthSq_zero. }
  split; [exact Ht|]. split; [by apply lengthSq_normalize|].
  split; [apply dot_normalize_zero, cross_dot_right|].
  split; [exact Hta|]. apply dot_normalize_zero, cross_dot_left.
Qed.

(** X1.  When [axis] is not parallel to [up], the vertices of
    [createRing(center, axis, radius, sides, up)] lie on the circle of
    radius [|radius|] around [center] in the plane perpendicular to
    [axis]. *)
Theorem createRing_on_circle (center axis : Vector3) (radius : R) (sides : nat)
    (up : Vector3) (i : nat) :
  V3.crossVectors axis up <> zeroV ->
  (i < sides)%nat ->
  let v := nth i (createRing center axis radius sides up) zeroV in
  V3.distanceTo v center = Rabs radius
  /\ V3.dot (V3.sub v center) axis = 0.
Proof.
  intros Hc Hi v. subst v. rewrite createRing_nth by exact Hi. cbv zeta.
  destruct (ring_frame axis up Hc) as (Ht & Hb & Hbt & Hta & Hba).
  destruct (Rlt_dec (V3.lengthSq (V3.normalize (V3.crossVectors axis up))) 1e-6)
    as [Hlt|_]; [rewrite Ht in Hlt; lra|].
  split.
  - unfold V3.distanceTo, V3.length.
    rewrite ring_vertex_on_circle by (assumption || apply cos_sin_unit).
    apply sqrt_Rsqr_abs.
  - rewrite ring_vertex_dot, Hta, Hba. ring.
Qed.

Lemma createRing_on_circle_witness :
  V3.distanceTo (nth 1 (createRing (mkV3 0 0 0) (mkV3 0 0 1) 2 4 defaultUp) zeroV)
                (mkV3 0 0 0) = Rabs 2.
Proof.
  apply (createRing_on_circle (mkV3 0 0 0) (mkV3 0 0 1) 2 4 defaultUp 1).
  - unfold V3.crossVectors, defaultUp, zeroV. cbn [vx vy vz]. intros E.
    injection E as E _ _. lra.
  - lia.
Defined.

Lemma lengthSq_zeroV : V3.lengthSq zeroV = 0.
Proof. unfold V3.lengthSq, zeroV. cbn [vx vy vz]. ring. Qed.

(** The frame of a ring whose axis is parallel to the default [up]: the
    tangent falls back to the x axis. *)
Lemma ring_frame_vertical (axis : Vector3) :
  axis <> zeroV -> V3.crossVectors axis defaultUp = zeroV ->
  let t := mkV3 1 0 0 in
  let b := V3.normalize (V3.crossVectors axis t) in
  V3.lengthSq t = 1 /\ V3.lengthSq b = 1 /\ V3.dot b t = 0
  /\ V3.dot t axis = 0 /\ V3.dot b axis = 0.
Proof.
  intros Hax Hc t b. destruct axis as [ax ay az].
  unfold V3.crossVectors, defaultUp, zeroV in Hc. cbn [vx vy vz] in Hc.
  injection Hc as H1 _ H3.
  assert (Ex : ax = 0) by lra. assert (Ez : az = 0) by lra. subst ax az.
  assert (Hy : ay <> 0).
  { intros E. apply Hax. unfold zeroV. by rewrite E. }
  assert (Hc2 : V3.crossVectors (mkV3 0 ay 0) t <> zeroV).
  { unfold V3.crossVectors, zeroV, t. cbn [vx vy vz]. intros E.
    injection E as _ _ E. lra. }
  split; [unfold V3.lengthSq, t; cbn [vx vy vz]; ring|].
  split; [by apply lengthSq_normalize|].
  split; [apply dot_normalize_zero, cross_dot_right|].
  split; [unfold V3.dot, t; cbn [vx vy vz]; ring|].
  apply dot_normalize_zero, cross_dot_left.
Qed.

(** X2.  With the default [up], as the tail, limb and torso generators
    call it, [createRing] lays its vertices on the circle of radius
    [|radius|] around [center] perpendicular to [axis] for every axis that
    is not the zero vector, the axes parallel to [up] included. *)
Theorem createRing_default_up (center axis : Vector3) (radius : R) (sides i : nat) :
  axis <> zeroV ->
  (i < sides)%nat ->
  let v := nth i (createRing center axis radius sides defaultUp) zeroV in
  V3.distanceTo v center = Rabs radius
  /\ V3.dot (V3.sub v center) axis = 0.
Proof.
  intros Hax Hi v. subst v. rewrite createRing_nth by exact Hi. cbv zeta.
  assert (HF : exists t b,
    (if Rlt_dec (V3.lengthSq (V3.normalize (V3.crossVectors axis defaultUp))) 1e-6
     then mkV3 1 0 0 else V3.normalize (V3.crossVectors axis defaultUp)) = t
    /\ V3.normalize (V3.crossVectors axis t) = b
    /\ V3.lengthSq t = 1 /\ V3.lengthSq b = 1 /\ V3.dot b t = 0
    /\ V3.dot t axis = 0 /\ V3.dot b axis = 0).
  { destruct (Req_dec_T (V3.lengthSq (V3.crossVectors axis defaultUp)) 0) as [E|NE].
    - apply lengthSq_zero in E.
      destruct (ring_frame_vertical axis Hax E) as (Ht & Hb & Hbt & Hta & Hba).
      rewrite E, normalize_zero, lengthSq_zeroV.
      destruct (Rlt_dec 0 1e-6) as [_|N]; [|lra].
      eexists _, _. repeat split; eassumption.
    - assert (Hc : V3.crossVectors axis defaultUp <> zeroV).
      { intros E. apply NE. rewrite E. apply lengthSq_zeroV. }
      destruct (ring_frame axis defaultUp Hc) as (Ht & Hb & Hbt & Hta & Hba).
      destruct (Rlt_dec (V3.lengthSq (V3.normalize (V3.crossVectors axis defaultUp))) 1e-6)
        as [Hlt|_]; [rewrite Ht in Hlt; lra|].
      eexists _, _. repeat split; eassumption. }
  destruct HF as (t & b & -> & -> & Ht & Hb & Hbt & Hta & Hba).
  split.
  - unfold V3.distanceTo, V3.length.
    rewrite ring_vertex_on_circle by (assumption || apply cos_sin_unit).
    apply sqrt_Rsqr_abs.
  - rewrite ring_vertex_dot, Hta, Hba. ring.
Qed.

Lemma createRing_default_up_witness :
  V3.dot (V3.sub (nth 0 (createRing (mkV3 0 0 0) (mkV3 0 1 0) 1 3 defaultUp) zeroV)
                 (mkV3 0 0 0)) (mkV3 0 1 0) = 0.
Proof.
  apply (createRing_default_up (mkV3 0 0 0) (mkV3 0 1 0) 1 3 0).
  - unfold zeroV. intros E. injection E as E. lra.
  - lia.
Defined.

(** X3.  A zero axis, which a generator passes when two consecutive
    bones of a chain share their position, collapses the ring: whatever
    [up] is, the tangent falls back to the x axis, the bitangent is zero,
    and vertex [i] is [center + (cos theta_i * radius, 0, 0)]. *)
Theorem createRing_zero_axis (center : Vector3) (radius : R) (sides : nat) (up : Vector3) :
  createRing center zeroV radius sides up
  = map (fun i : nat =>
           mkV3 (vx center + cos (INR i / INR sides * PI * 2) * radius)
                (vy center) (vz center))
        (seq 0 sides).
Proof.
  unfold createRing. rewrite !cross_zero_left, normalize_zero, lengthSq_zeroV.
  destruct (Rlt_dec 0 1e-6) as [_|N]; [|lra].
  apply map_ext. intros i.
  unfold V3.add, V3.addScaledVector, V3.multiplyScalar, zeroV. cbn [vx vy vz].
  f_equal; ring.
Qed.

(** ** bridgeRings *)

(** X4.  [bridgeRings] keeps what [indices] held and pushes [6 * sides]
    indices behind it: for every segment [j], with [k = (j + 1) mod sides],
    the triangles [(A_j, B_j, A_k)] and [(A_k, B_j, B_k)], so that every
    vertex of both rings is a corner of a pushed triangle.  With
    [sides = 0] nothing is pushed. *)
Theorem bridgeRings_pushes (ringA ringB sides : nat) (indices : list nat) :
  let pushed := bridgeRings ringA ringB sides [] in
  bridgeRings ringA ringB sides indices = indices ++ pushed
  /\ length pushed = (6 * sides)%nat
  /\ (forall j, (j < sides)%nat ->
        let k := ((j + 1) mod sides)%nat in
        triangles pushed !! (2 * j)%nat
          = Some ((ringA + j)%nat, (ringB + j)%nat, (ringA + k)%nat)
        /\ triangles pushed !! (2 * j + 1)%nat
          = Some ((ringA + k)%nat, (ringB + j)%nat, (ringB + k)%nat))
  /\ (forall j, (j < sides)%nat ->
        (exists t, t ∈ triangles pushed /\ inTriangle (ringA + j)%nat t)
        /\ (exists t, t ∈ triangles pushed /\ inTriangle (ringB + j)%nat t)).
Proof.
  intros pushed.
  assert (Hts : forall j, (j < sides)%nat ->
        let k := ((j + 1) mod sides)%nat in
        triangles pushed !! (2 * j)%nat
          = Some ((ringA + j)%nat, (ringB + j)%nat, (ringA + k)%nat)
        /\ triangles pushed !! (2 * j + 1)%nat
          = Some ((ringA + k)%nat, (ringB + j)%nat, (ringB + k)%nat)).
  { subst pushed. rewrite bridgeRings_triangles. intros j Hj.
    apply (quadTriangles_lookup ringA ringB sides sides 0%nat j Hj). }
  split; [|split; [|split]].
  - subst pushed. by rewrite !bridgeRings_unfold.
  - subst pushed. rewrite bridgeRings_length. simpl. lia.
  - exact Hts.
  - intros j Hj. destruct (Hts j Hj) as [E1 _].
    split; eexists; (split; [eapply list_elem_of_lookup_2, E1 |]).
    + left. reflexivity.
    + right. left. reflexivity.
Qed.

Lemma quadTriangles_proper (ringA ringB sides j : nat) :
  (2 <= sides)%nat -> (ringA + sides <= ringB)%nat -> (j < sides)%nat ->
  Forall properTriangle (quadTriangles ringA ringB sides j).
Proof.
  intros Hs Hd Hj. unfold quadTriangles. cbv zeta.
  assert (Hk : ((j + 1) mod sides < sides)%nat) by (apply Nat.mod_upper_bound; lia).
  assert (Hjk : ((j + 1) mod sides <> j)%nat).
  { destruct (decide (j + 1 < sides)%nat) as [Hlt|Hge].
    - rewrite Nat.mod_small by lia. lia.
    - replace (j + 1)%nat with sides by lia. rewrite Nat.Div0.mod_same. lia. }
  repeat constructor; cbn [fst snd]; lia.
Qed.

(** X5.  Over two rings that do not overlap ([ringA + sides <= ringB]),
    every triangle [bridgeRings] pushes has three different corners, except
    for [sides = 1], where both triangles of the only segment are
    degenerate. *)
Theorem bridgeRings_proper_triangles (ringA ringB sides : nat) :
  (ringA + sides <= ringB)%nat ->
  (Forall properTriangle (triangles (bridgeRings ringA ringB sides [])) <-> sides <> 1%nat).
Proof.
  intros Hd. rewrite bridgeRings_triangles. split.
  - intros H ->. simpl in H. inversion H as [|t l (_ & _ & Hac) _]; subst.
    cbn [fst snd] in Hac. lia.
  - intros Hs. apply Forall_flat_map. intros j Hj.
    apply elem_of_seq in Hj.
    apply quadTriangles_proper; lia.
Qed.

Lemma bridgeRings_proper_triangles_witness :
  Forall properTriangle (triangles (bridgeRings 0 4 4 [])) <-> 4%nat <> 1%nat.
Proof. apply (bridgeRings_proper_triangles 0 4 4). lia. Defined.

(** ** buildBufferGeometry *)

Ltac in_list := repeat first [ apply list_elem_of_here | apply list_elem_of_further ].

(** With a vertex to store, every array is filled and all five attributes
    are set. *)
Lemma buildBufferGeometry_filled (v : Vertex) (vs : list Vertex) (indices : list nat) :
  let verts := v :: vs in
  attributes (buildBufferGeometry verts indices)
  = <["uv" := mkAttr (Float32Array (flat_map (fun v => [(vUv v).1; (vUv v).2]) verts)) 2]>
     (<["skinWeight" := mkAttr (Float32Array (flat_map weightItems verts)) 4]>
       (<["skinIndex" := mkAttr (uint16Array (flat_map indexItems verts)) 4]>
         (<["normal" := mkAttr (Float32Array (flatten3 (map vNormal verts))) 3]>
           (<["position" := mkAttr (Float32Array (flatten3 (map vPosition verts))) 3]> ∅)))).
Proof.
  intros verts. unfold buildBufferGeometry. cbn [attributes].
  repeat match goal with
  | |- context [decide (BG.arrayLength ?a = 0%nat)] =>
      destruct (decide (BG.arrayLength a = 0%nat)) as [E|_];
      [exfalso; subst verts; cbn in E;
       repeat match type of E with
              | context [match ?x with _ => _ end] => destruct x
              end; cbn in E; lia |]
  end.
  reflexivity.
Qed.

(** X6.  [buildBufferGeometry] sets an attribute only for an array that
    is not empty: without vertices the geometry has no attribute at all,
    and with vertices it has the five attributes [position], [normal],
    [skinIndex], [skinWeight] and [uv], each holding one item per vertex.
    The index is set exactly when [indices] is not empty. *)
Theorem buildBufferGeometry_shape (verts : list Vertex) (indices : list nat) :
  let g := buildBufferGeometry verts indices in
  (verts = [] -> attributes g = ∅)
  /\ (verts <> [] ->
      forall name, name ∈ attributeNames ->
        exists a, attributes g !! name = Some a /\ BG.count a = length verts)
  /\ (forall name, name ∉ attributeNames -> attributes g !! name = None)
  /\ BG.vertexCount g = length verts
  /\ (index g = None <-> indices = [])
  /\ (indices <> [] -> index g = Some indices).
Proof.
  intros g.
  assert (Hidx : (index g = None <-> indices = [])
                 /\ (indices <> [] -> index g = Some indices)).
  { subst g. unfold buildBufferGeometry. cbn [index].
    destruct indices as [|i is']; simpl; split; try done. }
  destruct verts as [|v vs].
  - assert (HE : attributes g = ∅) by reflexivity.
    split; [done|]. split; [done|].
    split; [intros; rewrite HE; apply lookup_empty|].
    split; [|exact Hidx]. unfold BG.vertexCount. rewrite HE. by rewrite lookup_empty.
  - pose proof (buildBufferGeometry_filled v vs indices) as HF. cbv zeta in HF.
    fold g in HF.
    assert (HA : forall name, name ∈ attributeNames ->
        exists a, attributes g !! name = Some a /\ BG.count a = length (v :: vs)).
    { intros name Hn. rewrite HF. unfold attributeNames in Hn.
      repeat (apply elem_of_cons in Hn as [->|Hn]);
        [..|by apply elem_of_nil in Hn].
      all: eexists; split;
        [ repeat first [ apply lookup_insert_eq
                       | rewrite lookup_insert_ne by done ] | ].
      all: unfold BG.count, uint16Array; cbn [array itemSize BG.arrayLength];
        rewrite ?length_map.
      + rewrite flatten3_length, ?length_map. apply div3_exact.
      + rewrite flatten3_length, ?length_map. apply div3_exact.
      + rewrite (length_flat_map_const _ 4%nat) by apply indexItems_length.
        rewrite Nat.mul_comm. apply Nat.div_mul. lia.
      + rewrite (length_flat_map_const _ 4%nat) by apply weightItems_length.
        rewrite Nat.mul_comm. apply Nat.div_mul. lia.
      + rewrite (length_flat_map_const _ 2%nat) by reflexivity.
        rewrite Nat.mul_comm. apply Nat.div_mul. lia. }
    split; [done|]. split; [intros _; exact HA|].
    split; [|split; [|exact Hidx]].
    + intros name Hn. rewrite HF. unfold attributeNames in Hn.
      repeat (rewrite lookup_insert_ne
                by (intros E; apply Hn; rewrite <- E; in_list)).
      apply lookup_empty.
    + destruct (HA "position") as (a & Ea & Ca); [unfold attributeNames; in_list|].
      unfold BG.vertexCount. by rewrite Ea.
Qed.

(** ** The bone index of the generators *)

Section BoneIndex.
Local Open Scope nat_scope.

Lemma boneIndex_fold (l : list SkelBone) (s : nat) (acc : gmap string nat)
    (name : string) (idx : nat) :
  fold_left (fun m (ib : nat * SkelBone) => <[boneName ib.2 := ib.1]> m)
            (combine (seq s (length l)) l) acc !! name = Some idx ->
  (acc !! name = Some idx /\ name ∉ boneNames l)
  \/ (s <= idx /\ exists b, l !! (idx - s) = Some b /\ boneName b = name
      /\ forall j b', l !! j = Some b' -> boneName b' = name -> s + j <= idx).
Proof.
  revert s acc. induction l as [|b0 l IH]; intros s acc H; simpl in H.
  - left. split; [exact H|]. unfold boneNames. simpl. apply not_elem_of_nil.
  - apply IH in H as [[H Hn]|(Hs & b & Hb & Hname & Hlast)].
    + destruct (decide (boneName b0 = name)) as [E|NE].
      * rewrite E, lookup_insert_eq in H. injection H as <-.
        right. split; [lia|]. exists b0. rewrite Nat.sub_diag. split; [done|].
        split; [exact E|]. intros [|j] b' Hj Hb'; [lia|].
        exfalso. apply Hn. unfold boneNames. apply list_elem_of_fmap.
        exists b'. split; [done|]. by eapply list_elem_of_lookup_2.
      * rewrite lookup_insert_ne in H by exact NE. left. split; [exact H|].
        unfold boneNames in *. simpl. rewrite not_elem_of_cons. split; [congruence|exact Hn].
    + right. split; [lia|]. exists b. split.
      * replace (idx - s) with (S (idx - S s)) by lia. exact Hb.
      * split; [exact Hname|]. intros [|j] b' Hj Hb'; [lia|].
        specialize (Hlast j b' Hj Hb'). lia.
Qed.

Lemma boneIndex_fold_present (l : list SkelBone) (s : nat) (acc : gmap string nat)
    (name : string) :
  is_Some (acc !! name) \/ name ∈ boneNames l ->
  is_Some (fold_left (fun m (ib : nat * SkelBone) => <[boneName ib.2 := ib.1]> m)
                     (combine (seq s (length l)) l) acc !! name).
Proof.
  revert s acc. induction l as [|b0 l IH]; intros s acc H; simpl.
  - destruct H as [H|H]; [exact H|]. by apply elem_of_nil in H.
  - apply IH. destruct H as [H|H].
    + left. destruct (decide (boneName b0 = name)) as [E|NE].
      * rewrite E, lookup_insert_eq. eauto.
      * by rewrite lookup_insert_ne.
    + unfold boneNames in H. simpl in H. apply elem_of_cons in H as [->|H].
      * left. rewrite lookup_insert_eq. eauto.
      * by right.
Qed.

(** The assignments to [__proto__] leave no own property. *)
Lemma setProperty_fold_proto (l : list (nat * SkelBone)) (acc : gmap string nat) :
  fold_left (fun m (ib : nat * SkelBone) => setProperty (boneName ib.2) ib.1 m) l acc
    !! "__proto__" = acc !! "__proto__".
Proof.
  revert acc. induction l as [|ib l IH]; intros acc; simpl; [done|].
  rewrite IH. unfold setProperty. case_decide as E; [done|].
  by rewrite lookup_insert_ne.
Qed.

(** Under any other name the own properties are those of a plain
    dictionary. *)
Lemma setProperty_fold_other (l : list (nat * SkelBone)) (acc acc' : gmap string nat)
    (name : string) :
  name <> "__proto__" -> acc !! name = acc' !! name ->
  fold_left (fun m (ib : nat * SkelBone) => setProperty (boneName ib.2) ib.1 m) l acc
    !! name
  = fold_left (fun m (ib : nat * SkelBone) => <[boneName ib.2 := ib.1]> m) l acc' !! name.
Proof.
  intros Hn. revert acc acc'. induction l as [|ib l IH]; intros acc acc' H; simpl; [done|].
  apply IH. unfold setProperty. case_decide as E.
  - rewrite lookup_insert_ne by congruence. exact H.
  - destruct (decide (boneName ib.2 = name)) as [->|NE].
    + by rewrite !lookup_insert_eq.
    + by rewrite !lookup_insert_ne.
Qed.

Lemma boneIndexMap_proto (bones : list SkelBone) :
  boneIndexMap bones !! "__proto__" = None.
Proof. unfold boneIndexMap. by rewrite setProperty_fold_proto. Qed.

Lemma boneIndexMap_Some (bones : list SkelBone) (name : string) (idx : nat) :
  boneIndexMap bones !! name = Some idx ->
  name <> "__proto__"
  /\ exists b, bones !! idx = Some b /\ boneName b = name
       /\ forall j b', bones !! j = Some b' -> boneName b' = name -> j <= idx.
Proof.
  intros H.
  assert (Hn : name <> "__proto__").
  { intros ->. by rewrite boneIndexMap_proto in H. }
  split; [exact Hn|]. unfold boneIndexMap in H.
  rewrite (setProperty_fold_other _ ∅ ∅ name Hn eq_refl) in H.
  apply boneIndex_fold in H as [[H _]|(_ & b & Hb & Hb' & Hlast)].
  - by rewrite lookup_empty in H.
  - rewrite Nat.sub_0_r in Hb. exists b. split; [exact Hb|]. split; [exact Hb'|].
    intros j b' Hj Hjn. specialize (Hlast j b' Hj Hjn). lia.
Qed.

Lemma boneIndexMap_is_Some (bones : list SkelBone) (name : string) :
  is_Some (boneIndexMap bones !! name)
  <-> name ∈ boneNames bones /\ name <> "__proto__".
Proof.
  split.
  - intros [idx H]. apply boneIndexMap_Some in H as (Hn & b & Hb & Hb' & _).
    split; [|exact Hn].
    unfold boneNames. apply list_elem_of_fmap. exists b. split; [done|].
    by eapply list_elem_of_lookup_2.
  - intros [H Hn]. unfold boneIndexMap.
    rewrite (setProperty_fold_other _ ∅ ∅ name Hn eq_refl).
    apply boneIndex_fold_present. by right.
Qed.

Lemma findBone_Some (name : string) (bones : list SkelBone) (i : nat) (b : SkelBone) :
  findBone name bones = Some (i, b) ->
  bones !! i = Some b /\ boneName b = name
  /\ forall j b', bones !! j = Some b' -> boneName b' = name -> i <= j.
Proof.
  revert i. induction bones as [|b0 l IH]; intros i H; simpl in H; [discriminate|].
  destruct (decide (boneName b0 = name)) as [E|NE].
  - injection H as <- <-. split; [done|]. split; [exact E|]. intros; lia.
  - destruct (findBone name l) as [[i' b']|] eqn:Ef; [|discriminate].
    injection H as <- <-. destruct (IH i' eq_refl) as (Hb & Hn & Hfirst).
    split; [exact Hb|]. split; [exact Hn|].
    intros [|j] b'' Hj Hb''.
    + simpl in Hj. injection Hj as <-. contradiction.
    + specialize (Hfirst j b'' Hj Hb''). lia.
Qed.

Lemma findBone_None (name : string) (bones : list SkelBone) :
  findBone name bones = None <-> name ∉ boneNames bones.
Proof.
  unfold boneNames. induction bones as [|b0 l IH]; simpl.
  - split; [intros _; apply not_elem_of_nil|done].
  - rewrite not_elem_of_cons. destruct (decide (boneName b0 = name)) as [E|NE].
    + split; [discriminate|]. intros [N _]. congruence.
    + destruct (findBone name l) as [[i' b']|] eqn:Ef.
      * split; [discriminate|]. intros [_ N]. by apply IH in N.
      * split; [|done]. intros _. split; [congruence|]. by apply IH.
Qed.
End BoneIndex.

(** With unique names, [boneIndexMap] holds under a name what [find]
    returns for it, but for the name [__proto__]. *)
Lemma boneIndexMap_findBone (bones : list SkelBone) (name : string) :
  NoDup (boneNames bones) -> name <> "__proto__" ->
  boneIndexMap bones !! name = fst <$> findBone name bones.
Proof.
  intros Hnd Hp.
  destruct (findBone name bones) as [[i b]|] eqn:Ef; simpl.
  - apply findBone_Some in Ef as (Hb & Hn & _).
    assert (HS : is_Some (boneIndexMap bones !! name)).
    { apply boneIndexMap_is_Some. split; [|exact Hp].
      unfold boneNames. apply list_elem_of_fmap.
      exists b. split; [done|]. by eapply list_elem_of_lookup_2. }
    destruct HS as [idx Hidx]. rewrite Hidx. f_equal.
    apply boneIndexMap_Some in Hidx as (_ & b' & Hb' & Hn' & _).
    apply (NoDup_lookup (boneNames bones) idx i name Hnd).
    + unfold boneNames. by rewrite list_lookup_fmap, Hb', <- Hn'.
    + unfold boneNames. by rewrite list_lookup_fmap, Hb, <- Hn.
  - apply findBone_None in Ef.
    destruct (boneIndexMap bones !! name) as [idx|] eqn:E; [|done].
    exfalso. apply Ef. apply boneIndexMap_is_Some. eauto.
Qed.

(** X7.  The two ways the generators look a bone up by name,
    [boneIndexMap[name]] (tail, limb, neck, torso) and
    [skeleton.bones.find(b => b.name === name)] (head), compared on a
    skeleton whose names are unique.  For a name that [Object.prototype]
    does not have they agree: the same index, or [undefined] on both sides.
    For a name that [Object.prototype] has, other than [__proto__], they
    agree when the skeleton has such a bone; when it has none, [find]
    returns [undefined] but [boneIndexMap[name]] is the inherited method.
    [boneIndexMap['__proto__']] is never an index, whatever the skeleton.
    An index found in [boneIndexMap] is that of a bone of that name. *)
Theorem bone_lookup_agrees (bones : list SkelBone) (name : string) :
  NoDup (boneNames bones) ->
  (name ∉ objectPrototypeKeys ->
   getProperty (boneIndexMap bones) name
   = match findBone name bones with Some (i, _) => Index i | None => Undefined end)
  /\ (name ∈ objectPrototypeKeys -> name <> "__proto__" ->
      getProperty (boneIndexMap bones) name
      = match findBone name bones with Some (i, _) => Index i | None => Inherited end)
  /\ getProperty (boneIndexMap bones) "__proto__" = Inherited
  /\ (forall idx, getProperty (boneIndexMap bones) name = Index idx ->
        boneName <$> bones !! idx = Some name).
Proof.
  intros Hnd. split; [|split; [|split]].
  - intros Hk. unfold getProperty.
    rewrite boneIndexMap_findBone; [|exact Hnd|].
    + destruct (findBone name bones) as [[i b]|]; simpl; [done|].
      by rewrite decide_False.
    + intros ->. apply Hk. unfold objectPrototypeKeys.
      repeat first [ apply list_elem_of_here | apply list_elem_of_further ].
  - intros Hk Hp. unfold getProperty.
    rewrite boneIndexMap_findBone by done.
    destruct (findBone name bones) as [[i b]|]; simpl; [done|].
    by rewrite decide_True.
  - unfold getProperty. rewrite boneIndexMap_proto.
    rewrite decide_True; [done|]. unfold objectPrototypeKeys.
    repeat first [ apply list_elem_of_here | apply list_elem_of_further ].
  - intros idx H. unfold getProperty in H.
    destruct (boneIndexMap bones !! name) as [i|] eqn:E.
    + injection H as ->. apply boneIndexMap_Some in E as (_ & b & Hb & Hn & _).
      by rewrite Hb, <- Hn.
    + by case_decide.
Qed.

Lemma bone_lookup_agrees_witness :
  getProperty (boneIndexMap twoBones) "tail_base" = Index 1
  /\ getProperty (boneIndexMap twoBones) "constructor" = Inherited.
Proof.
  assert (Hnd : NoDup (boneNames twoBones)).
  { unfold boneNames, twoBones. simpl.
    repeat (apply NoDup_cons; split;
            [rewrite ?elem_of_cons, ?elem_of_nil; intros H;
             repeat destruct H as [H|H]; try discriminate; done|]).
    apply NoDup_nil_2. }
  split.
  - destruct (bone_lookup_agrees twoBones "tail_base" Hnd) as (H & _).
    apply H. unfold objectPrototypeKeys. rewrite !not_elem_of_cons.
    repeat split; try discriminate. apply not_elem_of_nil.
  - destruct (bone_lookup_agrees twoBones "constructor" Hnd) as (_ & H & _).
    apply H; [apply list_elem_of_here|discriminate].
Defined.

(** ** Tubes *)

Section Tubes.
Local Open Scope nat_scope.

Lemma tubeIndices_length (rings sides : nat) (indices : list nat) :
  length (tubeIndices rings sides indices) = length indices + 6 * sides * (rings - 1).
Proof.
  unfold tubeIndices. generalize (rings - 1) as n. intros n.
  induction n as [|n IH].
  - simpl. lia.
  - rewrite fold_left_seq_S, bridgeRings_length, IH. lia.
Qed.

(** X8.  The rings of a tube and their bridging fit together: a chain of
    [n] points gives [n * sides] vertices and, for its [n - 1] segments,
    [6 * sides * (n - 1)] indices, every one of which is the index of a
    vertex of the tube. *)
Theorem tube_indices_valid (points : list Vector3) (radii : list R) (sides : nat)
    (yOffset : R) (mainBone : nat -> nat) :
  let verts := tubeVertices points radii sides yOffset mainBone in
  let indices := tubeIndices (length points) sides [] in
  length verts = length points * sides
  /\ length indices = 6 * sides * (length points - 1)
  /\ Forall (fun i => i < length verts) indices.
Proof.
  intros verts indices. subst verts indices.
  split; [apply tubeVertices_length|].
  split; [by rewrite tubeIndices_length|].
  rewrite tubeVertices_length. apply tubeIndices_range; [lia|constructor].
Qed.

(** What [finishGeometry] returns for vertices and indices that are not
    empty: no index, and one vertex for every entry of [indices]. *)
Lemma finishGeometry_size (verts : list Vertex) (indices : list nat) :
  verts <> [] -> indices <> [] ->
  index (finishGeometry verts indices) = None
  /\ BG.vertexCount (finishGeometry verts indices) = length indices.
Proof.
  intros Hv Hi. destruct verts as [|v vs]; [done|].
  destruct (buildBufferGeometry_attributes v vs indices) as (Hp & _ & _).
  cbv zeta in Hp. unfold finishGeometry, BG.toNonIndexed.
  assert (Hindex : index (buildBufferGeometry (v :: vs) indices) = Some indices).
  { unfold buildBufferGeometry. cbn [index].
    destruct (decide (length indices = 0)) as [E|_]; [|done].
    by destruct indices. }
  rewrite Hindex. split; [done|].
  unfold BG.vertexCount. cbn [attributes]. rewrite lookup_fmap, Hp.
  cbn [fmap option_fmap option_map]. apply convert_count. done.
Qed.
End Tubes.

(** ** generateTailGeometry *)

Lemma rmapM_Ok {A B : Type} (f : A -> Result B) (l : list A) :
  Forall (fun x => exists y, f x = Ok y) l -> exists l', rmapM f l = Ok l'.
Proof.
  induction 1 as [|x l [y Hy] _ [l' IH]]; simpl; [eauto|].
  rewrite Hy, IH. simpl. eauto.
Qed.

Lemma rmapM_Ok_inv {A B : Type} (f : A -> Result B) (l : list A) (l' : list B) :
  rmapM f l = Ok l' -> Forall (fun x => exists y, f x = Ok y) l.
Proof.
  revert l'. induction l as [|x l IH]; intros l' H; simpl in H; [constructor|].
  destruct (f x) as [y|e] eqn:Ef; simpl in H; [|discriminate].
  destruct (rmapM f l) as [ys|e] eqn:El; simpl in H; [|discriminate].
  constructor; [eauto|]. by eapply IH.
Qed.

Lemma rmapM_Throw {A B : Type} (f : A -> Result B) (pre post : list A) (x : A)
    (e : Error) :
  Forall (fun x => exists y, f x = Ok y) pre -> f x = Throw e ->
  rmapM f (pre ++ x :: post) = Throw e.
Proof.
  intros Hpre Hx. induction Hpre as [|x0 l [y Hy] _ IH]; simpl.
  - by rewrite Hx.
  - by rewrite Hy, IH.
Qed.

(** The position of a named bone, as the loop of [generateTailGeometry]
    reads it. *)
Lemma tail_point_present (bones : list SkelBone) (name : string) :
  (exists p, match getProperty (boneIndexMap bones) name with
             | Undefined => Throw (MissingBone name)
             | Inherited => Throw TypeError
             | Index idx =>
                 match bones !! idx with
                 | Some bone => Ok (worldPosition bone)
                 | None => Throw TypeError
                 end
             end = Ok p)
  <-> name ∈ boneNames bones /\ name <> "__proto__".
Proof.
  rewrite <- boneIndexMap_is_Some. unfold getProperty. split.
  - intros [p H]. destruct (boneIndexMap bones !! name); [eauto|].
    by case_decide.
  - intros [idx H]. rewrite H.
    destruct (boneIndexMap_Some bones name idx H) as (_ & b & Hb & _).
    rewrite Hb. eauto.
Qed.

(** X9.  [generateTailGeometry] returns a geometry exactly when every
    name of the chain [spine_base, ...options.bones] is that of a bone of
    the skeleton and is not [__proto__], and [options.bones] is not the
    empty array; with an empty [options.bones] the chain is the single point
    [spine_base], which has no axis. *)
Theorem generateTailGeometry_succeeds (bones : list SkelBone) (options : PartOptions) :
  (exists g, generateTailGeometry bones options = Ok g)
  <-> (Forall (fun name => name ∈ boneNames bones /\ name <> "__proto__")
              (tailChain options)
       /\ optBones options <> Some []).
Proof.
  unfold generateTailGeometry. cbv zeta. fold (tailChain options).
  set (f := fun name : string => _).
  split.
  - intros [g H]. apply rbind_Ok in H as (tailPoints & Hm & H).
    split.
    + apply rmapM_Ok_inv in Hm. eapply Forall_impl; [exact Hm|].
      intros name Hn. by apply tail_point_present.
    + apply rmapM_length in Hm.
      destruct (decide (length tailPoints < 2)%nat) as [Hlt|Hge]; [discriminate|].
      intros E. unfold tailChain in Hm. rewrite E in Hm. simpl in Hm. lia.
  - intros [Hall Hne].
    destruct (rmapM_Ok f (tailChain options)) as [tailPoints Hm].
    { eapply Forall_impl; [exact Hall|]. intros name Hn. by apply tail_point_present. }
    rewrite Hm. cbn [rbind].
    destruct (decide (length tailPoints < 2)%nat) as [Hlt|_]; [|eauto].
    exfalso. apply rmapM_length in Hm. unfold tailChain in Hm.
    destruct (optBones options) as [[|n ns]|]; simpl in Hm; try lia. done.
Qed.

(** X10.  The first name of the chain [spine_base, ...options.bones]
    that [boneIndexMap] has no index for, because the skeleton has no bone
    of that name or because the name is [__proto__], decides how
    [generateTailGeometry] fails: with [Missing bone: name] when
    [Object.prototype] has no property of that name, and with a [TypeError]
    at [skeleton.bones[idx].matrixWorld] when it has one, the inherited value
    having passed the test [idx === undefined]. *)
Theorem generateTailGeometry_missing_bone (bones : list SkelBone) (options : PartOptions)
    (pre post : list string) (name : string) :
  tailChain options = pre ++ name :: post ->
  Forall (fun n => n ∈ boneNames bones /\ n <> "__proto__") pre ->
  name ∉ boneNames bones \/ name = "__proto__" ->
  generateTailGeometry bones options
  = Throw (if decide (name ∈ objectPrototypeKeys) then TypeError else MissingBone name).
Proof.
  intros Hc Hpre Hn.
  unfold generateTailGeometry. cbv zeta. fold (tailChain options).
  set (f := fun name : string => _).
  rewrite Hc.
  rewrite (rmapM_Throw f pre post name
             (if decide (name ∈ objectPrototypeKeys) then TypeError else MissingBone name));
    [done| |].
  - eapply Forall_impl; [exact Hpre|]. intros n Hin. by apply tail_point_present.
  - subst f. cbv beta. unfold getProperty.
    destruct (boneIndexMap bones !! name) as [idx|] eqn:E.
    + exfalso. assert (HS : is_Some (boneIndexMap bones !! name)) by eauto.
      apply boneIndexMap_is_Some in HS as [H1 H2]. by destruct Hn.
    + by case_decide.
Qed.

Lemma generateTailGeometry_missing_bone_witness :
  generateTailGeometry twoBones noOptions = Throw (MissingBone "tail_mid")
  /\ generateTailGeometry twoBones
       (mkOptions (Some ["valueOf"]) None None None None None None None None None
                  None None None None)
     = Throw TypeError.
Proof.
  assert (Hpre : Forall (fun n => n ∈ boneNames twoBones /\ n <> "__proto__")
                        ["spine_base"; "tail_base"]).
  { unfold boneNames, twoBones. simpl.
    apply Forall_cons. split; [split; [in_list|discriminate]|].
    apply Forall_cons. split; [split; [in_list|discriminate]|].
    apply Forall_nil_2. }
  split.
  - pose proof (generateTailGeometry_missing_bone twoBones noOptions
                  ["spine_base"; "tail_base"] ["tail_tip"] "tail_mid" eq_refl Hpre) as H.
    rewrite decide_False in H.
    + apply H. left. unfold boneNames, twoBones. simpl.
      rewrite !not_elem_of_cons. repeat split; try discriminate. apply not_elem_of_nil.
    + unfold objectPrototypeKeys. rewrite !not_elem_of_cons.
      repeat split; try discriminate. apply not_elem_of_nil.
  - pose proof (generateTailGeometry_missing_bone twoBones
                  (mkOptions (Some ["valueOf"]) None None None None None None None None
                             None None None None None)
                  ["spine_base"] [] "valueOf" eq_refl) as H.
    rewrite decide_True in H.
    + apply H.
      * apply Forall_cons. split; [|apply Forall_nil_2].
        split; [|discriminate].
        unfold boneNames, twoBones. simpl. apply list_elem_of_here.
      * left. unfold boneNames, twoBones. simpl.
        rewrite !not_elem_of_cons. repeat split; try discriminate. apply not_elem_of_nil.
    + unfold objectPrototypeKeys.
      repeat first [ apply list_elem_of_here | apply list_elem_of_further ].
Defined.

(** X11.  A geometry returned by [generateTailGeometry] has no index,
    and for a chain of [n] named bones ([n + 1] rings with [spine_base]) and
    [sides] sides it has [2 * sides * n] triangles on [6 * sides * n]
    vertices; [sides] is 6 when [options.sides] is missing or 0. *)
Theorem generateTailGeometry_size (bones : list SkelBone) (options : PartOptions)
    (g : BufferGeometry) :
  generateTailGeometry bones options = Ok g ->
  let n := length (default ["tail_base"; "tail_mid"; "tail_tip"] (optBones options)) in
  let sides := orNat (optSides options) 6 in
  (1 <= sides)%nat
  /\ index g = None
  /\ BG.vertexCount g = (6 * sides * n)%nat
  /\ BG.triangleCount g = (2 * sides * n)%nat.
Proof.
  intros H n sides. unfold generateTailGeometry in H.
  apply rbind_Ok in H as (tailPoints & Hm & H).
  destruct (decide (length tailPoints < 2)%nat) as [Hlt|Hge]; [discriminate|].
  apply Ok_inj in H. cbv zeta in H. fold sides in H.
  apply rmapM_length in Hm. simpl in Hm. fold n in Hm.
  assert (Hs : (1 <= sides)%nat).
  { subst sides. unfold orNat. destruct (optSides options) as [[|k]|]; lia. }
  split; [exact Hs|].
  match type of H with
  | finishGeometry ?verts ?indices = _ =>
      assert (Hv : length verts = (length tailPoints * sides)%nat)
        by apply tubeVertices_length;
      assert (Hi : length indices = (6 * sides * n)%nat)
        by (rewrite tubeIndices_length, Hm; simpl; f_equal; lia);
      destruct (finishGeometry_size verts indices) as [Hidx Hcount];
        [ intros E; rewrite E in Hv; simpl in Hv; nia
        | intros E; rewrite E in Hi; simpl in Hi; nia | ]
  end.
  rewrite H in Hidx, Hcount. rewrite Hi in Hcount.
  split; [exact Hidx|]. split; [exact Hcount|].
  unfold BG.triangleCount. rewrite Hidx.
  unfold BG.vertexCount in Hcount.
  destruct (attributes g !! "position") as [p|]; [|nia].
  rewrite Hcount. replace (6 * sides * n)%nat with (3 * (2 * sides * n))%nat by lia.
  apply div3_exact.
Qed.

Lemma generateTailGeometry_size_witness :
  exists g, generateTailGeometry twoBones shortTail = Ok g
    /\ BG.vertexCount g = (6 * 4 * 1)%nat.
Proof.
  eexists. split; [reflexivity|].
  apply (generateTailGeometry_size twoBones shortTail). reflexivity.
Defined.

(** ** Symbolic execution of statements *)

Lemma wp_seq (a b : Action) (Q : World -> Prop) (w : World) :
  wp a (wp b Q) w -> wp (a >> b) Q w.
Proof.
  unfold wp, seqA. destruct (a w) as [w1|e]; [|done]. simpl. done.
Qed.

Lemma wp_skip (Q : World -> Prop) (w : World) : Q w -> wp skip Q w.
Proof. done. Qed.

Lemma wp_withLoco (k : Locomotion -> Action) (Q : World -> Prop) (w : World) :
  wp (k (locomotion w)) Q w -> wp (withLoco k) Q w.
Proof. done. Qed.

Lemma wp_withMesh (k : option Vector3 -> Action) (Q : World -> Prop) (w : World) :
  wp (k (mesh w)) Q w -> wp (withMesh k) Q w.
Proof. done. Qed.

Lemma wp_assign (f : Locomotion -> Locomotion) (Q : World -> Prop) (w : World) :
  Q (setLocomotion f w) -> wp (assign f) Q w.
Proof. done. Qed.

Lemma wp_moveMesh (f : Vector3 -> Vector3) (Q : World -> Prop) (w : World) :
  Q (setMesh f w) -> wp (moveMesh f) Q w.
Proof. done. Qed.

Lemma wp_setState (s : LocoState) (Q : World -> Prop) (w : World) :
  Q (setBehaviorState s w) -> wp (setState s) Q w.
Proof. done. Qed.

Lemma wp_random (rand : nat -> R) (k : R -> Action) (Q : World -> Prop) (w : World) :
  wp (k (rand (randomCursor w))) Q (setRandomCursor (S (randomCursor w)) w) ->
  wp (random rand k) Q w.
Proof. done. Qed.

Lemma wp_writeBone (name : string) (f : Bone -> Bone) (b : Bone) (Q : World -> Prop)
    (w : World) :
  bones w !! name = Some b -> Q (setBones (insert name (f b)) w) ->
  wp (writeBone (Some name) f) Q w.
Proof. intros Hb HQ. unfold wp, writeBone. by rewrite Hb. Qed.

Lemma wp_mono (a : Action) (Q Q' : World -> Prop) (w : World) :
  (forall w', Q w' -> Q' w') -> wp a Q w -> wp a Q' w.
Proof. unfold wp. intros H. destruct (a w); [apply H|done]. Qed.

Lemma wp_Ok (a : Action) (Q : World -> Prop) (w : World) :
  wp a Q w <-> exists w', a w = Ok w' /\ Q w'.
Proof.
  unfold wp. split.
  - destruct (a w) as [w'|e]; [eauto|done].
  - intros (w' & -> & H). exact H.
Qed.

(** A statement that only poses bones leaves the rest of the world. *)
Lemma wp_runs (K : Rest -> Rest -> Prop) (a : Action) (Q : World -> Prop) (w : World) :
  runs K w a ->
  (forall w', sameBones w w' -> K (rest w) (rest w') -> Q w') ->
  wp a Q w.
Proof.
  intros Hr HQ. destruct (Hr w eq_refl) as (w' & E & S & HK).
  apply wp_Ok. exists w'. split; [exact E|]. by apply HQ.
Qed.

(** One step of the symbolic execution. *)
Ltac wp_step :=
  lazymatch goal with
  | |- wp (_ >> _) _ _ => apply wp_seq
  | |- wp skip _ _ => apply wp_skip
  | |- wp (withLoco _) _ _ => apply wp_withLoco
  | |- wp (withMesh _) _ _ => apply wp_withMesh
  | |- wp (assign _) _ _ => apply wp_assign
  | |- wp (moveMesh _) _ _ => apply wp_moveMesh
  | |- wp (setState _) _ _ => apply wp_setState
  | |- wp (random _ _) _ _ => apply wp_random
  | |- wp (let _ := _ in _) _ _ => cbv zeta
  end.

(** ** rotateDirection and turnToward *)

Lemma normalize_unitHorizontal (d : Vector3) : unitHorizontal d -> V3.normalize d = d.
Proof.
  intros [Hy Hd]. apply normalize_unit. unfold V3.lengthSq. rewrite Hy. lra.
Qed.

(** The direction after [rotateDirection(a)] from a unit direction. *)
Lemma rotateDirection_unit (a : R) (w : World) :
  unitHorizontal (direction (locomotion w)) ->
  let d := direction (locomotion w) in
  let d' := mkV3 (vx d * cos a - vz d * sin a) 0 (vx d * sin a + vz d * cos a) in
  ElephantLocomotion.rotateDirection a w = Ok (setLocomotion (withDirection d') w)
  /\ unitHorizontal d'.
Proof.
  intros [Hy Hd] d d'.
  assert (Hu : unitHorizontal d').
  { split; [reflexivity|]. subst d'. cbn [vx vz].
    pose proof (cos_sin_unit a) as Hcs. fold d in Hd.
    transitivity ((vx d * vx d + vz d * vz d) * (cos a * cos a + sin a * sin a)); [ring|].
    rewrite Hd, Hcs. ring. }
  split; [|exact Hu].
  unfold ElephantLocomotion.rotateDirection, withLoco, assign. cbv zeta.
  rewrite Hy. fold d. fold d'. by rewrite (normalize_unitHorizontal d' Hu).
Qed.

(** X12.  On a direction of length 1 in the ground plane,
    [rotateDirection] keeps the length and the plane, two calls add their
    angles, and the call with the opposite angle undoes a call. *)
Theorem rotateDirection_composes (a b : R) (w : World) :
  unitHorizontal (direction (locomotion w)) ->
  exists w1 w2,
    ElephantLocomotion.rotateDirection a w = Ok w1
    /\ ElephantLocomotion.rotateDirection b w1 = Ok w2
    /\ ElephantLocomotion.rotateDirection (a + b) w = Ok w2
    /\ unitHorizontal (direction (locomotion w1))
    /\ unitHorizontal (direction (locomotion w2))
    /\ (b = - a -> direction (locomotion w2) = direction (locomotion w)).
Proof.
  intros Hu.
  destruct (rotateDirection_unit a w Hu) as [E1 U1]. cbv zeta in E1, U1.
  set (d := direction (locomotion w)) in *.
  set (d1 := mkV3 (vx d * cos a - vz d * sin a) 0 (vx d * sin a + vz d * cos a)) in *.
  set (w1 := setLocomotion (withDirection d1) w) in *.
  destruct (rotateDirection_unit b w1 U1) as [E2 U2]. cbv zeta in E2, U2.
  destruct (rotateDirection_unit (a + b) w Hu) as [E3 _]. cbv zeta in E3. fold d in E3.
  assert (Ed : direction (locomotion w1) = d1) by reflexivity.
  rewrite Ed in E2, U2. cbn [vx vz d1] in E2, U2.
  assert (E12 : mkV3 ((vx d * cos a - vz d * sin a) * cos b
                      - (vx d * sin a + vz d * cos a) * sin b) 0
                     ((vx d * cos a - vz d * sin a) * sin b
                      + (vx d * sin a + vz d * cos a) * cos b)
                = mkV3 (vx d * cos (a + b) - vz d * sin (a + b)) 0
                       (vx d * sin (a + b) + vz d * cos (a + b))).
  { rewrite cos_plus, sin_plus. f_equal; ring. }
  rewrite E12 in E2, U2.
  eexists _, _. split; [exact E1|]. split; [exact E2|].
  split; [rewrite E3; reflexivity|]. split; [exact U1|]. split; [exact U2|].
  intros ->. cbn [locomotion setLocomotion withDirection direction].
  replace (a + - a) with 0 by ring. rewrite cos_0, sin_0.
  destruct Hu as [Hy _]. fold d in Hy. destruct d as [x y z]. cbn [vx vy vz] in *.
  subst y. f_equal; ring.
Qed.

Lemma rotateDirection_composes_witness :
  exists w1 w2,
    ElephantLocomotion.rotateDirection 1 restWorld = Ok w1
    /\ ElephantLocomotion.rotateDirection (- 1) w1 = Ok w2
    /\ direction (locomotion w2) = direction (locomotion restWorld).
Proof.
  assert (Hu : unitHorizontal (direction (locomotion restWorld))).
  { split; cbn; lra. }
  destruct (rotateDirection_composes 1 (- 1) restWorld Hu)
    as (w1 & w2 & E1 & E2 & _ & _ & _ & Hback).
  exists w1, w2. split; [exact E1|]. split; [exact E2|]. by apply Hback.
Defined.

Lemma clamp_bound (v m : R) : Rabs (clamp v (- m) m) <= Rabs m.
Proof.
  unfold clamp, Rmax, Rmin.
  destruct (Rle_dec m v), (Rle_dec (- m) m), (Rle_dec (- m) v);
    unfold Rabs; repeat destruct (Rcase_abs _); lra.
Qed.

Lemma clamp_inside (v m : R) : - m <= v <= m -> clamp v (- m) m = v.
Proof.
  intros H. unfold clamp, Rmax, Rmin.
  destruct (Rle_dec m v), (Rle_dec (- m) m), (Rle_dec (- m) v); lra.
Qed.

(** X13.  [turnToward] is one call of [rotateDirection] whose angle is
    never larger in magnitude than [|turnSpeed * dt|]; when the wrapped
    difference of the headings is within that bound, it is the angle
    itself. *)
Theorem turnToward_clamped (targetDir : Vector3) (dt : R) (w : World) :
  let this := locomotion w in
  let delta0 := atan2 (vx targetDir) (vz targetDir)
                - atan2 (vx (direction this)) (vz (direction this)) in
  let delta1 := if Rgt_dec delta0 PI then delta0 - PI * 2 else delta0 in
  let delta2 := if Rlt_dec delta1 (- PI) then delta1 + PI * 2 else delta1 in
  exists delta,
    ElephantLocomotion.turnToward targetDir dt w
    = ElephantLocomotion.rotateDirection delta w
    /\ Rabs delta <= Rabs (turnSpeed this * dt)
    /\ (- (turnSpeed this * dt) <= delta2 <= turnSpeed this * dt -> delta = delta2).
Proof.
  intros this delta0 delta1 delta2.
  exists (clamp delta2 (- (turnSpeed this * dt)) (turnSpeed this * dt)).
  split; [reflexivity|]. split; [apply clamp_bound|]. apply clamp_inside.
Qed.

(** ** Walking *)

Lemma jsmod_range (x y : R) : 0 <= x -> 0 < y -> 0 <= jsmod x y < y.
Proof.
  intros Hx Hy. unfold jsmod, truncR.
  assert (Hq : 0 <= x / y) by (apply Rmult_le_pos; [lra|]; left; by apply Rinv_0_lt_compat).
  destruct (Rle_dec 0 (x / y)) as [_|N]; [|contradiction].
  pose proof (base_fp (x / y)) as [H1 H2]. unfold frac_part in *.
  assert (E : x = y * (x / y)) by (field; lra).
  set (q := x / y) in *. set (k := IZR (Int_part q)) in *.
  split; [nra|]. nra.
Qed.

Lemma rotated_unitHorizontal (d : Vector3) (a : R) :
  unitHorizontal d ->
  unitHorizontal (V3.normalize (mkV3 (vx d * cos a - vz d * sin a) (vy d)
                                     (vx d * sin a + vz d * cos a))).
Proof.
  intros [Hy Hd]. rewrite Hy.
  assert (Hu : unitHorizontal (mkV3 (vx d * cos a - vz d * sin a) 0
                                    (vx d * sin a + vz d * cos a))).
  { split; [reflexivity|]. cbn [vx vz]. pose proof (cos_sin_unit a) as Hcs.
    transitivity ((vx d * vx d + vz d * vz d) * (cos a * cos a + sin a * sin a)); [ring|].
    rewrite Hd, Hcs. ring. }
  by rewrite (normalize_unitHorizontal _ Hu).
Qed.


(** What a walking frame does to everything but the pose. *)
Lemma updateWalk_effect (rand : nat -> R) (dt : R) (w : World) (p : Vector3) :
  is_Some (bones w !! "spine_base") -> mesh w = Some p ->
  exists w', ElephantLocomotion.updateWalk rand dt (Some "spine_base") w = Ok w'
    /\ let l := locomotion w in
       let l' := locomotion w' in
       _idleTime l' = _idleTime l + dt
       /\ gaitPhase l' = jsmod (gaitPhase l + dt / gaitDuration l * (PI * 2)) (PI * 2)
       /\ mesh w' = Some (V3.addScaledVector p (direction l') (walkSpeed l * dt))
       /\ walkSpeed l' = walkSpeed l /\ wanderSpeed l' = wanderSpeed l
       /\ state l' = state l /\ _stateTimer l' = _stateTimer l
       /\ _stateTime l' = _stateTime l /\ _spring l' = _spring l
       /\ baseHeight l' = baseHeight l /\ gaitDuration l' = gaitDuration l
       /\ (unitHorizontal (direction l) -> unitHorizontal (direction l'))
       /\ (randomCursor w <= randomCursor w' <= randomCursor w + 2)%nat
       /\ (sqrt (vx p ^ 2 + vz p ^ 2) > worldBoundsRadius l ->
           randomCursor w' = randomCursor w)
       /\ behaviorState w' = behaviorState w /\ time w' = time w
       /\ dom (bones w') = dom (bones w).
Proof.
  intros Hroot Hmesh. apply wp_Ok.
  unfold ElephantLocomotion.updateWalk.
  do 2 (apply wp_seq; apply wp_withLoco; apply wp_assign).
  cbv zeta.
  set (l := locomotion w).
  set (w2 := setLocomotion _ (setLocomotion _ w)).
  apply wp_seq.
  (* the turn *)
  apply (wp_mono _ (fun w3 =>
    bones w3 = bones w /\ mesh w3 = Some p
    /\ _idleTime (locomotion w3) = _idleTime l + dt
    /\ gaitPhase (locomotion w3)
       = jsmod (gaitPhase l + dt / gaitDuration l * (PI * 2)) (PI * 2)
    /\ walkSpeed (locomotion w3) = walkSpeed l
    /\ wanderSpeed (locomotion w3) = wanderSpeed l
    /\ state (locomotion w3) = state l /\ _stateTimer (locomotion w3) = _stateTimer l
    /\ _stateTime (locomotion w3) = _stateTime l /\ _spring (locomotion w3) = _spring l
    /\ baseHeight (locomotion w3) = baseHeight l
    /\ gaitDuration (locomotion w3) = gaitDuration l
    /\ (unitHorizontal (direction l) -> unitHorizontal (direction (locomotion w3)))
    /\ (randomCursor w <= randomCursor w3 <= randomCursor w + 2)%nat
    /\ (sqrt (vx p ^ 2 + vz p ^ 2) > worldBoundsRadius l ->
        randomCursor w3 = randomCursor w)
    /\ behaviorState w3 = behaviorState w /\ time w3 = time w)).
  2:{ apply wp_withMesh, wp_withLoco.
      assert (Em : mesh w2 = Some p) by exact Hmesh.
      rewrite Em. change (default zeroV (Some p)) with p. cbv zeta.
      assert (El : worldBoundsRadius (locomotion w2) = worldBoundsRadius l) by reflexivity.
      rewrite El.
      destruct (Rgt_dec (sqrt (vx p ^ 2 + vz p ^ 2)) (worldBoundsRadius l)) as [Hout|Hin].
      - apply wp_seq, wp_assign, wp_withLoco.
        unfold ElephantLocomotion.turnToward. apply wp_withLoco. cbv zeta.
        unfold ElephantLocomotion.rotateDirection. apply wp_withLoco, wp_assign.
        cbn. split_all; try reflexivity; try lia; try exact Hmesh.
        intros Hu. by apply rotated_unitHorizontal.
      - apply wp_random.
        destruct (Rlt_dec (rand (randomCursor w2)) (dt * 0.2)) as [Hturn|Hno].
        + apply wp_random, wp_withLoco. cbv zeta.
          unfold ElephantLocomotion.rotateDirection. apply wp_withLoco, wp_assign.
          cbn. split_all; try reflexivity; try lia; try contradiction; try exact Hmesh.
          intros Hu. by apply rotated_unitHorizontal.
        + apply wp_skip. cbn. split_all; try reflexivity; try lia; try contradiction; try exact Hmesh.
          done. }
  intros w3 (Hb3 & Hm3 & Hrest).
  apply wp_seq, wp_withLoco, wp_moveMesh.
  set (w4 := setMesh _ w3).
  assert (Hroot4 : valid w4 (Some "spine_base")).
  { unfold valid. cbn [bones w4 setMesh]. by rewrite Hb3. }
  eapply (wp_runs eq).
  { pose proof (@eq_refl Rest) as Kr. pose proof (@eq_trans Rest) as Kt.
    runs_all eq_side. }
  intros w' HS Hr.
  assert (Hl : locomotion w' = locomotion w3) by (unfold rest in Hr; cbn in Hr; congruence).
  assert (Hm : mesh w' = mesh w4) by (unfold rest in Hr; congruence).
  assert (Hc : randomCursor w' = randomCursor w3)
    by (unfold rest in Hr; cbn in Hr; congruence).
  assert (Hs : behaviorState w' = behaviorState w3)
    by (unfold rest in Hr; cbn in Hr; congruence).
  assert (Ht : time w' = time w3) by (unfold rest in Hr; cbn in Hr; congruence).
  cbv zeta. rewrite Hl, Hm, Hc, Hs, Ht.
  destruct Hrest as (H1 & H2 & H3 & H4 & H5 & H6 & H7 & H8 & H9 & H10 & H11 & H12 & H13
                     & H14 & H15).
  split_all; try assumption; try lia.
  - cbn [mesh w4 setMesh]. rewrite Hm3. cbn. by rewrite H3.
  - unfold sameBones in HS. cbn [bones w4 setMesh] in HS. by rewrite HS, Hb3.
Qed.

(** What a wandering frame does to everything but the pose. *)
Lemma updateWander_effect (rand : nat -> R) (dt : R) (w : World) (p : Vector3) :
  is_Some (bones w !! "spine_base") -> mesh w = Some p ->
  exists w', ElephantLocomotion.updateWander rand dt (Some "spine_base") w = Ok w'
    /\ let l := locomotion w in
       let l' := locomotion w' in
       gaitPhase l' = jsmod (gaitPhase l + dt / gaitDuration l * (PI * 2)) (PI * 2)
       /\ mesh w' = Some (V3.addScaledVector p (direction l') (wanderSpeed l * dt))
       /\ walkSpeed l' = walkSpeed l /\ wanderSpeed l' = wanderSpeed l
       /\ gaitDuration l' = gaitDuration l
       /\ (unitHorizontal (direction l) -> unitHorizontal (direction l'))
       /\ (randomCursor w <= randomCursor w' <= randomCursor w + 2)%nat
       /\ (sqrt (vx p ^ 2 + vz p ^ 2) > worldBoundsRadius l ->
           randomCursor w' = randomCursor w).
Proof.
  intros Hroot Hmesh. apply wp_Ok.
  unfold ElephantLocomotion.updateWander. apply wp_withLoco. cbv zeta.
  apply wp_seq, wp_assign.
  set (w1 := setLocomotion _ w).
  destruct (updateWalk_effect rand dt w1 p Hroot Hmesh) as (w2 & E2 & H2).
  apply wp_seq. apply wp_Ok. exists w2. split; [exact E2|].
  apply wp_assign. cbv zeta in H2.
  destruct H2 as (H1 & H2 & H3 & H4 & H5 & H6 & H7 & H8 & H9 & H10 & H11 & H12 & H13
                  & H14 & _).
  cbn [locomotion setLocomotion w1 withWalkSpeed gaitPhase gaitDuration walkSpeed
       wanderSpeed direction randomCursor mesh worldBoundsRadius] in *.
  split_all; try assumption; try reflexivity; lia.
Qed.

(** X14.  A wandering frame keeps the gait phase in [[0, 2 PI)]: with a
    frame time that is not negative and a positive gait duration,
    [updateWander] takes a phase that is not negative to a phase in
    [[0, 2 PI)], and leaves the gait duration as it is. *)
Theorem updateWander_gait_phase (rand : nat -> R) (dt : R) (w : World) :
  is_Some (bones w !! "spine_base") -> is_Some (mesh w) ->
  0 <= gaitPhase (locomotion w) -> 0 <= dt -> 0 < gaitDuration (locomotion w) ->
  exists w', ElephantLocomotion.updateWander rand dt (Some "spine_base") w = Ok w'
    /\ 0 <= gaitPhase (locomotion w') < PI * 2
    /\ gaitDuration (locomotion w') = gaitDuration (locomotion w).
Proof.
  intros Hroot [p Hmesh] Hg Hdt Hd.
  destruct (updateWander_effect rand dt w p Hroot Hmesh) as (w' & E & H).
  cbv zeta in H. destruct H as (H1 & _ & _ & _ & H5 & _).
  exists w'. split; [exact E|]. split; [|exact H5].
  rewrite H1. pose proof PI_RGT_0 as Hpi. apply jsmod_range; [|lra].
  assert (0 <= dt / gaitDuration (locomotion w)).
  { apply Rmult_le_pos; [lra|]. left. by apply Rinv_0_lt_compat. }
  nra.
Qed.

Lemma updateWander_gait_phase_witness :
  exists w', ElephantLocomotion.updateWander (fun _ => 0.5) 0.016 (Some "spine_base")
               rootWorld = Ok w'
    /\ 0 <= gaitPhase (locomotion w') < PI * 2.
Proof.
  destruct (updateWander_gait_phase (fun _ => 0.5) 0.016 rootWorld) as (w' & E & H & _).
  - eexists. apply lookup_singleton_eq.
  - eexists. reflexivity.
  - cbn. lra.
  - lra.
  - cbn. lra.
  - exists w'. split; [exact E | exact H].
Defined.

Lemma addScaled_distance (p d : Vector3) (s : R) :
  unitHorizontal d ->
  V3.distanceTo (V3.addScaledVector p d s) p = Rabs s
  /\ vy (V3.addScaledVector p d s) = vy p.
Proof.
  intros [Hy Hd]. split.
  - unfold V3.distanceTo, V3.length, V3.lengthSq, V3.sub, V3.addScaledVector.
    cbn [vx vy vz]. rewrite Hy.
    replace ((vx p + vx d * s - vx p) * (vx p + vx d * s - vx p)
             + (vy p + 0 * s - vy p) * (vy p + 0 * s - vy p)
             + (vz p + vz d * s - vz p) * (vz p + vz d * s - vz p))
      with ((vx d * vx d + vz d * vz d) * (s * s)) by ring.
    rewrite Hd, Rmult_1_l. apply sqrt_Rsqr_abs.
  - unfold V3.addScaledVector. cbn [vy]. rewrite Hy. ring.
Qed.

(** X15.  A wandering frame moves the mesh along the direction the frame
    ends with, by [wanderSpeed * dt]: for a direction of length 1 in the
    ground plane the mesh covers the distance [|wanderSpeed * dt|] and keeps
    its height, the direction stays of length 1 in the ground plane, and
    [walkSpeed], replaced by [wanderSpeed] during the frame, is put back.
    The frame draws at most two random numbers, and none when the mesh is
    outside the world bounds. *)
Theorem updateWander_moves_mesh (rand : nat -> R) (dt : R) (w : World) (p : Vector3) :
  is_Some (bones w !! "spine_base") -> mesh w = Some p ->
  unitHorizontal (direction (locomotion w)) ->
  exists w' p', ElephantLocomotion.updateWander rand dt (Some "spine_base") w = Ok w'
    /\ mesh w' = Some p'
    /\ p' = V3.addScaledVector p (direction (locomotion w'))
                               (wanderSpeed (locomotion w) * dt)
    /\ V3.distanceTo p' p = Rabs (wanderSpeed (locomotion w) * dt)
    /\ vy p' = vy p
    /\ unitHorizontal (direction (locomotion w'))
    /\ walkSpeed (locomotion w') = walkSpeed (locomotion w)
    /\ (randomCursor w <= randomCursor w' <= randomCursor w + 2)%nat
    /\ (sqrt (vx p ^ 2 + vz p ^ 2) > worldBoundsRadius (locomotion w) ->
        randomCursor w' = randomCursor w).
Proof.
  intros Hroot Hmesh Hu.
  destruct (updateWander_effect rand dt w p Hroot Hmesh) as (w' & E & H).
  cbv zeta in H. destruct H as (_ & H2 & H3 & _ & _ & H6 & H7 & H8).
  specialize (H6 Hu).
  destruct (addScaled_distance p (direction (locomotion w'))
              (wanderSpeed (locomotion w) * dt) H6) as [Hd Hy].
  eexists w', _. split; [exact E|]. split; [exact H2|].
  split_all; try assumption; try reflexivity; lia.
Qed.

Lemma updateWander_moves_mesh_witness :
  exists w' p', ElephantLocomotion.updateWander (fun _ => 0.5) 0.016 (Some "spine_base")
                  rootWorld = Ok w'
    /\ mesh w' = Some p'
    /\ V3.distanceTo p' (mkV3 0 0 0) = Rabs (0.35 * 0.016).
Proof.
  destruct (updateWander_moves_mesh (fun _ => 0.5) 0.016 rootWorld (mkV3 0 0 0))
    as (w' & p' & E & Hm & _ & Hd & _).
  - eexists. apply lookup_singleton_eq.
  - reflexivity.
  - split; cbn; lra.
  - exists w', p'. split; [exact E|]. split; [exact Hm | exact Hd].
Defined.

(** ** The frame of the state machine *)

Lemma keepsStateAndDraws_refl r : keepsStateAndDraws r r.
Proof. split; [apply keepsStateMachine_refl|done]. Qed.

Lemma keepsStateAndDraws_trans a b c :
  keepsStateAndDraws a b -> keepsStateAndDraws b c -> keepsStateAndDraws a c.
Proof.
  intros [H1 E1] [H2 E2]. split; [by eapply keepsStateMachine_trans|congruence].
Qed.

Ltac ksd_side :=
  first [ intros [[[[? ?] ?] ?] ?]; cbn; by repeat split
        | intros; cbn; by repeat split ].

(** The poses of the states [idle] and [curious] and the springs leave the
    state machine and the random numbers alone. *)
Lemma still_pose_keeps_draws (w0 : World) (dt : R) (s : LocoState) :
  valid w0 (Some "spine_base") -> s <> wander ->
  runs keepsStateAndDraws w0
    (match s with
     | wander => skip
     | curious => ElephantLocomotion.updateCurious dt (Some "spine_base")
     | idle => ElephantLocomotion.updateIdle dt (Some "spine_base")
     end >> ElephantLocomotion.applySecondaryMotion dt).
Proof.
  intros Hroot Hs.
  pose proof keepsStateAndDraws_refl as Kr. pose proof keepsStateAndDraws_trans as Kt.
  destruct s; [|done|]; runs_all ksd_side.
Qed.

(** X16.  While the dwell timer has not run out, a frame leaves the
    state machine where it is: with the root bone and the mesh in place and
    [_stateTimer - dt > 0], [update(dt)] keeps [state] and the state of the
    behavior, takes [dt] off [_stateTimer] and adds it to [_stateTime]; in
    the states [idle] and [curious] it draws no random number. *)
Theorem update_before_expiry (rand : nat -> R) (dt : R) (w : World) :
  is_Some (bones w !! "spine_base") -> is_Some (mesh w) ->
  0 < _stateTimer (locomotion w) - dt ->
  exists w', ElephantLocomotion.update rand dt w = Ok w'
    /\ state (locomotion w') = state (locomotion w)
    /\ behaviorState w' = behaviorState w
    /\ _stateTimer (locomotion w') = _stateTimer (locomotion w) - dt
    /\ _stateTime (locomotion w') = _stateTime (locomotion w) + dt
    /\ (state (locomotion w) <> wander -> randomCursor w' = randomCursor w).
Proof.
  intros [b Hb] [m Hm] Hexp. apply wp_Ok.
  unfold ElephantLocomotion.update, letBone. apply wp_withMesh. rewrite Hb, Hm.
  do 2 (apply wp_seq, wp_withLoco, wp_assign).
  set (w1 := setLocomotion _ (setLocomotion _ w)).
  apply wp_seq. unfold ElephantLocomotion.transition. apply wp_withLoco.
  assert (Et : _stateTimer (locomotion w1) = _stateTimer (locomotion w) - dt) by reflexivity.
  rewrite Et. destruct (Rle_dec (_stateTimer (locomotion w) - dt) 0) as [Hle|_]; [lra|].
  apply wp_skip.
  assert (Hroot : valid w1 (Some "spine_base")) by (unfold valid; cbn; eauto).
  assert (Es : state (locomotion w1) = state (locomotion w)) by reflexivity.
  destruct (pose_keeps_state_machine w1 rand dt Hroot w1 eq_refl) as (w' & E' & _ & HK).
  apply wp_Ok. exists w'. split; [exact E'|].
  unfold keepsStateMachine, rest in HK. destruct HK as (K1 & K2 & K3 & K4).
  rewrite K1, K2, K3, K4. split_all; try reflexivity.
  intros Hs.
  assert (E2 : (match state (locomotion w) with
                | wander => skip
                | curious => ElephantLocomotion.updateCurious dt (Some "spine_base")
                | idle => ElephantLocomotion.updateIdle dt (Some "spine_base")
                end >> ElephantLocomotion.applySecondaryMotion dt) w1 = Ok w').
  { rewrite <- E'. unfold seqA, withLoco. rewrite Es.
    destruct (state (locomotion w)); [reflexivity|contradiction|reflexivity]. }
  destruct (still_pose_keeps_draws w1 dt (state (locomotion w)) Hroot Hs w1 eq_refl)
    as (w'' & E'' & _ & _ & Hc).
  rewrite E2 in E''. injection E'' as <-. exact Hc.
Qed.

Lemma update_before_expiry_witness :
  exists w', ElephantLocomotion.update (fun _ => 0.5) 0.016
               (setLocomotion (withStateTimer 5) rootWorld) = Ok w'
    /\ state (locomotion w') = idle.
Proof.
  destruct (update_before_expiry (fun _ => 0.5) 0.016
              (setLocomotion (withStateTimer 5) rootWorld)) as (w' & E & Hs & _).
  - eexists. apply lookup_singleton_eq.
  - eexists. reflexivity.
  - cbn. lra.
  - exists w'. split; [exact E | exact Hs].
Defined.

(** ** What a statement preserves when it returns *)

Section Preserves.
Variable J : World -> World -> Prop.
Hypothesis J_refl : forall w, J w w.
Hypothesis J_trans : forall a b c, J a b -> J b c -> J a c.

Lemma preserves_skip : preserves J skip.
Proof. intros w w' E. injection E as <-. apply J_refl. Qed.

Lemma preserves_seq (a b : Action) :
  preserves J a -> preserves J b -> preserves J (a >> b).
Proof.
  intros Ha Hb w w' E. unfold seqA in E.
  destruct (a w) as [w1|e] eqn:E1; simpl in E; [|discriminate].
  eapply J_trans; [by apply Ha | by apply Hb].
Qed.

Lemma preserves_letBone (name : string) (k : BoneRef -> Action) :
  (forall x, preserves J (k x)) -> preserves J (letBone name k).
Proof. intros Hk w w' E. by eapply Hk. Qed.

Lemma preserves_writeBone (x : BoneRef) (f : Bone -> Bone) :
  (forall w g, J w (setBones g w)) -> preserves J (writeBone x f).
Proof.
  intros Hw w w' E. unfold writeBone in E. destruct x as [name|]; [|discriminate].
  destruct (bones w !! name); [|discriminate]. injection E as <-. apply Hw.
Qed.

Lemma preserves_ifBone (x : BoneRef) (a : Action) :
  preserves J a -> preserves J (ifBone x a).
Proof. intros Ha. destruct x; [exact Ha | apply preserves_skip]. Qed.

Lemma preserves_withLoco (k : Locomotion -> Action) :
  (forall l, preserves J (k l)) -> preserves J (withLoco k).
Proof. intros Hk w w' E. by eapply Hk. Qed.

Lemma preserves_withMesh (k : option Vector3 -> Action) :
  (forall m, preserves J (k m)) -> preserves J (withMesh k).
Proof. intros Hk w w' E. by eapply Hk. Qed.

Lemma preserves_assign (f : Locomotion -> Locomotion) :
  (forall w, J w (setLocomotion f w)) -> preserves J (assign f).
Proof. intros Hf w w' E. injection E as <-. apply Hf. Qed.

Lemma preserves_moveMesh (f : Vector3 -> Vector3) :
  (forall w, J w (setMesh f w)) -> preserves J (moveMesh f).
Proof. intros Hf w w' E. injection E as <-. apply Hf. Qed.

Lemma preserves_setState (s : LocoState) :
  (forall w, J w (setBehaviorState s w)) -> preserves J (setState s).
Proof. intros Hf w w' E. injection E as <-. apply Hf. Qed.

Lemma preserves_random (rand : nat -> R) (k : R -> Action) :
  (forall w n, J w (setRandomCursor n w)) -> (forall r, preserves J (k r)) ->
  preserves J (random rand k).
Proof.
  intros Hc Hk w w' E. unfold random in E.
  eapply J_trans; [apply Hc|]. by eapply Hk.
Qed.
End Preserves.

Ltac preserves_step side :=
  lazymatch goal with
  | |- preserves _ (_ >> _) => apply preserves_seq; [assumption | | ]
  | |- preserves _ skip => apply preserves_skip; assumption
  | |- preserves _ (letBone _ _) => apply preserves_letBone; intros ?
  | |- preserves _ (writeBone _ _) => apply preserves_writeBone; side
  | |- preserves _ (ifBone _ _) => apply preserves_ifBone; [assumption|]
  | |- preserves _ (withLoco _) => apply preserves_withLoco; intros ?
  | |- preserves _ (withMesh _) => apply preserves_withMesh; intros ?
  | |- preserves _ (assign _) => apply preserves_assign; side
  | |- preserves _ (moveMesh _) => apply preserves_moveMesh; side
  | |- preserves _ (setState _) => apply preserves_setState; side
  | |- preserves _ (random _ _) =>
      apply preserves_random; [assumption | side | intros ?]
  | |- preserves _ (if ?c then _ else _) => destruct c
  | |- preserves _ (match ?c with _ => _ end) => destruct c
  | |- preserves _ (let _ := _ in _) => cbv zeta
  | |- preserves _ _ => unfold_loco
  end.

Ltac preserves_all side := repeat (preserves_step side).

Lemma sameClock_refl w : sameClock w w.
Proof. by split. Qed.

Lemma sameClock_trans a b c : sameClock a b -> sameClock b c -> sameClock a c.
Proof. intros [H1 H2] [H3 H4]. split; congruence. Qed.

(** The locomotion never touches the list of skeleton bones or the clock
    of the behavior. *)
Lemma locomotion_update_sameClock (rand : nat -> R) (dt : R) :
  preserves sameClock (ElephantLocomotion.update rand dt).
Proof.
  pose proof sameClock_refl as Jr. pose proof sameClock_trans as Jt.
  unfold ElephantLocomotion.update.
  preserves_all ltac:(intros; by split).
Qed.

(** The state machine block tells the behavior its state. *)
Lemma transition_syncs (rand : nat -> R) (w : World) :
  inSync w \/ _stateTimer (locomotion w) <= 0 ->
  exists w', ElephantLocomotion.transition rand w = Ok w'
    /\ bones w' = bones w /\ inSync w'.
Proof.
  intros H. apply wp_Ok. unfold ElephantLocomotion.transition. apply wp_withLoco.
  destruct (Rle_dec (_stateTimer (locomotion w)) 0) as [Hexp|Hno].
  - destruct (state (locomotion w)).
    + apply wp_seq, wp_random.
      destruct (Rlt_dec (rand (randomCursor w)) 0.65);
        [|destruct (Rlt_dec (rand (randomCursor w)) 0.9)];
        repeat wp_step; by split.
    + repeat wp_step. by split.
    + repeat wp_step. by split.
  - apply wp_skip. split; [done|]. destruct H as [H|H]; [exact H|lra].
Qed.

(** One frame of the locomotion keeps the behavior in sync. *)
Lemma locomotion_update_syncs (rand : nat -> R) (dt : R) (w : World) :
  inSync w ->
  exists w', ElephantLocomotion.update rand dt w = Ok w' /\ inSync w'
    /\ dom (bones w') = dom (bones w).
Proof.
  intros Hs. apply wp_Ok.
  unfold ElephantLocomotion.update, letBone. apply wp_withMesh.
  destruct (bones w !! "spine_base") as [b|] eqn:Hb; [|by apply wp_skip].
  destruct (mesh w) as [m|] eqn:Hm; [|by apply wp_skip].
  do 2 (apply wp_seq, wp_withLoco, wp_assign).
  set (w1 := setLocomotion _ (setLocomotion _ w)).
  destruct (transition_syncs rand w1) as (w2 & E2 & Hb2 & Hs2); [by left|].
  apply wp_seq, wp_Ok. exists w2. split; [exact E2|].
  assert (Hroot : valid w2 (Some "spine_base")).
  { unfold valid. rewrite Hb2. cbn. by rewrite Hb. }
  destruct (pose_keeps_state_machine w2 rand dt Hroot w2 eq_refl) as (w' & E' & HS & HK).
  apply wp_Ok. exists w'. split; [exact E'|].
  unfold keepsStateMachine, rest in HK. destruct HK as (K1 & _ & _ & K4).
  split.
  - unfold inSync in *. by rewrite K1, K4.
  - unfold sameBones in HS. rewrite HS, Hb2. reflexivity.
Qed.

(** ** ElephantBehavior *)

(** X17.  [ElephantBehavior.update(dt)] never throws.  It returns at once,
    changing nothing, when [dt] is 0 or the skeleton or the mesh is
    missing.  Otherwise the clock of the behavior moves by [dt] (backwards
    for a negative [dt]), also in a frame that the locomotion skips for want
    of the root bone, the list of skeleton bones stays, and no bone is
    added to or removed from the dictionary as long as
    [updateMatrixWorld] adds or removes none. *)
Theorem behavior_update_effect
    (updateMatrixWorld : string -> gmap string Bone -> gmap string Bone)
    (rand : nat -> R) (dt : R) (w : World) :
  exists w', ElephantBehavior.update updateMatrixWorld rand dt w = Ok w'
    /\ (dt = 0 \/ skeleton w = None \/ mesh w = None -> w' = w)
    /\ (dt <> 0 -> is_Some (skeleton w) -> is_Some (mesh w) ->
        time w' = time w + dt /\ skeleton w' = skeleton w
        /\ ((forall name bs, dom (updateMatrixWorld name bs) = dom bs) ->
            dom (bones w') = dom (bones w))).
Proof.
  unfold ElephantBehavior.update.
  destruct (Req_dec_T dt 0) as [E0|N0].
  { exists w. split; [reflexivity|]. split; [done|]. intros N. contradiction. }
  destruct (skeleton w) as [names|] eqn:Hsk.
  2:{ exists w. split; [reflexivity|]. split; [done|]. intros _ [? ?]. discriminate. }
  destruct (mesh w) as [m|] eqn:Hm.
  2:{ exists w. split; [reflexivity|]. split; [done|]. intros _ _ [? ?]. discriminate. }
  set (w0 := setTime (time w + dt) w).
  destruct (update_never_throws rand dt w0) as (w1 & E1 & D1).
  destruct (locomotion_update_sameClock rand dt w0 w1 E1) as [S1 T1].
  eexists. split.
  { unfold seqA at 1. cbn [rbind]. fold w0. unfold seqA. rewrite E1. reflexivity. }
  split.
  { intros [H|[H|H]]; [contradiction|discriminate|discriminate]. }
  intros _ _ _. cbn [time skeleton setBones bones]. rewrite T1, S1.
  split; [subst w0; reflexivity|]. split; [exact Hsk|].
  intros Hdom. rewrite <- (D1 : dom (bones w1) = dom (bones w)).
  generalize (bones w1). clear Hsk.
  induction names as [|n ns IH]; intros bs; simpl; [done|].
  by rewrite IH, Hdom.
Qed.

(** X18.  The state [getDebugInfo()] reports for the behavior is the
    state of its locomotion: both are [idle] in a new behavior, and
    [ElephantBehavior.update] keeps them equal, every transition of the
    locomotion being passed on through [setState]. *)
Theorem debug_info_in_sync
    (updateMatrixWorld : string -> gmap string Bone -> gmap string Bone)
    (rand : nat -> R) (dt : R) (w : World) :
  inSync w ->
  exists w', ElephantBehavior.update updateMatrixWorld rand dt w = Ok w'
    /\ inSync w'
    /\ (getDebugInfo w').2 = Some (getDebugInfo w').1.1.
Proof.
  intros Hs.
  assert (HG : forall w', inSync w' -> (getDebugInfo w').2 = Some (getDebugInfo w').1.1).
  { intros w' H. unfold getDebugInfo. cbn [fst snd]. by rewrite H. }
  unfold ElephantBehavior.update.
  destruct (Req_dec_T dt 0) as [E0|N0]; [by eauto|].
  destruct (skeleton w) as [names|]; [|by eauto].
  destruct (mesh w) as [m|]; [|by eauto].
  set (w0 := setTime (time w + dt) w).
  destruct (locomotion_update_syncs rand dt w0 Hs) as (w1 & E1 & S1 & _).
  eexists. split.
  { unfold seqA at 1. cbn [rbind]. fold w0. unfold seqA. rewrite E1. reflexivity. }
  split; [exact S1|]. by apply HG.
Qed.

Lemma debug_info_in_sync_witness :
  exists w', ElephantBehavior.update (fun _ bs => bs) (fun _ => 0.5) 0.016 rootWorld = Ok w'
    /\ (getDebugInfo w').2 = Some (getDebugInfo w').1.1.
Proof.
  destruct (debug_info_in_sync (fun _ bs => bs) (fun _ => 0.5) 0.016 rootWorld eq_refl)
    as (w' & E & _ & H).
  exists w'. split; [exact E | exact H].
Defined.

(** ** Which bones a statement poses *)

Section Poses.
Variable Inv : Bone -> Bone -> Prop.
Hypothesis Inv_refl : forall b, Inv b b.
Hypothesis Inv_trans : forall a b c, Inv a b -> Inv b c -> Inv a c.
Variable N : list string.
Variable w0 : World.

Lemma poses_pure (G : World -> World) :
  (forall w, bones (G w) = bones w) -> poses Inv N w0 (fun w => Ok (G w)).
Proof.
  intros HG w Hw. exists (G w). split; [done|]. unfold sameBones. rewrite HG.
  split; [exact Hw|]. intros name b Hb. exists b. by repeat split.
Qed.

Lemma poses_skip : poses Inv N w0 skip.
Proof. by apply (poses_pure (fun w => w)). Qed.

Lemma poses_assign (f : Locomotion -> Locomotion) : poses Inv N w0 (assign f).
Proof. by apply (poses_pure (setLocomotion f)). Qed.

Lemma poses_moveMesh (f : Vector3 -> Vector3) : poses Inv N w0 (moveMesh f).
Proof. by apply (poses_pure (setMesh f)). Qed.

Lemma poses_setState (s : LocoState) : poses Inv N w0 (setState s).
Proof. by apply (poses_pure (setBehaviorState s)). Qed.

Lemma poses_seq (a1 a2 : Action) :
  poses Inv N w0 a1 -> poses Inv N w0 a2 -> poses Inv N w0 (a1 >> a2).
Proof.
  intros Ha Hb w Hw. destruct (Ha w Hw) as (w1 & E1 & S1 & B1).
  destruct (Hb w1 S1) as (w2 & E2 & S2 & B2).
  exists w2. unfold seqA. rewrite E1. split; [exact E2|]. split; [exact S2|].
  intros name b0 Hnb. destruct (B1 name b0 Hnb) as (b1 & Hb1 & I1 & F1).
  destruct (B2 name b1 Hb1) as (b2 & Hb2 & I2 & F2).
  exists b2. split; [exact Hb2|]. split; [by eapply Inv_trans|].
  intros Hn. by rewrite (F2 Hn), (F1 Hn).
Qed.

Lemma poses_withLoco (k : Locomotion -> Action) :
  (forall l, poses Inv N w0 (k l)) -> poses Inv N w0 (withLoco k).
Proof. intros Hk w Hw. unfold withLoco. by apply Hk. Qed.

Lemma poses_withMesh (k : option Vector3 -> Action) :
  (forall m, poses Inv N w0 (k m)) -> poses Inv N w0 (withMesh k).
Proof. intros Hk w Hw. unfold withMesh. by apply Hk. Qed.

Lemma poses_random (rand : nat -> R) (k : R -> Action) :
  (forall r, poses Inv N w0 (k r)) -> poses Inv N w0 (random rand k).
Proof.
  intros Hk w Hw. unfold random.
  exact (Hk (rand (randomCursor w)) (setRandomCursor (S (randomCursor w)) w) Hw).
Qed.

Lemma poses_letBone (name : string) (k : BoneRef -> Action) :
  name ∈ N -> (forall x, refIn N w0 x -> poses Inv N w0 (k x)) ->
  poses Inv N w0 (letBone name k).
Proof.
  intros Hn Hk w Hw. unfold letBone. apply Hk; [|exact Hw].
  destruct (bones w !! name) as [b|] eqn:E; [|exact Logic.I].
  split; [|exact Hn]. apply elem_of_dom. rewrite <- Hw. apply elem_of_dom. by rewrite E.
Qed.

(** A name the dictionary does not have reads as [undefined]. *)
Lemma poses_letBone_absent (name : string) (k : BoneRef -> Action) :
  bones w0 !! name = None -> poses Inv N w0 (k None) -> poses Inv N w0 (letBone name k).
Proof.
  intros Hn Hk w Hw. unfold letBone.
  assert (E : bones w !! name = None).
  { apply not_elem_of_dom. rewrite Hw. by apply not_elem_of_dom. }
  rewrite E. by apply Hk.
Qed.

Lemma poses_writeBone (name : string) (f : Bone -> Bone) :
  refIn N w0 (Some name) -> (forall b, Inv b (f b)) ->
  poses Inv N w0 (writeBone (Some name) f).
Proof.
  intros [Hv Hn] Hf w Hw. unfold writeBone.
  assert (Hin : is_Some (bones w !! name)).
  { apply elem_of_dom. rewrite Hw. apply elem_of_dom. exact Hv. }
  destruct Hin as [b Hb]. rewrite Hb. eexists. split; [reflexivity|]. split.
  - unfold sameBones in *. cbn. rewrite dom_insert_L, <- Hw.
    assert (Hd : name ∈ dom (bones w)) by (apply elem_of_dom; by rewrite Hb).
    apply subseteq_union_1_L, singleton_subseteq_l, Hd.
  - intros name' b' Hb'. cbn [bones setBones].
    destruct (decide (name' = name)) as [->|Hne].
    + rewrite lookup_insert_eq. rewrite Hb in Hb'. injection Hb' as <-.
      exists (f b). split; [done|]. split; [apply Hf|]. intros Hnot. contradiction.
    + rewrite lookup_insert_ne by congruence. exists b'. by repeat split.
Qed.
End Poses.

Ltac poses_step side :=
  lazymatch goal with
  | |- poses _ _ _ (_ >> _) => apply poses_seq; [assumption | | ]
  | |- poses _ _ _ skip => apply poses_skip; assumption
  | |- poses _ _ _ (letBone _ _) =>
      first [ apply poses_letBone_absent; [assumption | cbn [ifBone orBone]]
            | apply poses_letBone;
              [unfold posedBones; in_list | intros [?|] ?; cbn [ifBone orBone]] ]
  | |- poses _ _ _ (writeBone (Some _) _) =>
      apply poses_writeBone; [assumption | assumption | side]
  | |- poses _ _ _ (withLoco _) => apply poses_withLoco; intros ?
  | |- poses _ _ _ (withMesh _) => apply poses_withMesh; intros ?
  | |- poses _ _ _ (assign _) => apply poses_assign; assumption
  | |- poses _ _ _ (random _ _) => apply poses_random; intros ?
  | |- poses _ _ _ (moveMesh _) => apply poses_moveMesh; assumption
  | |- poses _ _ _ (setState _) => apply poses_setState; assumption
  | |- poses _ _ _ (if ?c then _ else _) => destruct c
  | |- poses _ _ _ (match ?c with _ => _ end) => destruct c
  | |- poses _ _ _ (let _ := _ in _) => cbv zeta
  | |- poses _ _ _ _ => unfold_loco
  end.

Ltac poses_all side := repeat (poses_step side).

Lemma localOnly_refl b : localOnly b b.
Proof. done. Qed.

Lemma localOnly_trans a b c : localOnly a b -> localOnly b c -> localOnly a c.
Proof. unfold localOnly. congruence. Qed.

Lemma rotationOnly_refl b : rotationOnly b b.
Proof. done. Qed.

Lemma rotationOnly_trans a b c : rotationOnly a b -> rotationOnly b c -> rotationOnly a c.
Proof. unfold rotationOnly. intros [? ?] [? ?]. split; congruence. Qed.

(** Every write of [update] goes to the position or the rotation of a
    bone the locomotion has looked up by name. *)
Lemma update_poses (rand : nat -> R) (dt : R) (w : World) :
  poses localOnly posedBones w (ElephantLocomotion.update rand dt).
Proof.
  pose proof localOnly_refl as Ir. pose proof localOnly_trans as It.
  unfold ElephantLocomotion.update.
  apply poses_letBone; [unfold posedBones; in_list|]. intros [root|] Hroot.
  - apply poses_withMesh. intros [m|]; [|by apply poses_skip].
    poses_all ltac:(intros; reflexivity).
  - apply poses_withMesh. intros [m|]; by apply poses_skip.
Qed.

(** X19.  [ElephantLocomotion.update] poses the bones it names and
    nothing else: it never adds or removes a bone, it writes positions and
    rotations and never a world matrix, and a bone whose name is not one of
    the 22 names the locomotion looks up (a tusk, a foot, a collarbone, ...)
    comes out exactly as it went in. *)
Theorem update_poses_named_bones (rand : nat -> R) (dt : R) (w : World) :
  exists w', ElephantLocomotion.update rand dt w = Ok w'
    /\ dom (bones w') = dom (bones w)
    /\ forall name b, bones w !! name = Some b ->
         exists b', bones w' !! name = Some b'
           /\ matrixWorld b' = matrixWorld b
           /\ (name ∉ posedBones -> b' = b).
Proof.
  destruct (update_poses rand dt w w eq_refl) as (w' & E & S & B).
  exists w'. by repeat split.
Qed.

Lemma not_in_list (x : string) (l : list string) :
  forallb (fun y => bool_decide (x <> y)) l = true -> x ∉ l.
Proof.
  induction l as [|y l IH]; simpl; [intros _; apply not_elem_of_nil|].
  intros H. apply andb_prop in H as [H1 H2]. apply bool_decide_eq_true_1 in H1.
  rewrite not_elem_of_cons. split; [exact H1 | by apply IH].
Qed.

(** X20.  The walk pose looks the legs up under names
    ([front_left_upper_leg], [front_left_lower_leg], ...) that
    [ElephantDefinition] does not have, and the locomotion looks up none of
    the names the definition gives the leg bones ([front_left_upper],
    [front_left_lower], [front_left_foot], ...): in every world and every
    frame, [update] returns the twelve leg bones of the definition exactly
    as it found them. *)
Theorem definition_legs_never_posed (rand : nat -> R) (dt : R) (w : World) :
  Forall (fun name => name ∉ definitionNames) legPoseBones
  /\ Forall (fun name => name ∈ definitionNames) definitionLegBones
  /\ exists w', ElephantLocomotion.update rand dt w = Ok w'
       /\ Forall (fun name => bones w' !! name = bones w !! name) definitionLegBones.
Proof.
  split; [|split].
  - unfold legPoseBones. repeat constructor; apply not_in_list; vm_compute; reflexivity.
  - unfold definitionLegBones, definitionNames, ElephantDefinition. cbn [map fst snd].
    repeat constructor; in_list.
  - destruct (update_poses rand dt w w eq_refl) as (w' & E & S & B).
    exists w'. split; [exact E|].
    assert (HF : forall name, name ∉ posedBones -> bones w' !! name = bones w !! name).
    { intros name Hn. destruct (bones w !! name) as [b|] eqn:Hb.
      - destruct (B name b Hb) as (b' & Hb' & _ & F). by rewrite Hb', (F Hn).
      - apply not_elem_of_dom. rewrite S. by apply not_elem_of_dom. }
    unfold definitionLegBones.
    repeat constructor; apply HF, not_in_list; vm_compute; reflexivity.
Qed.

(** ** Where a frame puts the root bone *)

(** A statement that writes rotations keeps the root where it is. *)
Lemma wp_rotations (a : Action) (h : R) (w0 w : World) :
  poses rotationOnly posedBones w a ->
  rootPlaced h w0 w -> wp a (rootPlaced h w0) w.
Proof.
  intros Hp (Hdom & b & Hb & Hz & Hx & Hy). destruct (Hp w eq_refl) as (w' & E & S & B).
  apply wp_Ok. exists w'. split; [exact E|].
  destruct (B "spine_base" b Hb) as (b' & Hb' & [Hpos _] & _).
  split; [by rewrite S|]. exists b'. by rewrite Hpos.
Qed.

Lemma sin_bound (x k : R) : 0 <= k -> Rabs (sin x * k) <= k.
Proof.
  intros Hk. pose proof (SIN_bound x) as [H1 H2]. apply Rabs_le. split; nra.
Qed.

Lemma dom_write (name : string) (b b' : Bone) (m : gmap string Bone) :
  m !! name = Some b -> dom (<[name := b']> m) = dom m.
Proof.
  intros Hb. rewrite dom_insert_L.
  assert (Hd : name ∈ dom m) by (apply elem_of_dom; eauto).
  apply subseteq_union_1_L, singleton_subseteq_l, Hd.
Qed.

Ltac rotations :=
  pose proof rotationOnly_refl as Ir; pose proof rotationOnly_trans as It;
  poses_all ltac:(intros; split; reflexivity).

(** [updateIdle] puts the root at [(sway, baseHeight + breathe, 0)]. *)
Lemma updateIdle_root (dt : R) (w : World) :
  is_Some (bones w !! "spine_base") ->
  wp (ElephantLocomotion.updateIdle dt (Some "spine_base"))
     (rootPlaced (baseHeight (locomotion w)) w) w.
Proof.
  intros [b Hb]. unfold ElephantLocomotion.updateIdle.
  apply wp_seq, wp_withLoco, wp_assign, wp_withLoco. cbv zeta.
  set (w1 := setLocomotion _ w).
  apply wp_seq. eapply wp_writeBone; [exact Hb|].
  apply wp_rotations; [rotations|].
  split; [cbn [bones setBones]; by eapply dom_write|].
  eexists. split; [cbn [bones setBones]; apply lookup_insert_eq|].
  cbn [position setPosition vx vy vz].
  split; [reflexivity|]. split; [apply sin_bound; lra|].
  replace (baseHeight (locomotion w1)) with (baseHeight (locomotion w)) by reflexivity.
  match goal with
  | |- Rabs (?h + ?s - ?h) <= _ => replace (h + s - h) with s by ring
  end.
  eapply Rle_trans; [apply sin_bound; lra|lra].
Qed.

(** [updateCurious] puts the root at [(0, baseHeight, 0)]. *)
Lemma updateCurious_root (dt : R) (w : World) :
  is_Some (bones w !! "spine_base") ->
  wp (ElephantLocomotion.updateCurious dt (Some "spine_base"))
     (rootPlaced (baseHeight (locomotion w)) w) w.
Proof.
  intros [b Hb]. unfold ElephantLocomotion.updateCurious.
  apply wp_withLoco. apply wp_seq. eapply wp_writeBone; [exact Hb|].
  assert (Hv : refIn posedBones
                 (setBones <["spine_base" := setPosition
                      (mkV3 0 (baseHeight (locomotion w)) 0) b]> w)
                 (Some "spine_base")).
  { split; [cbn [bones setBones]; rewrite lookup_insert_eq; eauto
           | unfold posedBones; in_list]. }
  apply wp_rotations; [rotations|].
  split; [cbn [bones setBones]; by eapply dom_write|].
  eexists. split; [cbn [bones setBones]; apply lookup_insert_eq|].
  cbn [position setPosition vx vy vz].
  split; [reflexivity|]. split; [rewrite Rabs_R0; lra|].
  replace (baseHeight (locomotion w) - baseHeight (locomotion w)) with 0 by ring.
  rewrite Rabs_R0. lra.
Qed.

(** [updateWalk] puts the root at [(0, baseHeight + bobMain, 0)]. *)
Lemma updateWalk_root (rand : nat -> R) (dt : R) (w : World) :
  is_Some (bones w !! "spine_base") ->
  wp (ElephantLocomotion.updateWalk rand dt (Some "spine_base"))
     (rootPlaced (baseHeight (locomotion w)) w) w.
Proof.
  intros [b Hb]. unfold ElephantLocomotion.updateWalk.
  do 2 (apply wp_seq; apply wp_withLoco; apply wp_assign).
  cbv zeta. set (w2 := setLocomotion _ (setLocomotion _ w)).
  apply wp_seq.
  apply (wp_mono _ (fun w3 =>
    bones w3 = bones w /\ baseHeight (locomotion w3) = baseHeight (locomotion w))).
  2:{ apply wp_withMesh, wp_withLoco. cbv zeta.
      match goal with |- wp (if ?c then _ else _) _ _ => destruct c end.
      - apply wp_seq, wp_assign, wp_withLoco.
        unfold ElephantLocomotion.turnToward. apply wp_withLoco. cbv zeta.
        unfold ElephantLocomotion.rotateDirection. apply wp_withLoco, wp_assign. by split.
      - apply wp_random.
        match goal with |- wp (if ?c then _ else _) _ _ => destruct c end.
        + apply wp_random, wp_withLoco. cbv zeta.
          unfold ElephantLocomotion.rotateDirection. apply wp_withLoco, wp_assign.
          by split.
        + apply wp_skip. by split. }
  intros w3 [Hb3 Hh3].
  apply wp_seq, wp_withLoco, wp_moveMesh, wp_withLoco. cbv zeta.
  set (w4 := setMesh _ w3).
  assert (Hb4 : bones w4 !! "spine_base" = Some b) by (cbn [bones w4 setMesh]; by rewrite Hb3).
  apply wp_seq. eapply wp_writeBone; [exact Hb4|].
  apply wp_seq, wp_seq.
  eapply wp_writeBone; [cbn [bones setBones]; apply lookup_insert_eq|].
  eapply wp_writeBone; [cbn [bones setBones]; apply lookup_insert_eq|].
  apply wp_rotations; [rotations|].
  split.
  { cbn [bones setBones w4 setMesh]. rewrite !insert_insert_eq, Hb3. by eapply dom_write. }
  eexists. split; [cbn [bones setBones]; apply lookup_insert_eq|].
  cbn [position setPosition setRotZ setRotY vx vy vz].
  split; [reflexivity|]. split; [rewrite Rabs_R0; lra|].
  replace (baseHeight (locomotion w4)) with (baseHeight (locomotion w)) by exact (eq_sym Hh3).
  match goal with
  | |- Rabs (?h + ?s - ?h) <= _ => replace (h + s - h) with s by ring
  end.
  apply sin_bound. lra.
Qed.

Lemma rootPlaced_locomotion (h : R) (w0 w' : World) (f : Locomotion -> Locomotion) :
  rootPlaced h w0 w' -> rootPlaced h w0 (setLocomotion f w').
Proof. done. Qed.

(** The state machine block changes neither bones nor base height. *)
Lemma transition_returns (rand : nat -> R) (w : World) :
  wp (ElephantLocomotion.transition rand)
     (fun w' => bones w' = bones w
                /\ baseHeight (locomotion w') = baseHeight (locomotion w)) w.
Proof.
  unfold ElephantLocomotion.transition. apply wp_withLoco.
  destruct (Rle_dec (_stateTimer (locomotion w)) 0) as [Hexp|Hno].
  - destruct (state (locomotion w)).
    + apply wp_seq, wp_random.
      destruct (Rlt_dec (rand (randomCursor w)) 0.65);
        [|destruct (Rlt_dec (rand (randomCursor w)) 0.9)];
        repeat wp_step; by split.
    + repeat wp_step. by split.
    + repeat wp_step. by split.
  - by apply wp_skip.
Qed.

(** X21.  Every frame that the locomotion runs puts the root bone back
    in place: after [update(dt)] with the root bone and the mesh present,
    [spine_base.position] has [z = 0], [x] within 0.02 of 0 and [y] within
    0.06 of [baseHeight], whatever the state, the frame time and the
    position before the frame were. *)
Theorem update_places_root (rand : nat -> R) (dt : R) (w : World) :
  is_Some (bones w !! "spine_base") -> is_Some (mesh w) ->
  exists w' b', ElephantLocomotion.update rand dt w = Ok w'
    /\ bones w' !! "spine_base" = Some b'
    /\ vz (position b') = 0
    /\ Rabs (vx (position b')) <= 0.02
    /\ Rabs (vy (position b') - baseHeight (locomotion w)) <= 0.06.
Proof.
  intros [b Hb] [m Hm].
  cut (wp (ElephantLocomotion.update rand dt) (rootPlaced (baseHeight (locomotion w)) w) w).
  { intros H. apply wp_Ok in H as (w' & E & _ & b' & H). exists w', b'. by split. }
  unfold ElephantLocomotion.update, letBone. apply wp_withMesh. rewrite Hb, Hm.
  do 2 (apply wp_seq, wp_withLoco, wp_assign).
  set (w1 := setLocomotion _ (setLocomotion _ w)).
  apply wp_seq. eapply wp_mono; [|apply transition_returns].
  intros w2 [Hb2 Hh2]. cbv beta in Hb2, Hh2.
  assert (Hroot : is_Some (bones w2 !! "spine_base")) by (rewrite Hb2; cbn; eauto).
  assert (Hdom : dom (bones w2) = dom (bones w)) by (by rewrite Hb2).
  assert (Hh : baseHeight (locomotion w2) = baseHeight (locomotion w)) by (by rewrite Hh2).
  apply wp_seq.
  apply (wp_mono _ (rootPlaced (baseHeight (locomotion w)) w)).
  { intros w3 H3. apply wp_rotations; [rotations|exact H3]. }
  apply wp_withLoco.
  assert (HT : forall w', rootPlaced (baseHeight (locomotion w2)) w2 w' ->
                          rootPlaced (baseHeight (locomotion w)) w w').
  { intros w' [D H]. rewrite Hh in H. split; [by rewrite D|exact H]. }
  destruct (state (locomotion w2)).
  - eapply wp_mono; [exact HT|]. by apply updateIdle_root.
  - unfold ElephantLocomotion.updateWander. apply wp_withLoco. cbv zeta.
    apply wp_seq, wp_assign, wp_seq.
    eapply wp_mono; [|apply updateWalk_root; exact Hroot].
    intros w3 H3. apply wp_assign. apply rootPlaced_locomotion. by apply HT.
  - eapply wp_mono; [exact HT|]. by apply updateCurious_root.
Qed.

Lemma update_places_root_witness :
  exists w' b', ElephantLocomotion.update (fun _ => 0.5) 0.016 rootWorld = Ok w'
    /\ bones w' !! "spine_base" = Some b'
    /\ vz (position b') = 0.
Proof.
  destruct (update_places_root (fun _ => 0.5) 0.016 rootWorld)
    as (w' & b' & E & Hb & Hz & _).
  - eexists. apply lookup_singleton_eq.
  - eexists. reflexivity.
  - exists w', b'. split; [exact E|]. split; [exact Hb | exact Hz].
Defined.

(** ** The springs at low frame rates *)

Lemma springRunAt_S (dt target : R) (n : nat) :
  springRunAt dt target (S n)
  = ElephantLocomotion.springStep 10.0 5.0 dt target (springRunAt dt target n).
Proof. reflexivity. Qed.

(** From the first frame on, error and velocity have the same sign, which
    flips every frame, and both grow by the factor 1.5 at least. *)
Lemma spring_growth (dt target : R) (n : nat) :
  0.4 <= dt -> 0 < target ->
  exists sigma, (sigma = 1 \/ sigma = -1)
    /\ 0.6 * target * 1.5 ^ n <= sigma * (angle (springRunAt dt target (S n)) - target)
    /\ 4 * target * 1.5 ^ n <= sigma * velocity (springRunAt dt target (S n)).
Proof.
  intros Hdt HT. induction n as [|n (sigma & Hs & He & Hv)].
  - exists 1. split; [by left|].
    rewrite springRunAt_S. change (springRunAt dt target 0) with (mkSpring 0 0).
    cbn [ElephantLocomotion.springStep angle velocity].
    change (1.5 ^ 0) with 1.
    assert (Hd2 : 0.16 <= dt * dt) by nra.
    assert (Hd3 : 0.16 * target <= dt * dt * target) by nra.
    assert (Hd4 : 0.4 * target <= dt * target) by nra.
    split; lra.
  - rewrite springRunAt_S.
    set (s := springRunAt dt target (S n)) in *.
    set (g := 1.5 ^ n) in *.
    assert (Hg : 0 < g) by (apply pow_lt; lra).
    replace (1.5 ^ S n) with (1.5 * g) by (subst g; simpl; ring).
    set (x := sigma * (angle s - target)) in *.
    set (y := sigma * velocity s) in *.
    assert (Hx : 0 <= x) by nra. assert (Hy : 0 <= y) by nra.
    assert (Sq : sigma * sigma = 1) by (destruct Hs as [-> | ->]; ring).
    exists (- sigma). split; [destruct Hs as [-> | ->]; [right|left]; ring|].
    cbn [ElephantLocomotion.springStep angle velocity].
    assert (Ev : - sigma * (velocity s + ((target - angle s) * 10.0
                                          - velocity s * 5.0) * dt)
                 = (5 * dt - 1) * y + 10 * dt * x) by (subst x y; lra).
    assert (Ee : - sigma * (angle s + (velocity s + ((target - angle s) * 10.0
                                                    - velocity s * 5.0) * dt) * dt - target)
                 = (10 * dt * dt - 1) * x + dt * (5 * dt - 1) * y) by (subst x y; lra).
    rewrite Ev, Ee.
    assert (C1 : 1 <= 5 * dt - 1) by lra.
    assert (C2 : 4 <= 10 * dt) by lra.
    assert (C3 : 0.6 <= 10 * dt * dt - 1) by nra.
    assert (C4 : 0.4 <= dt * (5 * dt - 1)) by nra.
    assert (P1 : y <= (5 * dt - 1) * y) by nra.
    assert (P2 : 4 * x <= 10 * dt * x) by nra.
    assert (P3 : 0.6 * x <= (10 * dt * dt - 1) * x) by nra.
    assert (P4 : 0.4 * y <= dt * (5 * dt - 1) * y) by nra.
    split; nra.
Qed.

(** X22.  The springs have no bound on the frame time: in frames of 0.4
    s or longer toward a constant positive target (the state [wander]), a
    spring channel starting at rest overshoots further each frame, the
    distance to the target and the speed both growing by the factor 1.5 at
    least from one frame to the next. *)
Theorem spring_diverges_on_long_frames (dt target : R) (n : nat) :
  0.4 <= dt -> 0 < target ->
  0.6 * target * 1.5 ^ n <= Rabs (angle (springRunAt dt target (S n)) - target)
  /\ 4 * target * 1.5 ^ n <= Rabs (velocity (springRunAt dt target (S n))).
Proof.
  intros Hdt HT.
  destruct (spring_growth dt target n Hdt HT) as (sigma & Hs & He & Hv).
  split.
  - eapply Rle_trans; [exact He|].
    destruct Hs as [-> | ->].
    + rewrite Rmult_1_l. apply Rle_abs.
    + replace (-1 * (angle (springRunAt dt target (S n)) - target))
        with (- (angle (springRunAt dt target (S n)) - target)) by ring.
      rewrite <- Rabs_Ropp. apply Rle_abs.
  - eapply Rle_trans; [exact Hv|].
    destruct Hs as [-> | ->].
    + rewrite Rmult_1_l. apply Rle_abs.
    + replace (-1 * velocity (springRunAt dt target (S n)))
        with (- velocity (springRunAt dt target (S n))) by ring.
      rewrite <- Rabs_Ropp. apply Rle_abs.
Qed.

Lemma spring_diverges_on_long_frames_witness :
  0.6 * 0.14 * 1.5 ^ 3 <= Rabs (angle (springRunAt 0.5 0.14 4) - 0.14).
Proof. apply (spring_diverges_on_long_frames 0.5 0.14 3); lra. Defined.

(** ** The springs at usual frame rates *)

(** One frame of at most 0.3 s does not raise the energy. *)
Lemma springEnergyAt_step (dt target : R) (s : Spring) :
  0 <= dt <= 0.3 ->
  springEnergyAt target (ElephantLocomotion.springStep 10.0 5.0 dt target s)
  <= springEnergyAt target s.
Proof.
  intros [H0 H1]. unfold springEnergyAt, ElephantLocomotion.springStep.
  cbn [angle velocity].
  set (e := angle s - target). set (v := velocity s).
  replace (angle s + (v + ((target - angle s) * 10.0 - v * 5.0) * dt) * dt - target)
    with ((1 - 10 * dt * dt) * e + (1 - 5 * dt) * dt * v) by (subst e; lra).
  replace (v + ((target - angle s) * 10.0 - v * 5.0) * dt)
    with (- 10 * dt * e + (1 - 5 * dt) * v) by (subst e; lra).
  clearbody e v.
  destruct (Req_dec dt 0) as [->|Hne].
  { right. ring. }
  assert (Hdt : 0 < dt) by lra.
  set (A := - 50 * dt * (1 + 2 * dt) * (1 - 10 * dt * dt)).
  set (B := - 25 * dt - 100 * dt ^ 2 + 300 * dt ^ 3 + 1000 * dt ^ 4).
  set (C := - 5 * dt - 15 * dt ^ 2 + 25 * dt ^ 3 + 250 * dt ^ 4).
  assert (HA : A < 0).
  { subst A. assert (0 < 1 - 10 * dt * dt) by nra.
    assert (0 < dt * (1 + 2 * dt)) by nra.
    assert (0 < dt * (1 + 2 * dt) * (1 - 10 * dt * dt)) by (apply Rmult_lt_0_compat; lra).
    lra. }
  assert (HD : B * B - 4 * A * C <= 0).
  { replace (B * B - 4 * A * C) with (dt * dt * (4000 * dt * dt - 375))
      by (subst A B C; ring).
    assert (4000 * dt * dt - 375 <= 0) by nra.
    assert (0 <= dt * dt) by nra. nra. }
  assert (HQ : 4 * A * (A * (e * e) + B * (e * v) + C * (v * v))
               = (2 * A * e + B * v) ^ 2 - (B * B - 4 * A * C) * (v * v)) by ring.
  assert (HP : 0 <= 4 * A * (A * (e * e) + B * (e * v) + C * (v * v))).
  { rewrite HQ. pose proof (pow2_ge_0 (2 * A * e + B * v)).
    assert (0 <= v * v) by nra. nra. }
  assert (HN : A * (e * e) + B * (e * v) + C * (v * v) <= 0) by nra.
  replace (10 * ((1 - 10 * dt * dt) * e + (1 - 5 * dt) * dt * v) ^ 2
           + 5 * ((1 - 10 * dt * dt) * e + (1 - 5 * dt) * dt * v)
             * (- 10 * dt * e + (1 - 5 * dt) * v)
           + (- 10 * dt * e + (1 - 5 * dt) * v) ^ 2)
    with (10 * e ^ 2 + 5 * e * v + v ^ 2
          + (A * (e * e) + B * (e * v) + C * (v * v))) by (subst A B C; ring).
  lra.
Qed.

Lemma springEnergyAt_frames (target : R) (dts : list R) (s : Spring) :
  Forall (fun dt => 0 <= dt <= 0.3) dts ->
  springEnergyAt target (springFrames target dts s) <= springEnergyAt target s.
Proof.
  intros H. revert s. induction H as [|dt dts Hdt _ IH]; intros s; simpl.
  - lra.
  - eapply Rle_trans; [apply IH|]. by apply springEnergyAt_step.
Qed.

(** X23.  In frames of at most 0.3 s each, of whatever lengths, a spring
    channel held at a constant target never gains energy:
    [10 e^2 + 5 e v + v^2], with [e = angle - target] and [v] the velocity,
    does not grow from frame to frame.  From rest at 0 the angle therefore
    stays within [sqrt(8/3) * |target|] of the target and the velocity
    within [sqrt(80/3) * |target|] of 0. *)
Theorem spring_bounded_on_short_frames (target : R) (dts : list R) :
  Forall (fun dt => 0 <= dt <= 0.3) dts ->
  let s := springFrames target dts (mkSpring 0 0) in
  springEnergyAt target s <= 10 * target ^ 2
  /\ 3 * (angle s - target) ^ 2 <= 8 * target ^ 2
  /\ 3 * velocity s ^ 2 <= 80 * target ^ 2.
Proof.
  intros H s.
  assert (HE : springEnergyAt target s <= 10 * target ^ 2).
  { eapply Rle_trans; [by apply springEnergyAt_frames|].
    unfold springEnergyAt. cbn [angle velocity]. right. ring. }
  split; [exact HE|]. unfold springEnergyAt in HE.
  set (e := angle s - target) in *. set (v := velocity s) in *. clearbody e v.
  split.
  - pose proof (pow2_ge_0 (v + 5 / 2 * e)). nra.
  - pose proof (pow2_ge_0 (e + v / 4)). nra.
Qed.

Lemma spring_bounded_on_short_frames_witness :
  3 * (angle (springFrames 0.14 [0.016; 0.033; 0.25] (mkSpring 0 0)) - 0.14) ^ 2
  <= 8 * 0.14 ^ 2.
Proof.
  apply (spring_bounded_on_short_frames 0.14 [0.016; 0.033; 0.25]).
  repeat constructor; lra.
Defined.

(** ** Fur strands *)

Lemma addScaled_unit_distance (p d : Vector3) (s : R) :
  V3.lengthSq d = 1 -> V3.distanceTo (V3.addScaledVector p d s) p = Rabs s.
Proof.
  intros Hd. unfold V3.distanceTo, V3.length.
  replace (V3.lengthSq (V3.sub (V3.addScaledVector p d s) p))
    with (V3.lengthSq d * (s * s)).
  - rewrite Hd, Rmult_1_l. apply sqrt_Rsqr_abs.
  - unfold V3.lengthSq, V3.sub, V3.addScaledVector. cbn [vx vy vz]. ring.
Qed.

(** The tip of a new strand on a normal that is not zero. *)
Lemma FurStrand_new_root_tip (rootPos rootNormal : Vector3) (length0 : R) :
  rootNormal <> zeroV ->
  V3.lengthSq (FurStrand.normal (FurStrand.new rootPos rootNormal length0)) = 1
  /\ V3.distanceTo (FurStrand.tip (FurStrand.new rootPos rootNormal length0))
                   (FurStrand.root (FurStrand.new rootPos rootNormal length0))
     = Rabs length0.
Proof.
  intros Hn. pose proof (lengthSq_normalize rootNormal Hn) as Hu.
  split; [exact Hu|]. by apply addScaled_unit_distance.
Qed.

(** X24.  A new strand on a normal that is not the zero vector stores the
    unit normal and puts its tip at the distance [|length|] from its root;
    on the zero normal the tip is the root. *)
Theorem FurStrand_new_length (rootPos rootNormal : Vector3) (length0 : R) :
  let s := FurStrand.new rootPos rootNormal length0 in
  FurStrand.root s = rootPos /\ FurStrand.length s = length0
  /\ FurStrand.velocity s = mkV3 0 0 0
  /\ (rootNormal <> zeroV ->
      V3.lengthSq (FurStrand.normal s) = 1
      /\ V3.distanceTo (FurStrand.tip s) (FurStrand.root s) = Rabs length0)
  /\ (rootNormal = zeroV -> FurStrand.tip s = FurStrand.root s).
Proof.
  intros s. split; [reflexivity|]. split; [reflexivity|]. split; [reflexivity|]. split.
  - intros Hn. by apply FurStrand_new_root_tip.
  - intros ->. subst s. unfold FurStrand.new. cbn [FurStrand.tip FurStrand.root].
    rewrite normalize_zero. unfold V3.addScaledVector, zeroV. cbn [vx vy vz].
    destruct rootPos as [x y z]. cbn [vx vy vz]. f_equal; ring.
Qed.

Lemma sub_eq_zero (a b : Vector3) : V3.sub a b = zeroV -> a = b.
Proof.
  destruct a as [x y z], b as [x' y' z']. unfold V3.sub, zeroV. cbn [vx vy vz].
  intros E. injection E as E1 E2 E3. f_equal; lra.
Qed.

(** X25.  [FurStrand.update] keeps the strand at its length: after the
    call the root and the normal are the ones passed in, the length is
    unchanged, and the tip is at the distance [|length|] from the new root;
    only when the spring, damping and gravity have carried the tip exactly
    onto the new root does it stay there. *)
Theorem FurStrand_update_length (newRoot newNormal : Vector3) (dt : R)
    (params : FurParams) (s : FurStrand.FurStrand) :
  let s' := FurStrand.update newRoot newNormal dt params s in
  let moved := (FurStrand.integrate newRoot newNormal dt params s).1 in
  FurStrand.root s' = newRoot /\ FurStrand.normal s' = newNormal
  /\ FurStrand.length s' = FurStrand.length s
  /\ FurStrand.velocity s' = (FurStrand.integrate newRoot newNormal dt params s).2
  /\ (moved <> newRoot ->
      V3.distanceTo (FurStrand.tip s') (FurStrand.root s') = Rabs (FurStrand.length s))
  /\ (moved = newRoot -> FurStrand.tip s' = newRoot).
Proof.
  intros s' moved. subst s' moved. unfold FurStrand.update.
  destruct (FurStrand.integrate newRoot newNormal dt params s) as [tip' velocity'].
  cbn [fst snd FurStrand.root FurStrand.normal FurStrand.length FurStrand.velocity
       FurStrand.tip].
  split; [reflexivity|]. split; [reflexivity|]. split; [reflexivity|].
  split; [reflexivity|]. split.
  - intros Hne.
    assert (Hd : V3.sub tip' newRoot <> zeroV).
    { intros E. apply Hne. by apply sub_eq_zero. }
    destruct (Rgt_dec (V3.distanceTo tip' newRoot) 0) as [_|Hn].
    + apply addScaled_unit_distance. by apply lengthSq_normalize.
    + exfalso. apply Hn. unfold V3.distanceTo. by apply length_pos.
  - intros ->.
    destruct (Rgt_dec (V3.distanceTo newRoot newRoot) 0) as [Hgt|_]; [|reflexivity].
    exfalso. unfold V3.distanceTo, V3.length in Hgt.
    replace (V3.lengthSq (V3.sub newRoot newRoot)) with 0 in Hgt
      by (unfold V3.lengthSq, V3.sub; cbn [vx vy vz]; ring).
    rewrite sqrt_0 in Hgt. lra.
Qed.

Lemma integrate_rest (root normal : Vector3) (len dt : R) (k c : option R) :
  FurStrand.integrate root normal dt (mkFurParams (Some (mkV3 0 0 0)) k c)
    (FurStrand.mkFurStrand root normal len (V3.addScaledVector root normal len)
                           (mkV3 0 0 0))
  = (V3.addScaledVector root normal len, mkV3 0 0 0).
Proof.
  unfold FurStrand.integrate.
  cbn [FurStrand.length FurStrand.tip FurStrand.velocity gravity stiffness damping].
  cbv zeta. generalize (default 36 k), (default 8 c). intros kk cc.
  change (default (mkV3 0 (-2.5) 0) (Some (mkV3 0 0 0))) with (mkV3 0 0 0).
  unfold V3.add, V3.multiplyScalar, V3.sub, V3.addScaledVector. cbn [vx vy vz].
  f_equal; f_equal; ring.
Qed.

(** X26.  Without gravity, a strand of positive length at rest along a
    unit normal is a fixed point of [FurStrand.update]: with the velocity 0
    and the tip at [root + normal * length], the call for the same root and
    normal returns the strand as it is, whatever [dt], stiffness and
    damping are. *)
Theorem FurStrand_rest (s : FurStrand.FurStrand) (dt : R) (k c : option R) :
  0 < FurStrand.length s ->
  V3.lengthSq (FurStrand.normal s) = 1 ->
  FurStrand.velocity s = mkV3 0 0 0 ->
  FurStrand.tip s
  = V3.addScaledVector (FurStrand.root s) (FurStrand.normal s) (FurStrand.length s) ->
  FurStrand.update (FurStrand.root s) (FurStrand.normal s) dt
                   (mkFurParams (Some (mkV3 0 0 0)) k c) s = s.
Proof.
  destruct s as [root normal len tip vel].
  cbn [FurStrand.root FurStrand.normal FurStrand.length FurStrand.tip FurStrand.velocity].
  intros Hl Hn -> ->.
  unfold FurStrand.update. rewrite integrate_rest.
  cbn [FurStrand.length].
  assert (Es : V3.sub (V3.addScaledVector root normal len) root
               = V3.multiplyScalar normal len).
  { unfold V3.sub, V3.multiplyScalar, V3.addScaledVector. cbn [vx vy vz]. f_equal; ring. }
  assert (Hdist : V3.distanceTo (V3.addScaledVector root normal len) root = len).
  { rewrite addScaled_unit_distance by exact Hn. apply Rabs_pos_eq. lra. }
  rewrite Hdist. destruct (Rgt_dec len 0) as [_|N]; [|lra].
  rewrite Es.
  assert (En : V3.normalize (V3.multiplyScalar normal len) = normal).
  { assert (HL : V3.length (V3.multiplyScalar normal len) = len).
    { unfold V3.distanceTo in Hdist. by rewrite Es in Hdist. }
    unfold V3.normalize. rewrite HL.
    destruct (Req_dec_T len 0) as [E|_]; [lra|].
    destruct normal as [x y z]. unfold V3.multiplyScalar. cbn [vx vy vz].
    f_equal; field; lra. }
  by rewrite En.
Qed.

Lemma FurStrand_rest_witness :
  FurStrand.update (mkV3 0 0 0) (mkV3 0 1 0) 0.016
    (mkFurParams (Some (mkV3 0 0 0)) None None)
    (FurStrand.mkFurStrand (mkV3 0 0 0) (mkV3 0 1 0) 1
       (V3.addScaledVector (mkV3 0 0 0) (mkV3 0 1 0) 1) (mkV3 0 0 0))
  = FurStrand.mkFurStrand (mkV3 0 0 0) (mkV3 0 1 0) 1
       (V3.addScaledVector (mkV3 0 0 0) (mkV3 0 1 0) 1) (mkV3 0 0 0).
Proof.
  apply (FurStrand_rest
           (FurStrand.mkFurStrand (mkV3 0 0 0) (mkV3 0 1 0) 1
              (V3.addScaledVector (mkV3 0 0 0) (mkV3 0 1 0) 1) (mkV3 0 0 0))
           0.016 None None).
  - cbn. lra.
  - unfold V3.lengthSq. cbn. ring.
  - reflexivity.
  - reflexivity.
Defined.

(** ** Sampling the fur *)

Lemma fold_left_Rplus (l : list R) (a : R) :
  fold_left Rplus l a = a + fold_left Rplus l 0.
Proof.
  revert a. induction l as [|x l IH]; intros a; simpl; [ring|].
  rewrite (IH (a + x)), (IH (0 + x)). ring.
Qed.

Lemma totalArea_cons (a : R) (l : list R) : totalArea (a :: l) = a + totalArea l.
Proof. unfold totalArea. simpl. rewrite fold_left_Rplus. ring. Qed.

Lemma totalArea_nonneg (l : list R) : Forall (fun a => 0 <= a) l -> 0 <= totalArea l.
Proof.
  induction 1 as [|a l Ha _ IH]; [unfold totalArea; simpl; lra|].
  rewrite totalArea_cons. lra.
Qed.

Lemma areaUpTo_S (a : R) (l : list R) (k : nat) :
  areaUpTo (a :: l) (S k) = a + areaUpTo l k.
Proof. unfold areaUpTo. simpl. apply totalArea_cons. Qed.

(** The loop of [pickTri] stops at the first index at which the running
    sum reaches [r]. *)
Lemma pickTriFrom_Some (areas : list R) (r acc : R) (i j : nat) :
  pickTriFrom areas r acc i = Some j ->
  (i <= j < i + length areas)%nat
  /\ r <= acc + areaUpTo areas (S (j - i))
  /\ forall k, (k < j - i)%nat -> acc + areaUpTo areas (S k) < r.
Proof.
  revert acc i. induction areas as [|a l IH]; intros acc i H; simpl in H; [discriminate|].
  destruct (Rle_dec r (acc + a)) as [Hle|Hgt].
  - injection H as <-. rewrite Nat.sub_diag. split; [simpl; lia|].
    split; [|intros k Hk; lia].
    rewrite areaUpTo_S. unfold areaUpTo, totalArea. simpl. lra.
  - apply IH in H as (Hr & Hle & Hlt).
    split; [simpl; lia|].
    replace (j - i)%nat with (S (j - S i)) by lia.
    split.
    + rewrite areaUpTo_S. lra.
    + intros [|k] Hk.
      * rewrite areaUpTo_S. unfold areaUpTo, totalArea. simpl. lra.
      * rewrite areaUpTo_S. specialize (Hlt k ltac:(lia)). lra.
Qed.

Lemma pickTriFrom_None (areas : list R) (r acc : R) (i : nat) :
  pickTriFrom areas r acc i = None -> areas = [] \/ acc + totalArea areas < r.
Proof.
  revert acc i. induction areas as [|a l IH]; intros acc i H; simpl in H; [by left|].
  right. destruct (Rle_dec r (acc + a)) as [Hle|Hgt]; [discriminate|].
  rewrite totalArea_cons. apply IH in H as [->|H].
  - unfold totalArea. simpl. lra.
  - lra.
Qed.

Lemma areaUpTo_step (areas : list R) (k : nat) :
  (k < length areas)%nat -> areaUpTo areas (S k) = areaUpTo areas k + nth k areas 0.
Proof.
  revert k. induction areas as [|a l IH]; intros k Hk; simpl in Hk; [lia|].
  destruct k as [|k].
  - rewrite areaUpTo_S. unfold areaUpTo, totalArea. simpl. ring.
  - rewrite !areaUpTo_S, IH by lia. simpl. ring.
Qed.

(** X27.  [pickTri] picks a triangle with a probability proportional to
    its area: for areas that are not negative and a draw [u] in [[0, 1)] it
    returns the first index [i] at which the running sum of the areas
    reaches [r = u * totalArea], an index of the list, and for [r > 0] the
    triangle it returns has a positive area.  On a mesh without triangles
    it returns -1. *)
Theorem pickTri_picks (areas : list R) (u : R) :
  (areas = [] -> pickTri areas u = (-1)%Z)
  /\ (areas <> [] -> Forall (fun a => 0 <= a) areas -> 0 <= u < 1 ->
      exists i : nat,
        pickTri areas u = Z.of_nat i /\ (i < length areas)%nat
        /\ u * totalArea areas <= areaUpTo areas (S i)
        /\ (forall k, (k < i)%nat -> areaUpTo areas (S k) < u * totalArea areas)
        /\ (0 < u * totalArea areas -> 0 < nth i areas 0)).
Proof.
  split; [intros ->; reflexivity|].
  intros Hne Hpos [Hu0 Hu1]. unfold pickTri. cbv zeta.
  set (r := u * totalArea areas).
  pose proof (totalArea_nonneg areas Hpos) as Ht.
  destruct (pickTriFrom areas r 0 0) as [i|] eqn:E.
  - apply pickTriFrom_Some in E as (Hi & Hle & Hlt).
    rewrite Nat.sub_0_r in Hle, Hlt. rewrite Rplus_0_l in Hle.
    exists i. split; [reflexivity|]. split; [lia|]. split; [exact Hle|].
    split; [intros k Hk; specialize (Hlt k Hk); lra|].
    intros Hr. rewrite areaUpTo_step in Hle by lia.
    destruct i as [|i].
    + unfold areaUpTo, totalArea in Hle. simpl in Hle. lra.
    + specialize (Hlt i ltac:(lia)). lra.
  - apply pickTriFrom_None in E as [E|E]; [contradiction|].
    exfalso. subst r. nra.
Qed.

Lemma pickTri_picks_witness :
  exists i : nat, pickTri [1; 0; 3] 0.5 = Z.of_nat i /\ (i < 3)%nat.
Proof.
  destruct (pickTri_picks [1; 0; 3] 0.5) as [_ H].
  destruct H as (i & E & Hi & _).
  - discriminate.
  - repeat constructor; lra.
  - lra.
  - exists i. split; [exact E | exact Hi].
Defined.

Lemma triangleArea_nonneg (a b c : Vector3) : 0 <= triangleArea a b c.
Proof.
  unfold triangleArea, V3.length. cbv zeta.
  pose proof (sqrt_pos (V3.lengthSq (V3.crossVectors (V3.sub b a) (V3.sub c a)))). lra.
Qed.

Lemma cornerWeights_convex (u v : R) :
  0 <= u < 1 -> 0 <= v < 1 ->
  let '(a, b, c) := cornerWeights u v in
  0 <= a <= 1 /\ 0 <= b <= 1 /\ 0 <= c <= 1 /\ a + b + c = 1.
Proof.
  intros Hu Hv. unfold cornerWeights.
  destruct (Rgt_dec (u + v) 1) as [H|H]; cbv zeta; repeat split; lra.
Qed.

(** X28.  A strand of the fur is rooted inside the triangle picked for
    it: for draws [u], [v], [r] in [[0, 1)] its root is
    [a * pA + b * pB + c * pC] with weights that are not negative and sum
    to 1; its length lies within half the jitter of [strandLength]; and when
    the interpolated normal is not zero, its tip is at the distance
    [|length|] from its root.  The area of a triangle, the weight of
    [pickTri], is never negative. *)
Theorem sampleStrand_in_triangle (pA pB pC nA nB nC : Vector3)
    (strandLength lengthJitter u v r : R) :
  0 <= u < 1 -> 0 <= v < 1 -> 0 <= r < 1 ->
  let s := sampleStrand pA pB pC nA nB nC strandLength lengthJitter u v r in
  0 <= triangleArea pA pB pC
  /\ (exists a b c, 0 <= a /\ 0 <= b /\ 0 <= c /\ a + b + c = 1
        /\ FurStrand.root s
           = mkV3 (a * vx pA + b * vx pB + c * vx pC)
                  (a * vy pA + b * vy pB + c * vy pC)
                  (a * vz pA + b * vz pB + c * vz pC)
        /\ (V3.addScaledVector
              (V3.addScaledVector (V3.addScaledVector (mkV3 0 0 0) nA a) nB b) nC c
            <> zeroV ->
            V3.distanceTo (FurStrand.tip s) (FurStrand.root s)
            = Rabs (FurStrand.length s)))
  /\ Rabs (FurStrand.length s - strandLength) <= Rabs lengthJitter / 2.
Proof.
  intros Hu Hv Hr s.
  split; [apply triangleArea_nonneg|].
  pose proof (cornerWeights_convex u v Hu Hv) as HW.
  subst s. unfold sampleStrand.
  destruct (cornerWeights u v) as [[a b] c].
  destruct HW as (Ha & Hb & Hc & Hsum).
  split.
  - exists a, b, c. split; [lra|]. split; [lra|]. split; [lra|]. split; [exact Hsum|].
    split.
    + unfold FurStrand.new. cbn [FurStrand.root].
      unfold V3.addScaledVector. cbn [vx vy vz]. f_equal; ring.
    + intros Hn.
      assert (Hnz : V3.normalize
                     (V3.addScaledVector
                        (V3.addScaledVector (V3.addScaledVector (mkV3 0 0 0) nA a) nB b)
                        nC c) <> zeroV).
      { intros E. pose proof (lengthSq_normalize _ Hn) as H1.
        rewrite E, lengthSq_zeroV in H1. lra. }
      apply (FurStrand_new_root_tip _ _ _ Hnz).
  - unfold FurStrand.new. cbn [FurStrand.length].
    replace (strandLength + (r - 0.5) * lengthJitter - strandLength)
      with ((r - 0.5) * lengthJitter) by ring.
    rewrite Rabs_mult.
    assert (Rabs (r - 0.5) <= 1 / 2) by (apply Rabs_le; lra).
    pose proof (Rabs_pos lengthJitter). nra.
Qed.

Lemma sampleStrand_in_triangle_witness :
  Rabs (FurStrand.length
          (sampleStrand (mkV3 0 0 0) (mkV3 1 0 0) (mkV3 0 1 0)
                        (mkV3 0 0 1) (mkV3 0 0 1) (mkV3 0 0 1) 0.11 0.04 0.7 0.6 0.25)
        - 0.11) <= Rabs 0.04 / 2.
Proof.
  apply (sampleStrand_in_triangle (mkV3 0 0 0) (mkV3 1 0 0) (mkV3 0 1 0)
           (mkV3 0 0 1) (mkV3 0 0 1) (mkV3 0 0 1) 0.11 0.04 0.7 0.6 0.25); lra.
Defined.

(** ** Flattening the generated parts *)

(** [makeFlat] touches the normals only. *)
Lemma makeFlat_other_attributes (g : BufferGeometry) (name : string) :
  name <> "normal" ->
  attributes (makeFlat g) !! name = attributes (BG.toNonIndexed g) !! name.
Proof.
  intros Hn. unfold makeFlat, BG.computeVertexNormals. cbv zeta.
  set (g1 := BG.deleteAttribute "normal" (BG.toNonIndexed g)).
  assert (E : attributes g1 !! name = attributes (BG.toNonIndexed g) !! name).
  { subst g1. unfold BG.deleteAttribute. cbn [attributes]. by rewrite lookup_delete_ne. }
  destruct (attributes g1 !! "position"); [|exact E].
  unfold BG.setAttribute. cbn [attributes]. by rewrite lookup_insert_ne.
Qed.

Lemma toNonIndexed_index (g : BufferGeometry) : index (BG.toNonIndexed g) = None.
Proof. unfold BG.toNonIndexed. by destruct (index g) eqn:E. Qed.

Lemma toNonIndexed_flat (g : BufferGeometry) : index g = None -> BG.toNonIndexed g = g.
Proof. intros E. unfold BG.toNonIndexed. by rewrite E. Qed.

(** A geometry without index keeps positions and skin binding when it is
    flattened. *)
Lemma makeFlat_keeps_binding (g : BufferGeometry) :
  index g = None -> skinBindingOk g ->
  skinBindingOk (makeFlat g)
  /\ BG.vertexCount (makeFlat g) = BG.vertexCount g
  /\ forall i, BG.positionOf (makeFlat g) i = BG.positionOf g i.
Proof.
  intros Hidx Hok.
  assert (HA : forall name, name <> "normal" ->
                attributes (makeFlat g) !! name = attributes g !! name).
  { intros name Hn. rewrite makeFlat_other_attributes by exact Hn.
    by rewrite toNonIndexed_flat. }
  assert (Hc : BG.vertexCount (makeFlat g) = BG.vertexCount g).
  { unfold BG.vertexCount. by rewrite HA. }
  split; [|split; [exact Hc|]].
  - intros i Hi. rewrite Hc in Hi. destruct (Hok i Hi) as (idx & wt & Hi1 & Hw1 & Hb).
    exists idx, wt. unfold skinIndexOf, skinWeightOf in *.
    rewrite !HA by done. split; [exact Hi1|]. split; [exact Hw1 | exact Hb].
  - intros i. unfold BG.positionOf. by rewrite HA.
Qed.

Lemma finishGeometry_index (verts : list Vertex) (indices : list nat) :
  index (finishGeometry verts indices) = None.
Proof. apply toNonIndexed_index. Qed.

Lemma generator_index (bones : list SkelBone) (options : PartOptions)
    (solid g : BufferGeometry) :
  generateTorsoGeometry bones options = Ok g
  \/ generateLimbGeometry bones options = Ok g
  \/ generateTailGeometry bones options = Ok g
  \/ generateNeckGeometry bones options = Ok g
  \/ generateHeadGeometry bones solid = Ok g ->
  index g = None.
Proof.
  intros [H|[H|[H|[H|H]]]].
  - unfold generateTorsoGeometry in H.
    repeat (apply rbind_Ok in H as (? & _ & H)).
    destruct (decide _) in H; [discriminate|].
    repeat (apply rbind_Ok in H as (? & _ & H)).
    apply Ok_inj in H. subst g. apply finishGeometry_index.
  - unfold generateLimbGeometry in H.
    apply rbind_Ok in H as (? & _ & H).
    destruct (decide _) in H; [discriminate|].
    apply rbind_Ok in H as (? & _ & H).
    destruct (decide _) in H; [discriminate|].
    apply Ok_inj in H. subst g. apply finishGeometry_index.
  - unfold generateTailGeometry in H.
    apply rbind_Ok in H as (? & _ & H).
    destruct (decide _) in H; [discriminate|].
    apply Ok_inj in H. subst g. apply finishGeometry_index.
  - unfold generateNeckGeometry in H.
    repeat (apply rbind_Ok in H as (? & _ & H)).
    apply Ok_inj in H. subst g. apply finishGeometry_index.
  - unfold generateHeadGeometry in H.
    destruct (findBone "spine_neck" bones); [|discriminate].
    destruct (findBone "head" bones) as [[boneIdx ?]|]; [|discriminate].
    destruct (attributes (BG.toNonIndexed solid) !! "position"); [|discriminate].
    apply Ok_inj in H. subst g. unfold BG.setAttribute. cbn [index].
    apply toNonIndexed_index.
Qed.

(** X29.  What [ElephantGenerator.generate] merges still has the skin
    binding of the generators: a geometry returned by a part generator has
    no index, and [makeFlat] of it keeps every vertex, its position and its
    skin indices and weights, so that the flattened part binds every vertex
    through the first two slots with weights that sum to 1. *)
Theorem flat_part_keeps_binding (bones : list SkelBone) (options : PartOptions)
    (solid g : BufferGeometry) :
  generateTorsoGeometry bones options = Ok g
  \/ generateLimbGeometry bones options = Ok g
  \/ generateTailGeometry bones options = Ok g
  \/ generateNeckGeometry bones options = Ok g
  \/ generateHeadGeometry bones solid = Ok g ->
  index g = None
  /\ skinBindingOk (makeFlat g)
  /\ BG.vertexCount (makeFlat g) = BG.vertexCount g
  /\ forall i, BG.positionOf (makeFlat g) i = BG.positionOf g i.
Proof.
  intros H.
  pose proof (generator_index bones options solid g H) as Hidx.
  split; [exact Hidx|]. apply makeFlat_keeps_binding; [exact Hidx|].
  destruct H as [H|[H|[H|[H|H]]]].
  - by eapply generateTorsoGeometry_ok.
  - by eapply generateLimbGeometry_ok.
  - by eapply generateTailGeometry_ok.
  - by eapply generateNeckGeometry_ok.
  - by eapply generateHeadGeometry_ok.
Qed.

Lemma flat_part_keeps_binding_witness :
  exists g, generateTailGeometry twoBones shortTail = Ok g /\ skinBindingOk (makeFlat g).
Proof.
  eexists. split; [reflexivity|].
  apply (flat_part_keeps_binding twoBones shortTail (mkGeo ∅ None)).
  right. right. left. reflexivity.
Defined.

(** ** generateHeadGeometry *)

(** An index below 65536 is stored as it is. *)
Lemma toUint16_small (n : nat) : (Z.of_nat n < 65536)%Z -> toUint16 n = n.
Proof.
  intros H. unfold toUint16. rewrite Z.mod_small by lia. apply Nat2Z.id.
Qed.

(** X30.  [generateHeadGeometry] needs the bones [spine_neck] and [head]:
    when either is missing it throws [Missing spine_neck or head bone!],
    and when both are there it returns a geometry for every solid that has
    positions, binding all vertices with weight 1 to what the [Uint16Array]
    keeps of the index of the first bone named [head]: the index modulo
    65536, which is the index itself in a skeleton of at most 65536
    bones. *)
Theorem generateHeadGeometry_needs_bones (bones : list SkelBone) (solid : BufferGeometry) :
  ("spine_neck" ∉ boneNames bones \/ "head" ∉ boneNames bones ->
   generateHeadGeometry bones solid
   = Throw (JsError "Missing spine_neck or head bone!"))
  /\ ("spine_neck" ∈ boneNames bones -> "head" ∈ boneNames bones ->
      is_Some (attributes solid !! "position") ->
      exists g boneIdx head,
        generateHeadGeometry bones solid = Ok g
        /\ findBone "head" bones = Some (boneIdx, head)
        /\ (forall i, (i < BG.vertexCount g)%nat ->
             skinIndexOf g i = Some (toUint16 boneIdx, 0%nat, 0%nat, 0%nat)
             /\ skinWeightOf g i = Some (1, 0, 0, 0))
        /\ ((Z.of_nat (length bones) <= 65536)%Z -> toUint16 boneIdx = boneIdx)).
Proof.
  split.
  - intros H. unfold generateHeadGeometry.
    destruct (findBone "spine_neck" bones) as [[? ?]|] eqn:E1.
    + destruct (findBone "head" bones) as [[? ?]|] eqn:E2; [|reflexivity].
      exfalso. destruct H as [H|H].
      * apply findBone_None in H. congruence.
      * apply findBone_None in H. congruence.
    + reflexivity.
  - intros Hn Hh [p Hp]. unfold generateHeadGeometry.
    destruct (findBone "spine_neck" bones) as [[? ?]|] eqn:E1.
    2:{ apply findBone_None in E1. contradiction. }
    destruct (findBone "head" bones) as [[boneIdx head]|] eqn:E2.
    2:{ apply findBone_None in E2. contradiction. }
    assert (Hp' : exists p', attributes (BG.toNonIndexed solid) !! "position" = Some p').
    { unfold BG.toNonIndexed. destruct (index solid); [|eauto].
      cbn [attributes]. rewrite lookup_fmap, Hp. cbn. eauto. }
    destruct Hp' as [p' Hp']. rewrite Hp'.
    eexists _, boneIdx, head. split; [reflexivity|]. split; [reflexivity|]. split.
    + intros i Hi. unfold BG.vertexCount, BG.setAttribute in Hi. cbn [attributes] in Hi.
      rewrite !lookup_insert_ne, Hp' in Hi by done.
      unfold skinIndexOf, skinWeightOf, BG.setAttribute. cbn [attributes].
      rewrite lookup_insert_ne, lookup_insert_eq by done. rewrite lookup_insert_eq.
      destruct (fillFirstSlot_nth 0%nat (toUint16 boneIdx) _ i Hi) as (I0 & I1 & I2 & I3).
      destruct (fillFirstSlot_nth 0%R 1%R _ i Hi) as (W0 & W1 & W2 & W3).
      by rewrite I0, I1, I2, I3, W0, W1, W2, W3.
    + intros Hlen. apply toUint16_small.
      apply findBone_Some in E2 as (Hb & _). apply lookup_lt_Some in Hb. lia.
Qed.
